(** * Carrom board: physics tick and turn/scoring rules

    A shallow embedding of [carrom_game_fixed.py]: the disc classes [Coin] and
    [Striker], and the methods of [CarromGame] that move discs, resolve
    collisions and pockets, score captures, switch turns, detect the end of the
    match, and save and load a match.

    Modelling conventions.
    - Python numbers that hold positions, velocities, radii and powers are real
      numbers ([R]); the data model of the specification types them as reals.
      Rounding, overflow and NaN of the binary64 format are outside the model.
      Python's [/] raises [ZeroDivisionError] on a zero divisor: fallible
      methods return a [PyResult].
    - Scores, player numbers and the foul counter are Python ints ([Z]).
    - Objects are mutated in place in the source; here every method takes the
      object and returns the new one.  The coins live in [self.coins] and are
      read and written by index, so that a write to one coin (the queen put
      back by [handle_foul]) is seen by the loop that is running over the list.
    - The global generator of the [random] module is the field [rng] of the
      game: the stream of the numbers in [0,1) it will still produce.
    - Drawing, fonts and sound playback have no effect on the game state and
      are left out.

    Layout: the model of the source; the vocabulary of the properties and the
    sample states; then the proofs, from the motion of one disc to whole runs
    of frames. *)

From Stdlib Require Import Reals Lra ZArith Lia List String Bool DecimalString.
Import ListNotations.

Open Scope R_scope.

(** ** Python values *)

Inductive PyExc : Type := ZeroDivisionError.

Inductive PyResult (A : Type) : Type :=
| Ok (a : A)
| Raise (e : PyExc).
Arguments Ok {A} a.
Arguments Raise {A} e.

Definition bind {A B : Type} (m : PyResult A) (k : A -> PyResult B) : PyResult B :=
  match m with
  | Ok a => k a
  | Raise e => Raise e
  end.

Definition fmap {A B : Type} (f : A -> B) (m : PyResult A) : PyResult B :=
  match m with
  | Ok a => Ok (f a)
  | Raise e => Raise e
  end.

Notation "x <- m ;; k" := (bind m (fun x => k))
  (at level 61, m at next level, right associativity).

(** [a / b] on floats. *)
Definition py_div (a b : R) : PyResult R :=
  if Req_dec_T b 0 then Raise ZeroDivisionError else Ok (a / b).

Definition Rltb (a b : R) : bool := if Rlt_dec a b then true else false.
Definition Reqb (a b : R) : bool := if Req_dec_T a b then true else false.

(** [a % b] on floats, for a positive [b]: the result has the sign of [b]. *)
Definition py_mod (a b : R) : R := a - b * IZR (Int_part (a / b)).

(** [int(a)] for a non-negative [a]. *)
Definition py_int (a : R) : Z := Int_part a.

(** [math.atan2(y, x)]. *)
Definition atan2 (y x : R) : R :=
  if Rltb 0 x then atan (y / x)
  else if Rltb x 0 then
    (if Rltb y 0 then atan (y / x) - PI else atan (y / x) + PI)
  else if Rltb 0 y then PI / 2
  else if Rltb y 0 then - PI / 2
  else 0.

(** [str(n)] for an int. *)
Definition str (n : Z) : string := NilZero.string_of_int (Z.to_int n).

(** The [random] module: the state is the stream of future outputs of
    [random.random()]. *)
Definition RNG : Type := nat -> R.

Definition random_random (r : RNG) : R * RNG := (r O, fun n => r (S n)).

Definition random_uniform (a b : R) (r : RNG) : R * RNG :=
  let (u, r') := random_random r in (a + (b - a) * u, r').

Definition random_randint (a b : Z) (r : RNG) : Z * RNG :=
  let (u, r') := random_random r in ((a + py_int (u * IZR (b - a + 1)))%Z, r').

(** ** Constants *)

Definition SCREEN_WIDTH : Z := 800.
Definition SCREEN_HEIGHT : Z := 800.
Definition BOARD_SIZE : Z := 600.
Definition POCKET_RADIUS : Z := 30.
Definition STRIKER_RADIUS : Z := 20.
Definition COIN_RADIUS : Z := 15.
Definition QUEEN_RADIUS : Z := 15.

Definition Color : Type := (Z * Z * Z)%type.
Definition WHITE : Color := (255, 255, 255)%Z.
Definition BLACK : Color := (0, 0, 0)%Z.
Definition RED : Color := (255, 0, 0)%Z.

Definition color_eqb (a b : Color) : bool :=
  let '(a1, a2, a3) := a in
  let '(b1, b2, b3) := b in
  (a1 =? b1)%Z && (a2 =? b2)%Z && (a3 =? b3)%Z.

Inductive GameState : Type :=
| START_SCREEN | SETTINGS_SCREEN | PLAYING | GAME_OVER | PAUSED.

Definition GameState_eqb (a b : GameState) : bool :=
  match a, b with
  | START_SCREEN, START_SCREEN | SETTINGS_SCREEN, SETTINGS_SCREEN
  | PLAYING, PLAYING | GAME_OVER, GAME_OVER | PAUSED, PAUSED => true
  | _, _ => false
  end.

(** [board_margin = (SCREEN_WIDTH - BOARD_SIZE) // 2], computed in several
    methods. *)
Definition board_margin : Z := (SCREEN_WIDTH - BOARD_SIZE) / 2.

(** ** class Coin *)

Record Coin : Type := mkCoin {
  x : R;
  y : R;
  color : Color;
  radius : R;
  velocity_x : R;
  velocity_y : R;
  is_queen : bool;
  is_pocketed : bool;
  friction : R;
  rotation : R
}.

(** [Coin.__init__]; the initial rotation is drawn from the generator. *)
Definition Coin_init (x0 y0 : R) (col : Color) (queen : bool) (r : RNG) : Coin * RNG :=
  let (rot, r') := random_uniform 0 360 r in
  (mkCoin x0 y0 col (IZR (if queen then QUEEN_RADIUS else COIN_RADIUS))
          0 0 queen false 0.98 rot, r').

(** One axis of the boundary test of [Coin.update]: the position and the
    velocity component after the wall test, for the lower wall [lo] and the
    upper wall [hi]. *)
Definition wall (p v rad lo hi : R) : R * R :=
  if Rltb (p - rad) lo then (lo + rad, - v * 0.8)
  else if Rltb hi (p + rad) then (hi - rad, - v * 0.8)
  else (p, v).

(** [Coin.update]. *)
Definition Coin_update (c : Coin) : Coin :=
  if is_pocketed c then c
  else
    let vx := velocity_x c * friction c in
    let vy := velocity_y c * friction c in
    let '(vx, vy) :=
      if Rltb (Rabs vx) 0.1 && Rltb (Rabs vy) 0.1 then (0, 0) else (vx, vy) in
    let px := x c + vx in
    let py := y c + vy in
    let rot :=
      if negb (Reqb vx 0) || negb (Reqb vy 0) then
        let speed := sqrt (vx ^ 2 + vy ^ 2) in
        py_mod (rotation c + speed * 2) 360
      else rotation c in
    let '(px, vx) :=
      wall px vx (radius c) (IZR board_margin) (IZR (SCREEN_WIDTH - board_margin)) in
    let '(py, vy) :=
      wall py vy (radius c) (IZR board_margin) (IZR (SCREEN_HEIGHT - board_margin)) in
    mkCoin px py (color c) (radius c) vx vy (is_queen c) false (friction c) rot.

(** The result of a resolved contact: the two discs, and the normal and the
    impact speed that the striker's particle effect reads. *)
Record Contact : Type := mkContact {
  hit_self : Coin;
  hit_other : Coin;
  hit_nx : R;
  hit_ny : R;
  impact_speed : R
}.

(** The part of [Coin.check_collision] shared by coins and striker: [None]
    stands for [return False], [Some] for the path that ends in
    [return True]. *)
Definition resolve_collision (self other : Coin) : PyResult (option Contact) :=
  if is_pocketed self || is_pocketed other then Ok None
  else
    let dx := x other - x self in
    let dy := y other - y self in
    let distance := sqrt (dx * dx + dy * dy) in
    if Rltb distance (radius self + radius other) then
      nx <- py_div dx distance ;;
      ny <- py_div dy distance ;;
      let dvx := velocity_x other - velocity_x self in
      let dvy := velocity_y other - velocity_y self in
      let speed := dvx * nx + dvy * ny in
      if Rltb speed 0 then Ok None
      else
        impulse <- py_div (2 * speed) (radius self + radius other) ;;
        let svx := velocity_x self + impulse * nx * radius other in
        let svy := velocity_y self + impulse * ny * radius other in
        let ovx := velocity_x other - impulse * nx * radius self in
        let ovy := velocity_y other - impulse * ny * radius self in
        let overlap := (radius self + radius other - distance) / 2 in
        let self' :=
          mkCoin (x self - overlap * nx) (y self - overlap * ny) (color self)
                 (radius self) svx svy (is_queen self) (is_pocketed self)
                 (friction self) (rotation self) in
        let other' :=
          mkCoin (x other + overlap * nx) (y other + overlap * ny) (color other)
                 (radius other) ovx ovy (is_queen other) (is_pocketed other)
                 (friction other) (rotation other) in
        Ok (Some (mkContact self' other' nx ny speed))
    else Ok None.

(** [Coin.check_collision] when [self] is a plain coin. *)
Definition Coin_check_collision (self other : Coin) : PyResult (Coin * Coin * bool) :=
  hit <- resolve_collision self other ;;
  match hit with
  | Some h => Ok (hit_self h, hit_other h, true)
  | None => Ok (self, other, false)
  end.

(** [Coin.check_pocket]: the loop over the pockets stops at the first pocket
    that is close enough.  A pocket is a pair of ints. *)
Fixpoint in_some_pocket (c : Coin) (pockets : list (Z * Z)) : bool :=
  match pockets with
  | [] => false
  | pocket :: rest =>
      let dx := IZR (fst pocket) - x c in
      let dy := IZR (snd pocket) - y c in
      let distance := sqrt (dx * dx + dy * dy) in
      if Rltb distance (IZR (POCKET_RADIUS - 5)) then true
      else in_some_pocket c rest
  end.

Definition set_is_pocketed (c : Coin) (b : bool) : Coin :=
  mkCoin (x c) (y c) (color c) (radius c) (velocity_x c) (velocity_y c)
         (is_queen c) b (friction c) (rotation c).

Definition Coin_check_pocket (c : Coin) (pockets : list (Z * Z)) : Coin * bool :=
  if is_pocketed c then (c, false)
  else if in_some_pocket c pockets then (set_is_pocketed c true, true)
  else (c, false).

(** ** class Striker(Coin) *)

(** An entry of [strike_particles]: a dict with the keys x, y, vx, vy, life
    and color. *)
Record Particle : Type := mkParticle {
  p_x : R;
  p_y : R;
  p_vx : R;
  p_vy : R;
  p_life : R;
  p_color : Color
}.

(** The attributes inherited from [Coin] are the field [base]. *)
Record Striker : Type := mkStriker {
  base : Coin;
  is_positioned : bool;
  is_aiming : bool;
  aim_angle : R;
  power : R;
  is_shooting : bool;
  strike_particles : list Particle;
  strike_sound_played : bool
}.

(** [self.max_power] is assigned once, in [__init__], and never written
    again. *)
Definition max_power : R := 20.

Definition set_base (s : Striker) (c : Coin) : Striker :=
  mkStriker c (is_positioned s) (is_aiming s) (aim_angle s) (power s)
            (is_shooting s) (strike_particles s) (strike_sound_played s).

Definition set_x (c : Coin) (v : R) : Coin :=
  mkCoin v (y c) (color c) (radius c) (velocity_x c) (velocity_y c)
         (is_queen c) (is_pocketed c) (friction c) (rotation c).

Definition set_is_shooting (s : Striker) (b : bool) : Striker :=
  mkStriker (base s) (is_positioned s) (is_aiming s) (aim_angle s) (power s)
            b (strike_particles s) (strike_sound_played s).

(** [Striker.reset_position]. *)
Definition Striker_reset_position (s : Striker) (player : Z) : Striker :=
  let c := base s in
  let py :=
    if (player =? 1)%Z then IZR (SCREEN_HEIGHT - board_margin - 50)
    else IZR (board_margin + 50) in
  let px := IZR (SCREEN_WIDTH / 2) in
  mkStriker
    (mkCoin px py (color c) (radius c) 0 0 (is_queen c) false (friction c) (rotation c))
    false false (aim_angle s) 0 false (strike_particles s) (strike_sound_played s).

(** [Striker.__init__]. *)
Definition Striker_init (x0 y0 : R) (r : RNG) : Striker * RNG :=
  let (c, r') := Coin_init x0 y0 WHITE false r in
  let c := mkCoin (x c) (y c) (color c) (IZR STRIKER_RADIUS) (velocity_x c)
                  (velocity_y c) (is_queen c) (is_pocketed c) (friction c)
                  (rotation c) in
  let s := Striker_reset_position (mkStriker c false false 0 0 false [] false) 1 in
  (mkStriker (base s) false false 0 0 false [] false, r').

(** [Striker.position]. *)
Definition Striker_position (s : Striker) (px : R) : Striker :=
  let min_x := IZR board_margin + radius (base s) + 50 in
  let max_x := IZR SCREEN_WIDTH - IZR board_margin - radius (base s) - 50 in
  set_base s (set_x (base s) (Rmax min_x (Rmin px max_x))).

(** [Striker.aim]. *)
Definition Striker_aim (s : Striker) (mouse_x mouse_y : R) : Striker :=
  let dx := mouse_x - x (base s) in
  let dy := mouse_y - y (base s) in
  mkStriker (base s) (is_positioned s) (is_aiming s) (atan2 dy dx) (power s)
            (is_shooting s) (strike_particles s) (strike_sound_played s).

(** [Striker.set_power]. *)
Definition Striker_set_power (s : Striker) (power_percentage : R) : Striker :=
  mkStriker (base s) (is_positioned s) (is_aiming s) (aim_angle s)
            (Rmin (power_percentage * max_power / 100) max_power)
            (is_shooting s) (strike_particles s) (strike_sound_played s).

(** The particle loop of [Striker.shoot], [n] rounds. *)
Fixpoint shoot_particles (n : nat) (s : Striker) (acc : list Particle) (r : RNG)
  : list Particle * RNG :=
  match n with
  | O => (acc, r)
  | S n' =>
      let (da, r) := random_uniform (-0.3) 0.3 r in
      let angle := aim_angle s + PI + da in
      let (u, r) := random_uniform 1 4 r in
      let speed := u * (power s / max_power) in
      let (cr, r) := random_randint 200 255 r in
      let (cg, r) := random_randint 200 255 r in
      let (cb, r) := random_randint 100 200 r in
      let (life, r) := random_uniform 10 25 r in
      let p :=
        mkParticle (x (base s) - cos (aim_angle s) * radius (base s) * 0.8)
                   (y (base s) - sin (aim_angle s) * radius (base s) * 0.8)
                   (cos angle * speed) (sin angle * speed) life (cr, cg, cb) in
      shoot_particles n' s (acc ++ [p]) r
  end.

(** [Striker.shoot]. *)
Definition Striker_shoot (s : Striker) (r : RNG) : Striker * RNG :=
  let c := base s in
  let c := mkCoin (x c) (y c) (color c) (radius c)
                  (cos (aim_angle s) * power s) (sin (aim_angle s) * power s)
                  (is_queen c) (is_pocketed c) (friction c) (rotation c) in
  let s := mkStriker c false false (aim_angle s) (power s) true []
                     (strike_sound_played s) in
  let num_particles := Z.to_nat (py_int (20 * (power s / max_power))) in
  let (ps, r) := shoot_particles num_particles s [] r in
  (mkStriker (base s) (is_positioned s) (is_aiming s) (aim_angle s) (power s)
             (is_shooting s) ps (strike_sound_played s), r).

(** The particle loop of [Striker.update]. *)
Fixpoint move_particles (ps : list Particle) : list Particle :=
  match ps with
  | [] => []
  | p :: rest =>
      let p' := mkParticle (p_x p + p_vx p) (p_y p + p_vy p) (p_vx p) (p_vy p)
                           (p_life p - 1) (p_color p) in
      if Rltb 0 (p_life p') then p' :: move_particles rest
      else move_particles rest
  end.

(** [Striker.update]. *)
Definition Striker_update (s : Striker) : Striker :=
  let c := Coin_update (base s) in
  let ps := move_particles (strike_particles s) in
  let played :=
    if Reqb (velocity_x c) 0 && Reqb (velocity_y c) 0 then false
    else strike_sound_played s in
  mkStriker c (is_positioned s) (is_aiming s) (aim_angle s) (power s)
            (is_shooting s) ps played.

(** The particle loop of [Coin.check_collision], run when [self] is the
    striker. *)
Fixpoint collision_particles (n : nat) (px py nx ny speed0 : R) (col : Color)
    (acc : list Particle) (r : RNG) : list Particle * RNG :=
  match n with
  | O => (acc, r)
  | S n' =>
      let (da, r) := random_uniform (- PI / 2) (PI / 2) r in
      let angle := atan2 ny nx + da in
      let (u, r) := random_uniform 0.5 2 r in
      let speed := u * Rmin 3 speed0 in
      let particle_color :=
        if color_eqb col WHITE then (255, 255, 255)%Z
        else if color_eqb col BLACK then (50, 50, 50)%Z
        else if color_eqb col RED then (255, 100, 100)%Z
        else (200, 200, 200)%Z in
      let (life, r) := random_uniform 5 15 r in
      let p := mkParticle px py (cos angle * speed) (sin angle * speed) life
                          particle_color in
      collision_particles n' px py nx ny speed0 col (acc ++ [p]) r
  end.

(** [Coin.check_collision] when [self] is the striker
    ([isinstance(self, Striker)] holds). *)
Definition Striker_check_collision (s : Striker) (other : Coin) (r : RNG)
  : PyResult (Striker * Coin * bool * RNG) :=
  hit <- resolve_collision (base s) other ;;
  match hit with
  | None => Ok (s, other, false, r)
  | Some h =>
      let c := hit_self h in
      if Rltb 0.5 (impact_speed h) then
        let collision_point_x := x c + hit_nx h * radius c in
        let collision_point_y := y c + hit_ny h * radius c in
        let n := Z.to_nat (py_int (Rmin 10 (impact_speed h * 2))) in
        let (ps, r) :=
          collision_particles n collision_point_x collision_point_y
            (hit_nx h) (hit_ny h) (impact_speed h) (color (hit_other h))
            (strike_particles s) r in
        Ok (mkStriker c (is_positioned s) (is_aiming s) (aim_angle s) (power s)
                      (is_shooting s) ps (strike_sound_played s),
            hit_other h, true, r)
      else Ok (set_base s c, hit_other h, true, r)
  end.

(** ** class CarromGame *)

Record CarromGame : Type := mkGame {
  striker : Striker;
  coins : list Coin;
  pockets : list (Z * Z);
  current_player : Z;
  player1_score : Z;
  player2_score : Z;
  player3_score : Z;
  player4_score : Z;
  queen_pocketed : bool;
  queen_covered : bool;
  last_pocketed_queen : bool;
  foul_count : Z;
  winner : option Z;
  all_coins_still : bool;
  turn_message : string;
  game_saved : bool;
  game_state : GameState;
  player_mode : Z;
  current_theme : string;
  rng : RNG
}.

Definition set_striker (g : CarromGame) (s : Striker) : CarromGame :=
  mkGame s (coins g) (pockets g) (current_player g) (player1_score g)
         (player2_score g) (player3_score g) (player4_score g) (queen_pocketed g)
         (queen_covered g) (last_pocketed_queen g) (foul_count g) (winner g)
         (all_coins_still g) (turn_message g) (game_saved g) (game_state g)
         (player_mode g) (current_theme g) (rng g).

Definition set_coins (g : CarromGame) (cs : list Coin) : CarromGame :=
  mkGame (striker g) cs (pockets g) (current_player g) (player1_score g)
         (player2_score g) (player3_score g) (player4_score g) (queen_pocketed g)
         (queen_covered g) (last_pocketed_queen g) (foul_count g) (winner g)
         (all_coins_still g) (turn_message g) (game_saved g) (game_state g)
         (player_mode g) (current_theme g) (rng g).

Definition set_rng (g : CarromGame) (r : RNG) : CarromGame :=
  mkGame (striker g) (coins g) (pockets g) (current_player g) (player1_score g)
         (player2_score g) (player3_score g) (player4_score g) (queen_pocketed g)
         (queen_covered g) (last_pocketed_queen g) (foul_count g) (winner g)
         (all_coins_still g) (turn_message g) (game_saved g) (game_state g)
         (player_mode g) (current_theme g) r.

Definition set_foul_count (g : CarromGame) (n : Z) : CarromGame :=
  mkGame (striker g) (coins g) (pockets g) (current_player g) (player1_score g)
         (player2_score g) (player3_score g) (player4_score g) (queen_pocketed g)
         (queen_covered g) (last_pocketed_queen g) n (winner g)
         (all_coins_still g) (turn_message g) (game_saved g) (game_state g)
         (player_mode g) (current_theme g) (rng g).

Definition set_turn_message (g : CarromGame) (m : string) : CarromGame :=
  mkGame (striker g) (coins g) (pockets g) (current_player g) (player1_score g)
         (player2_score g) (player3_score g) (player4_score g) (queen_pocketed g)
         (queen_covered g) (last_pocketed_queen g) (foul_count g) (winner g)
         (all_coins_still g) m (game_saved g) (game_state g)
         (player_mode g) (current_theme g) (rng g).

Definition set_game_state (g : CarromGame) (st : GameState) : CarromGame :=
  mkGame (striker g) (coins g) (pockets g) (current_player g) (player1_score g)
         (player2_score g) (player3_score g) (player4_score g) (queen_pocketed g)
         (queen_covered g) (last_pocketed_queen g) (foul_count g) (winner g)
         (all_coins_still g) (turn_message g) (game_saved g) st
         (player_mode g) (current_theme g) (rng g).

Definition set_all_coins_still (g : CarromGame) (b : bool) : CarromGame :=
  mkGame (striker g) (coins g) (pockets g) (current_player g) (player1_score g)
         (player2_score g) (player3_score g) (player4_score g) (queen_pocketed g)
         (queen_covered g) (last_pocketed_queen g) (foul_count g) (winner g)
         b (turn_message g) (game_saved g) (game_state g)
         (player_mode g) (current_theme g) (rng g).

Definition set_current_player (g : CarromGame) (p : Z) : CarromGame :=
  mkGame (striker g) (coins g) (pockets g) p (player1_score g)
         (player2_score g) (player3_score g) (player4_score g) (queen_pocketed g)
         (queen_covered g) (last_pocketed_queen g) (foul_count g) (winner g)
         (all_coins_still g) (turn_message g) (game_saved g) (game_state g)
         (player_mode g) (current_theme g) (rng g).

(** [coins[i] = c]; the index is in range wherever the methods use it. *)
Fixpoint list_set {A : Type} (l : list A) (i : nat) (a : A) : list A :=
  match l, i with
  | [], _ => []
  | _ :: t, O => a :: t
  | h :: t, S i' => h :: list_set t i' a
  end.

(** [CarromGame.create_pockets]. *)
Definition create_pockets : list (Z * Z) :=
  [ (board_margin, board_margin);
    (SCREEN_WIDTH - board_margin, board_margin);
    (board_margin, SCREEN_HEIGHT - board_margin);
    (SCREEN_WIDTH - board_margin, SCREEN_HEIGHT - board_margin) ]%Z.

(** One of the three loops of [setup_coins]: [n] coins on a circle of radius
    [rad], the [i]-th at angle [i * (2 pi / n) + offset], in the colour
    [even] when [i % 2 == 0] and [odd] otherwise.  [i] counts up from
    [n - k]. *)
Fixpoint coin_ring (k n : nat) (rad offset : R) (even odd : Color)
    (cs : list Coin) (r : RNG) : list Coin * RNG :=
  match k with
  | O => (cs, r)
  | S k' =>
      let i := (n - k)%nat in
      let angle := INR i * (2 * PI / INR n) + offset in
      let px := IZR (SCREEN_WIDTH / 2) + rad * cos angle in
      let py := IZR (SCREEN_HEIGHT / 2) + rad * sin angle in
      let (c, r) := Coin_init px py (if Nat.even i then even else odd) false r in
      coin_ring k' n rad offset even odd (cs ++ [c]) r
  end.

(** [CarromGame.setup_coins], appending to [cs]. *)
Definition setup_coins (cs : list Coin) (r : RNG) : list Coin * RNG :=
  let center_x := IZR (SCREEN_WIDTH / 2) in
  let center_y := IZR (SCREEN_HEIGHT / 2) in
  let (q, r) := Coin_init center_x center_y RED true r in
  let cs := cs ++ [q] in
  let (cs, r) := coin_ring 6 6 (IZR COIN_RADIUS * 2.5) 0 BLACK WHITE cs r in
  let (cs, r) := coin_ring 8 8 (IZR COIN_RADIUS * 4.5) (PI / 8) WHITE BLACK cs r in
  coin_ring 9 9 (IZR COIN_RADIUS * 6.5) (PI / 9) BLACK WHITE cs r.

(** [CarromGame.reset_game]. *)
Definition reset_game (g : CarromGame) : CarromGame :=
  let (s, r) :=
    Striker_init (IZR (SCREEN_WIDTH / 2)) (IZR (SCREEN_HEIGHT - 100)) (rng g) in
  let (cs, r) := setup_coins [] r in
  mkGame s cs create_pockets 1 0 0 0 0 false false false 0 None true
         EmptyString false (game_state g) (player_mode g) (current_theme g) r.

(** The loop of [handle_foul] that puts the queen back: the first coin with
    [is_queen] is taken out of the pocket and placed at the centre; [None]
    when the list has no queen. *)
Fixpoint return_queen (cs : list Coin) : option (list Coin) :=
  match cs with
  | [] => None
  | c :: rest =>
      if is_queen c then
        Some (mkCoin (IZR (SCREEN_WIDTH / 2)) (IZR (SCREEN_HEIGHT / 2)) (color c)
                     (radius c) (velocity_x c) (velocity_y c) (is_queen c) false
                     (friction c) (rotation c) :: rest)
      else option_map (cons c) (return_queen rest)
  end.

(** [CarromGame.handle_foul]. *)
Definition handle_foul (message : string) (g : CarromGame) : CarromGame :=
  let '(cs, pending) :=
    if last_pocketed_queen g && negb (queen_covered g) then
      match return_queen (coins g) with
      | Some cs => (cs, false)
      | None => (coins g, last_pocketed_queen g)
      end
    else (coins g, last_pocketed_queen g) in
  let player := (3 - current_player g)%Z in
  mkGame (Striker_reset_position (striker g) player) cs (pockets g) player
         (player1_score g) (player2_score g) (player3_score g) (player4_score g)
         (queen_pocketed g) (queen_covered g) pending (foul_count g) (winner g)
         (all_coins_still g) message (game_saved g) (game_state g)
         (player_mode g) (current_theme g) (rng g).

(** [CarromGame.handle_pocketed_coin]. *)
Definition handle_pocketed_coin (coin : Coin) (g : CarromGame) : CarromGame :=
  if is_queen coin then
    mkGame (striker g) (coins g) (pockets g) (current_player g) (player1_score g)
           (player2_score g) (player3_score g) (player4_score g) true
           (queen_covered g) true 0 (winner g) (all_coins_still g)
           ("Player " ++ str (current_player g) ++ " pocketed the Queen! Must cover it.")
           (game_saved g) (game_state g) (player_mode g) (current_theme g) (rng g)
  else if color_eqb (color coin) WHITE && (current_player g =? 1)%Z then
    if last_pocketed_queen g then
      mkGame (striker g) (coins g) (pockets g) (current_player g)
             (player1_score g + 1 + 3) (player2_score g) (player3_score g)
             (player4_score g) (queen_pocketed g) true false 0 (winner g)
             (all_coins_still g) "Player 1 covered the Queen! +3 points"
             (game_saved g) (game_state g) (player_mode g) (current_theme g) (rng g)
    else
      mkGame (striker g) (coins g) (pockets g) (current_player g)
             (player1_score g + 1) (player2_score g) (player3_score g)
             (player4_score g) (queen_pocketed g) (queen_covered g)
             (last_pocketed_queen g) 0 (winner g)
             (all_coins_still g) "Player 1 pocketed a white coin!"
             (game_saved g) (game_state g) (player_mode g) (current_theme g) (rng g)
  else if color_eqb (color coin) BLACK && (current_player g =? 2)%Z then
    if last_pocketed_queen g then
      mkGame (striker g) (coins g) (pockets g) (current_player g)
             (player1_score g) (player2_score g + 1 + 3) (player3_score g)
             (player4_score g) (queen_pocketed g) true false 0 (winner g)
             (all_coins_still g) "Player 2 covered the Queen! +3 points"
             (game_saved g) (game_state g) (player_mode g) (current_theme g) (rng g)
    else
      mkGame (striker g) (coins g) (pockets g) (current_player g)
             (player1_score g) (player2_score g + 1) (player3_score g)
             (player4_score g) (queen_pocketed g) (queen_covered g)
             (last_pocketed_queen g) 0 (winner g)
             (all_coins_still g) "Player 2 pocketed a black coin!"
             (game_saved g) (game_state g) (player_mode g) (current_theme g) (rng g)
  else
    handle_foul ("Player " ++ str (current_player g) ++ " pocketed opponent's coin!") g.

(** [CarromGame.check_turn_end]. *)
Definition check_turn_end (g : CarromGame) : CarromGame :=
  if (3 <=? foul_count g)%Z then
    set_foul_count
      (handle_foul ("Player " ++ str (current_player g)
                    ++ " committed 3 consecutive fouls!") g) 0
  else if (0 <? foul_count g)%Z then
    let player := (3 - current_player g)%Z in
    mkGame (Striker_reset_position (striker g) player) (coins g) (pockets g) player
           (player1_score g) (player2_score g) (player3_score g) (player4_score g)
           (queen_pocketed g) (queen_covered g) (last_pocketed_queen g)
           (foul_count g) (winner g) (all_coins_still g)
           ("Player " ++ str player ++ "'s turn") (game_saved g) (game_state g)
           (player_mode g) (current_theme g) (rng g)
  else g.

(** The counting loop of [check_game_over]: the coins on the board of each
    of the two colours, as the pair (white_coins, black_coins). *)
Fixpoint count_coins (cs : list Coin) : Z * Z :=
  match cs with
  | [] => (0, 0)%Z
  | c :: rest =>
      let (w, b) := count_coins rest in
      if negb (is_pocketed c) then
        if color_eqb (color c) WHITE then (w + 1, b)%Z
        else if color_eqb (color c) BLACK then (w, b + 1)%Z
        else (w, b)
      else (w, b)
  end.

Definition set_winner (g : CarromGame) (w : Z) : CarromGame :=
  mkGame (striker g) (coins g) (pockets g) (current_player g) (player1_score g)
         (player2_score g) (player3_score g) (player4_score g) (queen_pocketed g)
         (queen_covered g) (last_pocketed_queen g) (foul_count g) (Some w)
         (all_coins_still g) (turn_message g) (game_saved g) GAME_OVER
         (player_mode g) (current_theme g) (rng g).

(** [CarromGame.check_game_over]. *)
Definition check_game_over (g : CarromGame) : CarromGame :=
  let (white_coins, black_coins) := count_coins (coins g) in
  if (white_coins =? 0)%Z then set_winner g 1
  else if (black_coins =? 0)%Z then set_winner g 2
  else g.

(** ** The tick: CarromGame.update *)

(** A [for] loop whose body may raise. *)
Fixpoint forM {S A : Type} (l : list A) (step : A -> S -> PyResult S) (s : S)
  : PyResult S :=
  match l with
  | [] => Ok s
  | a :: rest => s' <- step a s ;; forM rest step s'
  end.

(** [self.striker.check_collision(self.coins[i])], guarded by the test on
    [self.coins[i].is_pocketed]. *)
Definition collide_striker (i : nat) (g : CarromGame) : PyResult CarromGame :=
  match nth_error (coins g) i with
  | Some c =>
      if negb (is_pocketed c) then
        res <- Striker_check_collision (striker g) c (rng g) ;;
        let '(s, c', _, r) := res in
        Ok (set_rng (set_coins (set_striker g s) (list_set (coins g) i c')) r)
      else Ok g
  | None => Ok g
  end.

(** [self.coins[i].check_collision(self.coins[j])], guarded by the test on
    the two [is_pocketed] flags. *)
Definition collide_coins (i j : nat) (g : CarromGame) : PyResult CarromGame :=
  match nth_error (coins g) i, nth_error (coins g) j with
  | Some a, Some b =>
      if negb (is_pocketed a) && negb (is_pocketed b) then
        res <- Coin_check_collision a b ;;
        let '(a', b', _) := res in
        Ok (set_coins g (list_set (list_set (coins g) i a') j b'))
      else Ok g
  | _, _ => Ok g
  end.

(** The nested collision loops: for every [i], the striker against coin [i],
    then coin [i] against every coin [j] with [i < j]. *)
Definition collision_phase (g : CarromGame) : PyResult CarromGame :=
  let n := List.length (coins g) in
  forM (seq 0 n)
       (fun i g =>
          g' <- collide_striker i g ;;
          forM (seq (S i) (n - S i)) (collide_coins i) g')
       g.

(** What a tick reports as captured, in the order of capture. *)
Inductive Capture : Type :=
| StrikerCaptured
| CoinCaptured (i : nat).

(** One round of the pocket loop: [coin.check_pocket] on coin [i], and
    [handle_pocketed_coin] when it was captured. *)
Definition pocket_step (st : CarromGame * list Capture) (i : nat)
  : CarromGame * list Capture :=
  let (g, log) := st in
  match nth_error (coins g) i with
  | Some c =>
      let (c', captured) := Coin_check_pocket c (pockets g) in
      if captured then
        (handle_pocketed_coin c' (set_coins g (list_set (coins g) i c')),
         log ++ [CoinCaptured i])
      else (g, log)
  | None => (g, log)
  end.

Definition pocket_phase (g : CarromGame) : CarromGame * list Capture :=
  fold_left pocket_step (seq 0 (List.length (coins g))) (g, []).

(** A coin that keeps the pieces from being at rest. *)
Definition coin_moving (c : Coin) : bool :=
  negb (is_pocketed c)
  && (negb (Reqb (velocity_x c) 0) || negb (Reqb (velocity_y c) 0)).

(** The value computed for [self.all_coins_still]. *)
Definition pieces_still (g : CarromGame) : bool :=
  Reqb (velocity_x (base (striker g))) 0
  && Reqb (velocity_y (base (striker g))) 0
  && negb (existsb coin_moving (coins g)).

(** The end of [update], from the computation of [all_coins_still] on. *)
Definition settle (g : CarromGame) : CarromGame :=
  let g := set_all_coins_still g (pieces_still g) in
  let g :=
    if all_coins_still g && is_shooting (striker g) then
      check_turn_end (set_striker g (set_is_shooting (striker g) false))
    else g in
  check_game_over g.

(** The branch of [update] taken when [self.striker.check_pocket] returns
    [True]. *)
Definition striker_pocketed (g : CarromGame) : CarromGame :=
  let g := handle_foul "Striker pocketed!" g in
  set_striker g (set_is_shooting (striker g) false).

(** [update] from the pocket test of the striker on, that is after
    [self.striker.update()]. *)
Definition update_after_striker (g : CarromGame)
  : PyResult (CarromGame * list Capture) :=
  let (c, captured) := Coin_check_pocket (base (striker g)) (pockets g) in
  let g := set_striker g (set_base (striker g) c) in
  if captured then Ok (striker_pocketed g, [StrikerCaptured])
  else
    let g := set_coins g (map Coin_update (coins g)) in
    g <- collision_phase g ;;
    let (g, log) := pocket_phase g in
    Ok (settle g, log).

(** [CarromGame.update], together with the captures of the tick. *)
Definition update_log (g : CarromGame) : PyResult (CarromGame * list Capture) :=
  if negb (GameState_eqb (game_state g) PLAYING) then Ok (g, [])
  else update_after_striker (set_striker g (Striker_update (striker g))).

Definition update (g : CarromGame) : PyResult CarromGame :=
  fmap fst (update_log g).

(** ** Input: CarromGame.handle_events *)

Inductive Key : Type := K_ESCAPE | K_p | K_SPACE | K_r | K_m.

(** The pygame events of a match.  [MOUSEMOTION] carries what
    [pygame.mouse.get_pressed()[0]] returns while it is handled.  The keys of
    the settings screen and the keys that save and load are not events of a
    match; [save_game] and [load_game] are modelled below. *)
Inductive Event : Type :=
| KEYDOWN (key : Key)
| MOUSEBUTTONDOWN (button : Z) (pos : Z * Z)
| MOUSEBUTTONUP (button : Z) (pos : Z * Z)
| MOUSEMOTION (pos : Z * Z) (left_held : bool).

Definition set_is_positioned (s : Striker) (b : bool) : Striker :=
  mkStriker (base s) b (is_aiming s) (aim_angle s) (power s)
            (is_shooting s) (strike_particles s) (strike_sound_played s).

Definition set_is_aiming (s : Striker) (b : bool) : Striker :=
  mkStriker (base s) (is_positioned s) b (aim_angle s) (power s)
            (is_shooting s) (strike_particles s) (strike_sound_played s).

(** The release of the left button while aiming: the shot, and the increment
    of the foul counter. *)
Definition release (g : CarromGame) : CarromGame :=
  if Rltb 0 (power (striker g)) then
    let (s, r) := Striker_shoot (striker g) (rng g) in
    set_foul_count (set_rng (set_striker g s) r) (foul_count g + 1)
  else g.

(** The mouse events of the [PLAYING] state, handled when the pieces are
    still and no shot is under way. *)
Definition handle_mouse (ev : Event) (g : CarromGame) : CarromGame :=
  let s := striker g in
  match ev with
  | MOUSEBUTTONDOWN button pos =>
      if (button =? 1)%Z then
        if negb (is_positioned s) then
          set_striker g (Striker_position (set_is_positioned s true) (IZR (fst pos)))
        else g
      else if (button =? 3)%Z && is_positioned s then
        set_striker g (set_is_aiming s true)
      else g
  | MOUSEMOTION pos left_held =>
      if is_positioned s && negb (is_aiming s) then
        set_striker g (Striker_position s (IZR (fst pos)))
      else if is_aiming s then
        let s := Striker_aim s (IZR (fst pos)) (IZR (snd pos)) in
        if left_held then
          let dx := IZR (fst pos) - x (base s) in
          let dy := IZR (snd pos) - y (base s) in
          let distance := Rmin (sqrt (dx * dx + dy * dy)) 100 in
          set_striker g (Striker_set_power s distance)
        else set_striker g s
      else g
  | MOUSEBUTTONUP button pos =>
      if (button =? 1)%Z && is_aiming s then release g else g
  | KEYDOWN _ => g
  end.

(** One event of the loop of [handle_events]. *)
Definition handle_event (ev : Event) (g : CarromGame) : CarromGame :=
  match game_state g with
  | START_SCREEN =>
      match ev with
      | KEYDOWN K_SPACE => set_game_state g PLAYING
      | _ => g
      end
  | SETTINGS_SCREEN =>
      match ev with
      | KEYDOWN K_ESCAPE => set_game_state g START_SCREEN
      | _ => g
      end
  | GAME_OVER =>
      match ev with
      | KEYDOWN K_r => set_game_state (reset_game g) PLAYING
      | KEYDOWN K_m => set_game_state g START_SCREEN
      | _ => g
      end
  | PLAYING =>
      let g :=
        match ev with
        | KEYDOWN K_ESCAPE => set_game_state g PAUSED
        | _ => g
        end in
      if all_coins_still g && negb (is_shooting (striker g)) then handle_mouse ev g
      else g
  | PAUSED =>
      match ev with
      | KEYDOWN K_ESCAPE | KEYDOWN K_p => set_game_state g PLAYING
      | KEYDOWN K_m => set_game_state g START_SCREEN
      | _ => g
      end
  end.

(** One turn of the loop of [run]: the pending events, then the tick. *)
Definition frame (events : list Event) (g : CarromGame)
  : PyResult (CarromGame * list Capture) :=
  update_log (fold_left (fun g ev => handle_event ev g) events g).

(** A sequence of frames; the captures are collected in order. *)
Fixpoint run (frames : list (list Event)) (g : CarromGame)
  : PyResult (CarromGame * list Capture) :=
  match frames with
  | [] => Ok (g, [])
  | events :: rest =>
      out <- frame events g ;;
      out' <- run rest (fst out) ;;
      Ok (fst out', snd out ++ snd out')
  end.

(** ** Saving and loading *)

(** An element of the list stored under 'coins': a 5-tuple, or a value that
    does not unpack into five names ([err] is the text of the exception). *)
Inductive CoinEntry : Type :=
| CoinTuple (cx cy : R) (col : Color) (queen pocketed : bool)
| BadEntry (err : string).

(** The value stored under 'striker_pos'. *)
Inductive PosEntry : Type :=
| PosTuple (sx sy : R)
| BadPos (err : string).

(** The dict that [pickle.load] returns; a key that is absent is [None]. *)
Record Snapshot : Type := mkSnapshot {
  s_player_mode : option Z;
  s_current_theme : option string;
  s_current_player : option Z;
  s_player1_score : option Z;
  s_player2_score : option Z;
  s_player3_score : option Z;
  s_player4_score : option Z;
  s_queen_pocketed : option bool;
  s_queen_covered : option bool;
  s_last_pocketed_queen : option bool;
  s_coins : option (list CoinEntry);
  s_striker_pos : option PosEntry
}.

(** The file carrom_save.dat: absent, not a pickle ([err] is the text of the
    exception raised by [pickle.load]), or a pickled dict. *)
Inductive SaveFile : Type :=
| NoFile
| Unreadable (err : string)
| Pickled (s : Snapshot).

(** [CarromGame.save_game], when the file can be written: the game and the
    file written. *)
Definition save_game (g : CarromGame) : CarromGame * SaveFile :=
  let snapshot :=
    mkSnapshot (Some (player_mode g)) (Some (current_theme g))
      (Some (current_player g)) (Some (player1_score g)) (Some (player2_score g))
      (Some (player3_score g)) (Some (player4_score g)) (Some (queen_pocketed g))
      (Some (queen_covered g)) (Some (last_pocketed_queen g))
      (Some (map (fun c => CoinTuple (x c) (y c) (color c) (is_queen c) (is_pocketed c))
                 (coins g)))
      (Some (PosTuple (x (base (striker g))) (y (base (striker g))))) in
  (mkGame (striker g) (coins g) (pockets g) (current_player g) (player1_score g)
          (player2_score g) (player3_score g) (player4_score g) (queen_pocketed g)
          (queen_covered g) (last_pocketed_queen g) (foul_count g) (winner g)
          (all_coins_still g) "Game saved successfully!" true (game_state g)
          (player_mode g) (current_theme g) (rng g),
   Pickled snapshot).

(** The state of the [try] block of [load_game]: still running, or left by
    an exception with the assignments made so far. *)
Inductive Attempt : Type :=
| Running (g : CarromGame)
| Failed (err : string) (g : CarromGame).

Definition and_then (a : Attempt) (k : CarromGame -> Attempt) : Attempt :=
  match a with
  | Running g => k g
  | Failed err g => Failed err g
  end.

(** [self.attr = game_state[key]]: a missing key raises [KeyError(key)]. *)
Definition restore {A : Type} (key : string) (field : option A)
    (assign : CarromGame -> A -> CarromGame) (g : CarromGame) : Attempt :=
  match field with
  | Some v => Running (assign g v)
  | None => Failed ("'" ++ key ++ "'") g
  end.

(** The loop that recreates the coins. *)
Fixpoint restore_coins (entries : list CoinEntry) (g : CarromGame) : Attempt :=
  match entries with
  | [] => Running g
  | CoinTuple cx cy col queen pocketed :: rest =>
      let (c, r) := Coin_init cx cy col queen (rng g) in
      let c := set_is_pocketed c pocketed in
      restore_coins rest (set_rng (set_coins g (coins g ++ [c])) r)
  | BadEntry err :: _ => Failed err g
  end.

Definition set_scores (g : CarromGame) (s1 s2 s3 s4 : Z) : CarromGame :=
  mkGame (striker g) (coins g) (pockets g) (current_player g) s1 s2 s3 s4
         (queen_pocketed g) (queen_covered g) (last_pocketed_queen g)
         (foul_count g) (winner g) (all_coins_still g) (turn_message g)
         (game_saved g) (game_state g) (player_mode g) (current_theme g) (rng g).

Definition set_queen_flags (g : CarromGame) (pocketed covered pending : bool)
  : CarromGame :=
  mkGame (striker g) (coins g) (pockets g) (current_player g) (player1_score g)
         (player2_score g) (player3_score g) (player4_score g) pocketed covered
         pending (foul_count g) (winner g) (all_coins_still g) (turn_message g)
         (game_saved g) (game_state g) (player_mode g) (current_theme g) (rng g).

Definition set_player_mode (g : CarromGame) (m : Z) : CarromGame :=
  mkGame (striker g) (coins g) (pockets g) (current_player g) (player1_score g)
         (player2_score g) (player3_score g) (player4_score g) (queen_pocketed g)
         (queen_covered g) (last_pocketed_queen g) (foul_count g) (winner g)
         (all_coins_still g) (turn_message g) (game_saved g) (game_state g)
         m (current_theme g) (rng g).

Definition set_current_theme (g : CarromGame) (t : string) : CarromGame :=
  mkGame (striker g) (coins g) (pockets g) (current_player g) (player1_score g)
         (player2_score g) (player3_score g) (player4_score g) (queen_pocketed g)
         (queen_covered g) (last_pocketed_queen g) (foul_count g) (winner g)
         (all_coins_still g) (turn_message g) (game_saved g) (game_state g)
         (player_mode g) t (rng g).

Definition set_y (c : Coin) (v : R) : Coin :=
  mkCoin (x c) v (color c) (radius c) (velocity_x c) (velocity_y c)
         (is_queen c) (is_pocketed c) (friction c) (rotation c).

(** The body of the [try] block of [load_game], from [self.reset_game()]
    on. *)
Definition apply_snapshot (s : Snapshot) (g : CarromGame) : Attempt :=
  let a := Running (reset_game g) in
  let a := and_then a (restore "player_mode" (s_player_mode s) set_player_mode) in
  let a := and_then a (restore "current_theme" (s_current_theme s) set_current_theme) in
  let a := and_then a (restore "current_player" (s_current_player s) set_current_player) in
  let a := and_then a (restore "player1_score" (s_player1_score s)
    (fun g v => set_scores g v (player2_score g) (player3_score g) (player4_score g))) in
  let a := and_then a (restore "player2_score" (s_player2_score s)
    (fun g v => set_scores g (player1_score g) v (player3_score g) (player4_score g))) in
  let a := and_then a (restore "player3_score" (s_player3_score s)
    (fun g v => set_scores g (player1_score g) (player2_score g) v (player4_score g))) in
  let a := and_then a (restore "player4_score" (s_player4_score s)
    (fun g v => set_scores g (player1_score g) (player2_score g) (player3_score g) v)) in
  let a := and_then a (restore "queen_pocketed" (s_queen_pocketed s)
    (fun g v => set_queen_flags g v (queen_covered g) (last_pocketed_queen g))) in
  let a := and_then a (restore "queen_covered" (s_queen_covered s)
    (fun g v => set_queen_flags g (queen_pocketed g) v (last_pocketed_queen g))) in
  let a := and_then a (restore "last_pocketed_queen" (s_last_pocketed_queen s)
    (fun g v => set_queen_flags g (queen_pocketed g) (queen_covered g) v)) in
  let a := and_then a (fun g =>
    let g := set_coins g [] in
    match s_coins s with
    | Some entries => restore_coins entries g
    | None => Failed "'coins'" g
    end) in
  and_then a (fun g =>
    match s_striker_pos s with
    | Some (PosTuple sx sy) =>
        Running (set_striker g (set_base (striker g) (set_y (set_x (base (striker g)) sx) sy)))
    | Some (BadPos err) => Failed err g
    | None => Failed "'striker_pos'" g
    end).

(** [CarromGame.load_game]. *)
Definition load_game (file : SaveFile) (g : CarromGame) : CarromGame :=
  match file with
  | NoFile => set_turn_message g "No saved game found!"
  | Unreadable err =>
      set_game_state (set_turn_message g ("Error loading game: " ++ err)) START_SCREEN
  | Pickled s =>
      match apply_snapshot s g with
      | Running g =>
          set_game_state (set_turn_message g "Game loaded successfully!") PLAYING
      | Failed err g =>
          set_game_state (set_turn_message g ("Error loading game: " ++ err)) START_SCREEN
      end
  end.

(** ** Definitions used to state the properties *)

(** The score of player [p]. *)
Definition player_score (g : CarromGame) (p : Z) : Z :=
  if (p =? 1)%Z then player1_score g
  else if (p =? 2)%Z then player2_score g
  else if (p =? 3)%Z then player3_score g
  else player4_score g.

(** The colour that player [p] has to pocket: white for player 1, black for
    player 2. *)
Definition own_color (p : Z) : Color :=
  if (p =? 1)%Z then WHITE else BLACK.

(** The turn belongs to player 1 or to player 2. *)
Definition turn_of_1_or_2 (g : CarromGame) : Prop :=
  current_player g = 1%Z \/ current_player g = 2%Z.


(** The regular discs of colour [col] that are on the board. *)
Definition regular_left (col : Color) (cs : list Coin) : Z :=
  Z.of_nat (List.length
    (filter (fun c => negb (is_pocketed c) && negb (is_queen c)
                      && color_eqb (color c) col) cs)).

(** Every queen is red, as [setup_coins] creates it. *)
Definition queens_red (cs : list Coin) : Prop :=
  forall c, In c cs -> is_queen c = true -> color c = RED.

(** ** Sample states *)

Definition coin_at (px py vx vy : R) : Coin :=
  mkCoin px py WHITE (IZR COIN_RADIUS) vx vy false false 0.98 0.

Definition zero_rng : RNG := fun _ => 0.

Definition striker_at (px py : R) : Striker :=
  mkStriker (mkCoin px py WHITE (IZR STRIKER_RADIUS) 0 0 false false 0.98 0)
            false false 0 0 false [] false.

Definition disc (px py : R) (col : Color) (queen pocketed : bool) : Coin :=
  mkCoin px py col (IZR COIN_RADIUS) 0 0 queen pocketed 0.98 0.

(** A match in the [PLAYING] state with the given striker, coins, player to
    move, pending queen, foul counter and player mode. *)
Definition game_with (s : Striker) (cs : list Coin) (player : Z) (pending : bool)
    (fouls mode : Z) : CarromGame :=
  mkGame s cs create_pockets player 0 0 0 0 pending false pending fouls None true
         EmptyString false PLAYING mode "Classic" zero_rng.

(** A board with the queen in a pocket, waiting for its cover, one white and
    one black coin. *)
Definition small_board : list Coin :=
  [ disc 100 100 RED true true; disc 300 400 WHITE false false;
    disc 500 400 BLACK false false ].

(** The match state of the specification: the scores, the player to move,
    the queen flags, the foul counter, the winner and the player mode. *)
Record MatchState : Type := mkMatch {
  m_scores : Z * Z * Z * Z;
  m_current_player : Z;
  m_queen_pocketed : bool;
  m_queen_covered : bool;
  m_pending_cover : bool;
  m_foul_count : Z;
  m_winner : option Z;
  m_player_mode : Z
}.

Definition match_state (g : CarromGame) : MatchState :=
  mkMatch (player1_score g, player2_score g, player3_score g, player4_score g)
          (current_player g) (queen_pocketed g) (queen_covered g)
          (last_pocketed_queen g) (foul_count g) (winner g) (player_mode g).


(** A board where the last white coin and the last black coin are both in a
    pocket. *)
Definition cleared_board : list Coin :=
  [ disc 400 400 RED true false; disc 110 110 WHITE false true;
    disc 690 110 BLACK false true ].

Definition cleared_game : CarromGame :=
  game_with (striker_at 400 650) cleared_board 1 false 0 2.

(** The queen put back on a coin that rests at the centre of the board. *)
Definition queen_on_coin : list Coin :=
  [ disc 400 400 RED true false; disc 400 400 WHITE false false;
    disc 500 400 BLACK false false ].

(** A match in progress, and a save file whose dict has no key 'coins'. *)
Definition match_in_progress : CarromGame :=
  mkGame (striker_at 400 150) small_board create_pockets 2 5 3 0 0 true false true
         1 None true EmptyString false START_SCREEN 2 "Classic" zero_rng.

Definition snapshot_without_coins : Snapshot :=
  mkSnapshot (Some 2%Z) (Some "Classic"%string) (Some 1%Z) (Some 0%Z) (Some 0%Z)
             (Some 0%Z) (Some 0%Z) (Some false) (Some false) (Some false) None
             (Some (PosTuple 400 650)).

(** A property of the game that holds however the [try] block of [load_game]
    ends. *)
Definition attempt_holds (P : CarromGame -> Prop) (a : Attempt) : Prop :=
  match a with
  | Running g => P g
  | Failed _ g => P g
  end.

(** ** What a run of the simulation depends on

    The views below forget the state that only the presentation reads: the
    rotation of the discs, the particles and the sound flag of the striker,
    and the generator.  The coarse view ([coarse = true]) also forgets the turn
    message, the [game_saved] flag and the velocity that a captured coin other
    than the queen still carries: such a coin never returns to the board. *)

Definition out_of_play (c : Coin) : bool := is_pocketed c && negb (is_queen c).

Definition coin_view (coarse : bool) (c : Coin) : Coin :=
  mkCoin (x c) (y c) (color c) (radius c)
         (if coarse && out_of_play c then 0 else velocity_x c)
         (if coarse && out_of_play c then 0 else velocity_y c)
         (is_queen c) (is_pocketed c) (friction c) 0.

Definition striker_view (s : Striker) : Striker :=
  mkStriker (coin_view false (base s)) (is_positioned s) (is_aiming s)
            (aim_angle s) (power s) (is_shooting s) [] false.

Definition game_view (coarse : bool) (g : CarromGame) : CarromGame :=
  mkGame (striker_view (striker g)) (map (coin_view coarse) (coins g)) (pockets g)
         (current_player g) (player1_score g) (player2_score g) (player3_score g)
         (player4_score g) (queen_pocketed g) (queen_covered g)
         (last_pocketed_queen g) (foul_count g) (winner g) (all_coins_still g)
         (if coarse then EmptyString else turn_message g)
         (if coarse then false else game_saved g)
         (game_state g) (player_mode g) (current_theme g) zero_rng.

Definition contact_view (k1 k2 : bool) (h : Contact) : Contact :=
  mkContact (coin_view k1 (hit_self h)) (coin_view k2 (hit_other h))
            (hit_nx h) (hit_ny h) (impact_speed h).

Definition hit_view (coarse : bool) (res : Striker * Coin * bool * RNG)
  : Striker * Coin * bool :=
  let '(s, c, hit, _) := res in (striker_view s, coin_view coarse c, hit).

Definition pair_view (k : bool) (res : Coin * Coin * bool) : Coin * Coin * bool :=
  let '(a, b, hit) := res in (coin_view k a, coin_view k b, hit).

(** The view of the outcome of a tick or of a run: the view of the game, and
    the captures as they are. *)
Definition outcome_view (coarse : bool) (out : CarromGame * list Capture)
  : CarromGame * list Capture :=
  (game_view coarse (fst out), snd out).

(** A game with the same discs and match state as
    [game_with (striker_at 400 650) small_board 1 true 0 2], but with other
    rotations, a particle in flight, the sound flag set and another
    generator. *)
Definition noisy_game : CarromGame :=
  mkGame (mkStriker (mkCoin 400 650 WHITE (IZR STRIKER_RADIUS) 0 0 false false 0.98 77)
                    false false 0 0 false [mkParticle 1 2 3 4 5 WHITE] true)
         [ mkCoin 100 100 RED (IZR COIN_RADIUS) 0 0 true true 0.98 10;
           mkCoin 300 400 WHITE (IZR COIN_RADIUS) 0 0 false false 0.98 20;
           mkCoin 500 400 BLACK (IZR COIN_RADIUS) 0 0 false false 0.98 30 ]
         create_pockets 1 0 0 0 0 true false true 0 None true EmptyString false
         PLAYING 2 "Classic" (fun _ => 1 / 2).

(** ** Save points *)


(** What the constructors establish and no method changes: the pockets, the
    colour, radius and friction of the striker, the radius and friction of the
    coins. *)
Definition as_constructed (g : CarromGame) : Prop :=
  pockets g = create_pockets
  /\ color (base (striker g)) = WHITE
  /\ radius (base (striker g)) = IZR STRIKER_RADIUS
  /\ is_queen (base (striker g)) = false
  /\ is_pocketed (base (striker g)) = false
  /\ friction (base (striker g)) = 0.98
  /\ Forall (fun c => radius c = IZR (if is_queen c then QUEEN_RADIUS else COIN_RADIUS)
                      /\ friction c = 0.98)
            (coins g).



(** The element of the saved list for a coin. *)
Definition coin_entry (c : Coin) : CoinEntry :=
  CoinTuple (x c) (y c) (color c) (is_queen c) (is_pocketed c).




(** The last tick of the third shot without a capture: player 2 shot from
    the upper base line, the striker has almost stopped, the coins are still,
    the queen waits in a pocket for its cover. *)
Definition last_tick_game : CarromGame :=
  mkGame (mkStriker (mkCoin 420 150 WHITE (IZR STRIKER_RADIUS) 0.1 0 false false 0.98 0)
                    false false 0 4 true [] false)
         small_board create_pockets 2 0 0 0 0 true false true 3 None false
         EmptyString false PLAYING 2 "Classic" zero_rng.

(** [last_tick_game] after its tick: the queen is back at the centre, the
    turn and the striker are with player 1, the counter is 0. *)
Definition after_last_tick : CarromGame :=
  mkGame (mkStriker (mkCoin (IZR (SCREEN_WIDTH / 2)) (IZR (SCREEN_HEIGHT - board_margin - 50))
                            WHITE (IZR STRIKER_RADIUS) 0 0 false false 0.98 0)
                    false false 0 0 false [] false)
         [ mkCoin (IZR (SCREEN_WIDTH / 2)) (IZR (SCREEN_HEIGHT / 2)) RED (IZR COIN_RADIUS)
                  0 0 true false 0.98 0;
           disc 300 400 WHITE false false; disc 500 400 BLACK false false ]
         create_pockets 1 0 0 0 0 true false false 0 None true
         "Player 2 committed 3 consecutive fouls!" false PLAYING 2 "Classic" zero_rng.

(** A tick with the queen lying on a coin at the centre of the board. *)
Definition queen_on_coin_game : CarromGame :=
  game_with (striker_at 400 650) queen_on_coin 1 false 0 2.

(** A running match in which the last white coin is already in a pocket. *)
Definition white_cleared_game : CarromGame :=
  game_with (striker_at 400 650)
    [ disc 400 400 RED true false; disc 110 110 WHITE false true;
      disc 500 400 BLACK false false ] 1 false 0 2.

Definition white_cleared_over : CarromGame :=
  mkGame (striker_at 400 650)
    [ disc 400 400 RED true false; disc 110 110 WHITE false true;
      disc 500 400 BLACK false false ]
    create_pockets 1 0 0 0 0 false false false 0 (Some 1%Z) true EmptyString false
    GAME_OVER 2 "Classic" zero_rng.

(** ** Repeated motion *)

(** [n] calls of [Coin.update] on a disc that nothing else touches. *)
Definition updates (n : nat) (c : Coin) : Coin := Nat.iter n Coin_update c.

(** ** A sample contact

    Two coins of radius 15 whose centres are 20 apart on a horizontal line;
    the right one moves away from the left one at speed 5.  [check_collision]
    moves them apart until they touch and exchanges their velocities. *)
Definition contact_left : Coin := coin_at 400 400 0 0.
Definition contact_right : Coin := coin_at 420 400 5 0.
Definition contact_left_after : Coin := coin_at 395 400 5 0.
Definition contact_right_after : Coin := coin_at 425 400 0 0.

(** ** What a match keeps of its pieces *)

(** The attributes that make a disc the piece it is: nothing but the
    constructors writes them. *)
Definition same_kind (c c' : Coin) : Prop :=
  color c' = color c /\ radius c' = radius c /\ friction c' = friction c
  /\ is_queen c' = is_queen c.

(** A coin stays the piece it is, and a coin that is out of play (captured,
    and not the queen) does not change at all. *)
Definition coin_kept (c c' : Coin) : Prop :=
  same_kind c c' /\ (out_of_play c = true -> c' = c).

(** The striker stays the piece it is; it stays on the board and its power
    stays between 0 and [max_power] when they were so. *)
Definition striker_kept (s s' : Striker) : Prop :=
  same_kind (base s) (base s')
  /\ (is_pocketed (base s) = false -> is_pocketed (base s') = false)
  /\ (0 <= power s <= max_power -> 0 <= power s' <= max_power).

Definition pieces_kept (g g' : CarromGame) : Prop :=
  Forall2 coin_kept (coins g) (coins g')
  /\ striker_kept (striker g) (striker g')
  /\ pockets g' = pockets g.


(** The power of the striker is between 0 and [max_power]. *)
Definition power_in_range (g : CarromGame) : Prop :=
  0 <= power (striker g) <= max_power.

(** ** What a match keeps of its score *)

(** From [g] to [g'] with [n] captures in between: the scores of players 1
    and 2 do not decrease and gain at most 4 points for each capture, the
    scores of players 3 and 4 and the player mode do not change, and the two
    queen flags are not cleared. *)
Definition match_grows (n : nat) (g g' : CarromGame) : Prop :=
  (player1_score g <= player1_score g')%Z
  /\ (player2_score g <= player2_score g')%Z
  /\ (player1_score g' + player2_score g'
      <= player1_score g + player2_score g + 4 * Z.of_nat n)%Z
  /\ player3_score g' = player3_score g
  /\ player4_score g' = player4_score g
  /\ (queen_pocketed g = true -> queen_pocketed g' = true)
  /\ (queen_covered g = true -> queen_covered g' = true)
  /\ player_mode g' = player_mode g.

(** No frame holds a key event. *)
Definition no_keys (frames : list (list Event)) : Prop :=
  Forall (Forall (fun ev => match ev with KEYDOWN _ => False | _ => True end)) frames.

(** ** What [load_game] rebuilds *)

(** A coin as the loop of [load_game] creates it: at rest, with the radius
    of its kind and the friction of the constructor. *)
Definition rebuilt (c : Coin) : Prop :=
  velocity_x c = 0 /\ velocity_y c = 0
  /\ radius c = IZR (if is_queen c then QUEEN_RADIUS else COIN_RADIUS)
  /\ friction c = 0.98.

Definition is_some {A : Type} (o : option A) : bool :=
  match o with
  | Some _ => true
  | None => false
  end.

(** A dict that holds every key that [load_game] reads, with a list of
    5-tuples under 'coins' and a pair under 'striker_pos'. *)
Definition snapshot_complete (s : Snapshot) : bool :=
  is_some (s_player_mode s) && is_some (s_current_theme s)
  && is_some (s_current_player s) && is_some (s_player1_score s)
  && is_some (s_player2_score s) && is_some (s_player3_score s)
  && is_some (s_player4_score s) && is_some (s_queen_pocketed s)
  && is_some (s_queen_covered s) && is_some (s_last_pocketed_queen s)
  && match s_coins s with
     | Some entries =>
         forallb (fun e => match e with
                           | CoinTuple _ _ _ _ _ => true
                           | BadEntry _ => false
                           end) entries
     | None => false
     end
  && match s_striker_pos s with
     | Some (PosTuple _ _) => true
     | _ => false
     end.

(** ** The settings screen

    The branch of [handle_events] for the [SETTINGS_SCREEN] state reads and
    writes the game state and four attributes of the game: [current_theme],
    [player_mode], [sound_enabled] and [selected_option].  They are the
    fields of [Settings]; the first three carry the prefix of the record,
    their names being those of fields of [CarromGame]. *)

Record Settings : Type := mkSettings {
  settings_state : GameState;
  settings_theme : string;
  settings_player_mode : Z;
  sound_enabled : bool;
  selected_option : Z
}.

(** The keys that the settings screen reads; [MK_OTHER] is any other key. *)
Inductive MenuKey : Type := MK_ESCAPE | MK_RETURN | MK_UP | MK_DOWN | MK_OTHER.

(** [list(THEMES.keys())]: the keys in the order of the dict literal. *)
Definition theme_list : list string :=
  ["Classic"; "Modern"; "Dark"; "Forest"]%string.

(** [l.index(v)]: the first position of [v]; [None] stands for the
    [ValueError] raised when [v] is not in the list. *)
Fixpoint list_index (l : list string) (v : string) : option nat :=
  match l with
  | [] => None
  | a :: rest => if String.eqb a v then Some O else option_map S (list_index rest v)
  end.

(** A [KEYDOWN] event in the [SETTINGS_SCREEN] state.  [None] stands for the
    [ValueError] of [theme_list.index], which nothing catches. *)
Definition settings_keydown (key : MenuKey) (m : Settings) : option Settings :=
  match key with
  | MK_ESCAPE =>
      Some (mkSettings START_SCREEN (settings_theme m) (settings_player_mode m)
                       (sound_enabled m) (selected_option m))
  | MK_RETURN =>
      if (selected_option m =? 0)%Z then
        match list_index theme_list (settings_theme m) with
        | Some current_idx =>
            Some (mkSettings (settings_state m)
                    (nth ((current_idx + 1) mod List.length theme_list) theme_list
                         EmptyString)
                    (settings_player_mode m) (sound_enabled m) (selected_option m))
        | None => None
        end
      else if (selected_option m =? 1)%Z then
        Some (mkSettings (settings_state m) (settings_theme m)
                (if (settings_player_mode m =? 2)%Z then 4%Z else 2%Z)
                (sound_enabled m) (selected_option m))
      else if (selected_option m =? 2)%Z then
        Some (mkSettings (settings_state m) (settings_theme m) (settings_player_mode m)
                (negb (sound_enabled m)) (selected_option m))
      else if (selected_option m =? 3)%Z then
        Some (mkSettings START_SCREEN (settings_theme m) (settings_player_mode m)
                (sound_enabled m) (selected_option m))
      else Some m
  | MK_UP =>
      Some (mkSettings (settings_state m) (settings_theme m) (settings_player_mode m)
              (sound_enabled m) ((selected_option m - 1) mod 4)%Z)
  | MK_DOWN =>
      Some (mkSettings (settings_state m) (settings_theme m) (settings_player_mode m)
              (sound_enabled m) ((selected_option m + 1) mod 4)%Z)
  | MK_OTHER => Some m
  end.

(** A sequence of key presses on the settings screen. *)
Fixpoint settings_keys (keys : list MenuKey) (m : Settings) : option Settings :=
  match keys with
  | [] => Some m
  | key :: rest =>
      match settings_keydown key m with
      | Some m' => settings_keys rest m'
      | None => None
      end
  end.

(** The settings as [CarromGame.__init__] sets them, on the settings
    screen. *)
Definition default_settings : Settings :=
  mkSettings SETTINGS_SCREEN "Classic" 2 true 0.

(** ** A drag of the mouse *)

(** A match at rest in which the striker is placed at (400, 650) and the
    player has started to aim. *)
Definition aiming_game : CarromGame :=
  game_with (mkStriker (base (striker_at 400 650)) true true 0 0 false [] false)
            small_board 1 false 0 2.

(** ** Counting captures *)


(** ** A capture

    A running match at rest in which a white coin lies in the top-left
    corner, within the capture distance of the pocket, while player 1 is to
    move; and the same match after the tick that captures the coin. *)
Definition corner_game : CarromGame :=
  game_with (striker_at 400 650)
    [ disc 400 400 RED true false; disc 115 115 WHITE false false;
      disc 300 400 WHITE false false; disc 500 400 BLACK false false ] 1 false 0 2.

Definition corner_game_after : CarromGame :=
  mkGame (striker_at 400 650)
    [ disc 400 400 RED true false; disc 115 115 WHITE false true;
      disc 300 400 WHITE false false; disc 500 400 BLACK false false ]
    create_pockets 1 1 0 0 0 false false false 0 None true
    "Player 1 pocketed a white coin!" false PLAYING 2 "Classic" zero_rng.

(** ** Facts on the Python primitives *)

Lemma Rltb_true (a b : R) : Rltb a b = true <-> a < b.
Proof. unfold Rltb. destruct (Rlt_dec a b); split; intros; auto; discriminate. Qed.

Lemma Rltb_false (a b : R) : Rltb a b = false <-> b <= a.
Proof.
  unfold Rltb. destruct (Rlt_dec a b); split; intros; auto; try discriminate; lra.
Qed.

Lemma Reqb_true (a b : R) : Reqb a b = true <-> a = b.
Proof. unfold Reqb. destruct (Req_dec_T a b); split; intros; auto; discriminate. Qed.

Lemma Reqb_refl (a : R) : Reqb a a = true.
Proof. apply Reqb_true. reflexivity. Qed.

Lemma board_margin_val : IZR board_margin = 100.
Proof. reflexivity. Qed.

Lemma far_wall_val : IZR (SCREEN_WIDTH - board_margin) = 700.
Proof. reflexivity. Qed.

(** ** The wall test confines a disc *)

Lemma wall_between (p v rad lo hi : R) :
  lo + rad <= hi - rad ->
  lo + rad <= fst (wall p v rad lo hi) <= hi - rad.
Proof.
  intros Hfit. unfold wall.
  destruct (Rltb (p - rad) lo) eqn:Hlo; simpl; [lra|].
  destruct (Rltb hi (p + rad)) eqn:Hhi; simpl; [lra|].
  apply Rltb_false in Hlo. apply Rltb_false in Hhi. lra.
Qed.

Lemma Coin_update_x (c : Coin) :
  is_pocketed c = false ->
  exists p v,
    x (Coin_update c) =
    fst (wall p v (radius c) (IZR board_margin) (IZR (SCREEN_WIDTH - board_margin))).
Proof.
  intros Hp. unfold Coin_update. rewrite Hp.
  destruct (Rltb (Rabs (velocity_x c * friction c)) 0.1
            && Rltb (Rabs (velocity_y c * friction c)) 0.1);
    match goal with
    | |- context [wall ?p ?v (radius c) (IZR board_margin) (IZR (SCREEN_WIDTH - board_margin))] =>
        exists p, v;
        destruct (wall p v (radius c) (IZR board_margin) (IZR (SCREEN_WIDTH - board_margin)))
    end;
    match goal with
    | |- context [wall ?p ?v (radius c) (IZR board_margin) (IZR (SCREEN_HEIGHT - board_margin))] =>
        destruct (wall p v (radius c) (IZR board_margin) (IZR (SCREEN_HEIGHT - board_margin)))
    end; reflexivity.
Qed.

Lemma Coin_update_y (c : Coin) :
  is_pocketed c = false ->
  exists p v,
    y (Coin_update c) =
    fst (wall p v (radius c) (IZR board_margin) (IZR (SCREEN_HEIGHT - board_margin))).
Proof.
  intros Hp. unfold Coin_update. rewrite Hp.
  destruct (Rltb (Rabs (velocity_x c * friction c)) 0.1
            && Rltb (Rabs (velocity_y c * friction c)) 0.1);
    match goal with
    | |- context [wall ?p ?v (radius c) (IZR board_margin) (IZR (SCREEN_WIDTH - board_margin))] =>
        destruct (wall p v (radius c) (IZR board_margin) (IZR (SCREEN_WIDTH - board_margin)))
    end;
    match goal with
    | |- context [wall ?p ?v (radius c) (IZR board_margin) (IZR (SCREEN_HEIGHT - board_margin))] =>
        exists p, v;
        destruct (wall p v (radius c) (IZR board_margin) (IZR (SCREEN_HEIGHT - board_margin)))
    end; reflexivity.
Qed.

Lemma Coin_update_confined (c : Coin) :
  is_pocketed c = false ->
  2 * radius c <= IZR BOARD_SIZE ->
  100 + radius c <= x (Coin_update c) <= 700 - radius c
  /\ 100 + radius c <= y (Coin_update c) <= 700 - radius c.
Proof.
  intros Hp Hfit.
  assert (HB : IZR BOARD_SIZE = 600) by reflexivity.
  assert (HF : IZR (SCREEN_HEIGHT - board_margin) = 700) by reflexivity.
  pose proof board_margin_val as HM. pose proof far_wall_val as HX.
  destruct (Coin_update_x c Hp) as (p & v & Ex).
  destruct (Coin_update_y c Hp) as (q & w & Ey).
  rewrite Ex, Ey, HM, HX, HF.
  split.
  - pose proof (wall_between p v (radius c) 100 700). lra.
  - pose proof (wall_between q w (radius c) 100 700). lra.
Qed.

(** C9.  One motion update of a disc that is not captured leaves its centre
    inside the playable square on both axes, whatever its position and
    velocity were; the disc has to fit on the board, as the coins (radius 15)
    and the striker (radius 20) do. *)
Theorem Coin_update_in_bounds (c : Coin) :
  is_pocketed c = false ->
  2 * radius c <= IZR BOARD_SIZE ->
  IZR board_margin + radius c <= x (Coin_update c)
    <= IZR SCREEN_WIDTH - IZR board_margin - radius c
  /\ IZR board_margin + radius c <= y (Coin_update c)
    <= IZR SCREEN_HEIGHT - IZR board_margin - radius c.
Proof.
  intros Hp Hfit.
  assert (HW : IZR SCREEN_WIDTH = 800) by reflexivity.
  assert (HH : IZR SCREEN_HEIGHT = 800) by reflexivity.
  rewrite HW, HH, board_margin_val.
  pose proof (Coin_update_confined c Hp Hfit). lra.
Qed.

Lemma Coin_update_in_bounds_witness :
  IZR board_margin + radius (coin_at 20 900 (-30) 40)
    <= x (Coin_update (coin_at 20 900 (-30) 40))
    <= IZR SCREEN_WIDTH - IZR board_margin - radius (coin_at 20 900 (-30) 40)
  /\ IZR board_margin + radius (coin_at 20 900 (-30) 40)
    <= y (Coin_update (coin_at 20 900 (-30) 40))
    <= IZR SCREEN_HEIGHT - IZR board_margin - radius (coin_at 20 900 (-30) 40).
Proof.
  apply Coin_update_in_bounds.
  - reflexivity.
  - unfold coin_at, COIN_RADIUS, BOARD_SIZE. simpl radius. lra.
Defined.

(** ** Scoring a captured coin *)

Lemma color_eqb_refl (c : Color) : color_eqb c c = true.
Proof.
  destruct c as [[a b] d]. unfold color_eqb. now rewrite !Z.eqb_refl.
Qed.

Lemma color_eqb_eq (a b : Color) : color_eqb a b = true <-> a = b.
Proof.
  destruct a as [[a1 a2] a3], b as [[b1 b2] b3]. unfold color_eqb.
  rewrite !andb_true_iff, !Z.eqb_eq. split.
  - intros [[-> ->] ->]. reflexivity.
  - intros E. inversion E. auto.
Qed.

(** C5.  A regular disc of the colour of the player to move: the player's
    score grows by 1, and by 3 more when the queen waits for its cover; the
    pending cover is then cleared and the queen counted as covered; the foul
    counter is 0 afterwards. *)
Theorem own_coin_scores (g : CarromGame) (coin : Coin) :
  is_queen coin = false ->
  turn_of_1_or_2 g ->
  color coin = own_color (current_player g) ->
  let g' := handle_pocketed_coin coin g in
  let p := current_player g in
  (last_pocketed_queen g = true ->
     player_score g' p = (player_score g p + 1 + 3)%Z
     /\ last_pocketed_queen g' = false
     /\ queen_covered g' = true)
  /\ (last_pocketed_queen g = false ->
     player_score g' p = (player_score g p + 1)%Z
     /\ last_pocketed_queen g' = false
     /\ queen_covered g' = queen_covered g)
  /\ foul_count g' = 0%Z
  /\ current_player g' = p
  /\ (forall q, q <> p -> player_score g' q = player_score g q).
Proof.
  intros Hq Hturn Hcol. unfold handle_pocketed_coin. rewrite Hq, Hcol.
  destruct Hturn as [E | E]; rewrite E; unfold own_color; simpl Z.eqb; cbv iota.
  - rewrite color_eqb_refl. simpl andb. cbv iota.
    destruct (last_pocketed_queen g) eqn:Hpend; cbv zeta; unfold player_score;
      simpl; (repeat split; try discriminate; try reflexivity);
      intros q Hne; destruct (q =? 1)%Z eqn:Eq; try reflexivity;
      apply Z.eqb_eq in Eq; contradiction.
  - replace (color_eqb BLACK WHITE) with false by reflexivity.
    rewrite color_eqb_refl. simpl andb. cbv iota.
    destruct (last_pocketed_queen g) eqn:Hpend; cbv zeta; unfold player_score;
      simpl; (repeat split; try discriminate; try reflexivity);
      intros q Hne; destruct (q =? 1)%Z eqn:Eq1; try reflexivity;
      destruct (q =? 2)%Z eqn:Eq; try reflexivity;
      apply Z.eqb_eq in Eq; contradiction.
Qed.

Lemma own_coin_scores_witness :
  let g := game_with (striker_at 400 650) small_board 1 true 1 2 in
  let g' := handle_pocketed_coin (disc 120 120 WHITE false true) g in
  player_score g' 1 = 4%Z /\ last_pocketed_queen g' = false
  /\ queen_covered g' = true /\ foul_count g' = 0%Z.
Proof.
  intros g g'.
  destruct (own_coin_scores g (disc 120 120 WHITE false true))
    as (Hcover & _ & Hfoul & _); [reflexivity | left; reflexivity | reflexivity |].
  destruct (Hcover eq_refl) as (Hs & Hp & Hc).
  repeat split; assumption.
Defined.

(** ** Turn switches *)

Lemma handle_foul_player (m : string) (g : CarromGame) :
  current_player (handle_foul m g) = (3 - current_player g)%Z.
Proof.
  unfold handle_foul.
  destruct (last_pocketed_queen g && negb (queen_covered g));
    [destruct (return_queen (coins g))|]; reflexivity.
Qed.

Lemma handle_foul_foul_count (m : string) (g : CarromGame) :
  foul_count (handle_foul m g) = foul_count g.
Proof.
  unfold handle_foul.
  destruct (last_pocketed_queen g && negb (queen_covered g));
    [destruct (return_queen (coins g))|]; reflexivity.
Qed.

Lemma handle_foul_message (m : string) (g : CarromGame) :
  turn_message (handle_foul m g) = m.
Proof.
  unfold handle_foul.
  destruct (last_pocketed_queen g && negb (queen_covered g));
    [destruct (return_queen (coins g))|]; reflexivity.
Qed.

Lemma check_turn_end_player (g : CarromGame) :
  current_player (check_turn_end g) =
  if (0 <? foul_count g)%Z then (3 - current_player g)%Z else current_player g.
Proof.
  unfold check_turn_end.
  destruct (3 <=? foul_count g)%Z eqn:H3.
  - apply Z.leb_le in H3.
    replace (0 <? foul_count g)%Z with true by (symmetry; apply Z.ltb_lt; lia).
    apply handle_foul_player.
  - destruct (0 <? foul_count g)%Z; reflexivity.
Qed.




(** ** What the phases of a tick leave alone *)

Lemma forM_invariant {S A : Type} (P : S -> Prop) (step : A -> S -> PyResult S) :
  (forall a s s', P s -> step a s = Ok s' -> P s') ->
  forall l s s', P s -> forM l step s = Ok s' -> P s'.
Proof.
  intros Hstep l. induction l as [|a l IH]; intros s s' Hs Hrun; simpl in Hrun.
  - inversion Hrun. subst. exact Hs.
  - destruct (step a s) as [s1|e] eqn:E; simpl in Hrun; [|discriminate].
    eapply IH; [|exact Hrun]. eapply Hstep; eauto.
Qed.

(** The fields that the collision loops never write. *)
Definition untouched_by_collisions (g g' : CarromGame) : Prop :=
  match_state g' = match_state g
  /\ game_state g' = game_state g
  /\ pockets g' = pockets g
  /\ all_coins_still g' = all_coins_still g
  /\ is_shooting (striker g') = is_shooting (striker g)
  /\ List.length (coins g') = List.length (coins g).

Lemma untouched_refl (g : CarromGame) : untouched_by_collisions g g.
Proof. repeat split. Qed.

Lemma untouched_trans (g1 g2 g3 : CarromGame) :
  untouched_by_collisions g1 g2 -> untouched_by_collisions g2 g3 ->
  untouched_by_collisions g1 g3.
Proof.
  unfold untouched_by_collisions.
  intros (a1 & a2 & a3 & a4 & a5 & a6) (b1 & b2 & b3 & b4 & b5 & b6).
  repeat split; congruence.
Qed.

Lemma list_set_length {A : Type} (l : list A) (i : nat) (a : A) :
  List.length (list_set l i a) = List.length l.
Proof.
  revert i. induction l as [|h t IH]; intros [|i]; simpl; auto.
Qed.

Lemma Striker_check_collision_is_shooting (s s' : Striker) (c c' : Coin)
    (r r' : RNG) (b : bool) :
  Striker_check_collision s c r = Ok (s', c', b, r') ->
  is_shooting s' = is_shooting s.
Proof.
  unfold Striker_check_collision.
  destruct (resolve_collision (base s) c) as [[h|]|e]; simpl; try discriminate.
  - destruct (Rltb 0.5 (impact_speed h)).
    + destruct (collision_particles _ _ _ _ _ _ _ _ _).
      intros E. inversion E. reflexivity.
    + intros E. inversion E. reflexivity.
  - intros E. inversion E. reflexivity.
Qed.

Lemma collide_striker_untouched (i : nat) (g g' : CarromGame) :
  collide_striker i g = Ok g' -> untouched_by_collisions g g'.
Proof.
  unfold collide_striker.
  destruct (nth_error (coins g) i) as [c|]; [|intros E; inversion E; apply untouched_refl].
  destruct (negb (is_pocketed c)); [|intros E; inversion E; apply untouched_refl].
  destruct (Striker_check_collision (striker g) c (rng g)) as [[[[s c'] b] r]|e] eqn:E;
    simpl; [|discriminate].
  intros E'. inversion E'. subst g'.
  apply Striker_check_collision_is_shooting in E.
  repeat split; simpl; auto using list_set_length.
Qed.

Lemma collide_coins_untouched (i j : nat) (g g' : CarromGame) :
  collide_coins i j g = Ok g' -> untouched_by_collisions g g'.
Proof.
  unfold collide_coins.
  destruct (nth_error (coins g) i) as [a|]; [|intros E; inversion E; apply untouched_refl].
  destruct (nth_error (coins g) j) as [b|]; [|intros E; inversion E; apply untouched_refl].
  destruct (negb (is_pocketed a) && negb (is_pocketed b));
    [|intros E; inversion E; apply untouched_refl].
  destruct (Coin_check_collision a b) as [[[a' b'] hit]|e]; simpl; [|discriminate].
  intros E. inversion E. subst g'.
  repeat split; simpl. now rewrite !list_set_length.
Qed.

Lemma collision_phase_untouched (g g' : CarromGame) :
  collision_phase g = Ok g' -> untouched_by_collisions g g'.
Proof.
  unfold collision_phase.
  apply (forM_invariant (fun h => untouched_by_collisions g h)); [|apply untouched_refl].
  intros i s s' Hs Hstep.
  destruct (collide_striker i s) as [s1|e] eqn:E1; simpl in Hstep; [|discriminate].
  apply collide_striker_untouched in E1.
  assert (H1 : untouched_by_collisions g s1) by (eapply untouched_trans; eauto).
  revert Hstep.
  apply (forM_invariant (fun h => untouched_by_collisions g h)); [|exact H1].
  intros j t t' Ht Hc. apply collide_coins_untouched in Hc.
  eapply untouched_trans; eauto.
Qed.

(** ** The turn stays with players 1 and 2 *)

Lemma three_minus_1_or_2 (p : Z) :
  (p = 1 \/ p = 2)%Z -> (3 - p = 1 \/ 3 - p = 2)%Z.
Proof. lia. Qed.

Lemma handle_foul_turn (m : string) (g : CarromGame) :
  turn_of_1_or_2 g -> turn_of_1_or_2 (handle_foul m g).
Proof.
  unfold turn_of_1_or_2. rewrite handle_foul_player. apply three_minus_1_or_2.
Qed.

Lemma check_turn_end_turn (g : CarromGame) :
  turn_of_1_or_2 g -> turn_of_1_or_2 (check_turn_end g).
Proof.
  unfold turn_of_1_or_2. rewrite check_turn_end_player.
  destruct (0 <? foul_count g)%Z; auto using three_minus_1_or_2.
Qed.

Lemma handle_pocketed_coin_turn (c : Coin) (g : CarromGame) :
  turn_of_1_or_2 g -> turn_of_1_or_2 (handle_pocketed_coin c g).
Proof.
  intros H. unfold handle_pocketed_coin.
  destruct (is_queen c); [exact H|].
  destruct (color_eqb (color c) WHITE && (current_player g =? 1)%Z).
  { destruct (last_pocketed_queen g); exact H. }
  destruct (color_eqb (color c) BLACK && (current_player g =? 2)%Z).
  { destruct (last_pocketed_queen g); exact H. }
  apply handle_foul_turn, H.
Qed.

Lemma check_game_over_player (g : CarromGame) :
  current_player (check_game_over g) = current_player g.
Proof.
  unfold check_game_over. destruct (count_coins (coins g)) as [w b].
  destruct (w =? 0)%Z; [reflexivity|]. destruct (b =? 0)%Z; reflexivity.
Qed.

Lemma pocket_phase_turn (g : CarromGame) :
  turn_of_1_or_2 g -> turn_of_1_or_2 (fst (pocket_phase g)).
Proof.
  unfold pocket_phase. generalize (seq 0 (List.length (coins g))).
  generalize (@nil Capture). intros log l. revert g log.
  induction l as [|i l IH]; intros g log Hg; simpl; [exact Hg|].
  destruct (nth_error (coins g) i) as [c|]; [|apply IH, Hg].
  destruct (Coin_check_pocket c (pockets g)) as [c' [|]]; [|apply IH, Hg].
  apply IH, handle_pocketed_coin_turn, Hg.
Qed.

Lemma settle_turn (g : CarromGame) :
  turn_of_1_or_2 g -> turn_of_1_or_2 (settle g).
Proof.
  intros H. unfold settle, turn_of_1_or_2. rewrite check_game_over_player.
  match goal with |- context [if ?b then _ else _] => destruct b end.
  - apply check_turn_end_turn, H.
  - exact H.
Qed.

Lemma update_log_turn (g g' : CarromGame) (log : list Capture) :
  turn_of_1_or_2 g -> update_log g = Ok (g', log) -> turn_of_1_or_2 g'.
Proof.
  intros H. unfold update_log.
  destruct (negb (GameState_eqb (game_state g) PLAYING)).
  { intros E. inversion E. subst. exact H. }
  unfold update_after_striker.
  destruct (Coin_check_pocket _ _) as [c [|]].
  - intros E. inversion E. subst. unfold striker_pocketed.
    apply (handle_foul_turn "Striker pocketed!"
             (set_striker (set_striker g (Striker_update (striker g)))
                (set_base (striker (set_striker g (Striker_update (striker g)))) c))).
    exact H.
  - match goal with |- context [collision_phase ?h] =>
      destruct (collision_phase h) as [g2|e] eqn:Ec end; simpl; [|discriminate].
    apply collision_phase_untouched in Ec. destruct Ec as (Em & _).
    destruct (pocket_phase g2) as [g3 log3] eqn:Ep.
    intros E. inversion E. subst.
    apply settle_turn. replace g3 with (fst (pocket_phase g2)) by now rewrite Ep.
    apply pocket_phase_turn. unfold turn_of_1_or_2.
    replace (current_player g2) with (m_current_player (match_state g2)) by reflexivity.
    rewrite Em. exact H.
Qed.

Lemma reset_game_player (g : CarromGame) : current_player (reset_game g) = 1%Z.
Proof.
  unfold reset_game. destruct (Striker_init _ _ _) as [s r].
  destruct (setup_coins [] r). reflexivity.
Qed.

Lemma handle_event_turn (ev : Event) (g : CarromGame) :
  turn_of_1_or_2 g -> turn_of_1_or_2 (handle_event ev g).
Proof.
  intros H. unfold handle_event.
  destruct (game_state g).
  - destruct ev as [[]| | |]; exact H.
  - destruct ev as [[]| | |]; exact H.
  - match goal with |- context [if ?b then _ else _] => destruct b end.
    + destruct ev as [[]|b p|b p|p h]; try exact H; unfold handle_mouse; cbn [striker set_game_state].
      * destruct (b =? 1)%Z; [destruct (negb _); exact H|].
        destruct (_ && _); exact H.
      * destruct (_ && _); [|exact H]. unfold release.
        destruct (Rltb 0 _); [|exact H]. destruct (Striker_shoot _ _). exact H.
      * destruct (_ && _); [exact H|]. destruct (is_aiming _); [|exact H].
        destruct h; exact H.
    + destruct ev as [[]| | |]; exact H.
  - destruct ev as [[]| | |]; try exact H.
    left. exact (reset_game_player g).
  - destruct ev as [[]| | |]; exact H.
Qed.

(** C10.  [handle_foul] gives the turn to player 3 - p, and [check_turn_end]
    does so whenever it switches the turn (a positive foul counter); neither
    reads the player mode.  Hence a turn that belongs to player 1 or 2 stays
    with players 1 and 2 through every rule, every event and every tick. *)
Theorem turn_toggles_between_1_and_2 (g : CarromGame) :
  (forall m, current_player (handle_foul m g) = (3 - current_player g)%Z)
  /\ current_player (check_turn_end g)
     = (if (0 <? foul_count g)%Z then (3 - current_player g)%Z else current_player g)
  /\ (turn_of_1_or_2 g ->
      (forall m, turn_of_1_or_2 (handle_foul m g))
      /\ turn_of_1_or_2 (check_turn_end g)
      /\ (forall c, turn_of_1_or_2 (handle_pocketed_coin c g))
      /\ (forall ev, turn_of_1_or_2 (handle_event ev g))
      /\ (forall g' log, update_log g = Ok (g', log) -> turn_of_1_or_2 g')).
Proof.
  split; [intros m; apply handle_foul_player|].
  split; [apply check_turn_end_player|].
  intros H. repeat split.
  - intros m. apply handle_foul_turn, H.
  - apply check_turn_end_turn, H.
  - intros c. apply handle_pocketed_coin_turn, H.
  - intros ev. apply handle_event_turn, H.
  - intros g' log. apply update_log_turn, H.
Qed.

Lemma turn_toggles_between_1_and_2_witness :
  let g := game_with (striker_at 400 150) small_board 2 false 1 4 in
  current_player (handle_foul "foul" g) = 1%Z
  /\ turn_of_1_or_2 (check_turn_end g).
Proof.
  intros g.
  destruct (turn_toggles_between_1_and_2 g) as (Hf & _ & Hinv).
  split; [apply (Hf "foul"%string)|].
  destruct Hinv as (_ & Hc & _); [right; reflexivity | exact Hc].
Defined.


(** ** The striker in a pocket *)


Lemma handle_foul_striker (m : string) (g : CarromGame) :
  striker (handle_foul m g)
  = Striker_reset_position (striker g) (3 - current_player g).
Proof.
  unfold handle_foul.
  destruct (last_pocketed_queen g && negb (queen_covered g));
    [destruct (return_queen (coins g))|]; reflexivity.
Qed.







(** After its own motion the striker is never over a pocket: the wall test
    keeps its centre 20 away from both walls of a corner. *)
Lemma far_from_pocket (c : Coin) (px py : Z) :
  20 <= Rabs (IZR px - x c) -> 20 <= Rabs (IZR py - y c) ->
  Rltb (sqrt ((IZR px - x c) * (IZR px - x c) + (IZR py - y c) * (IZR py - y c)))
       (IZR (POCKET_RADIUS - 5)) = false.
Proof.
  intros Hx Hy. apply Rltb_false. change (IZR (POCKET_RADIUS - 5)) with 25.
  set (dx := IZR px - x c) in *. set (dy := IZR py - y c) in *.
  assert (Hdx : 400 <= dx * dx).
  { unfold Rabs in Hx. destruct (Rcase_abs dx); nra. }
  assert (Hdy : 400 <= dy * dy).
  { unfold Rabs in Hy. destruct (Rcase_abs dy); nra. }
  rewrite <- (sqrt_square 25) by lra.
  apply sqrt_le_1_alt. lra.
Qed.

Lemma striker_stays_out_of_pockets (s : Striker) :
  is_pocketed (base s) = false ->
  radius (base s) = IZR STRIKER_RADIUS ->
  Coin_check_pocket (base (Striker_update s)) create_pockets
  = (base (Striker_update s), false).
Proof.
  intros Hp Hr. cbn [Striker_update base].
  assert (Hfit : 2 * radius (base s) <= IZR BOARD_SIZE).
  { rewrite Hr. change (IZR STRIKER_RADIUS) with 20. change (IZR BOARD_SIZE) with 600. lra. }
  destruct (Coin_update_confined (base s) Hp Hfit) as [Hx Hy].
  rewrite Hr in Hx, Hy. change (IZR STRIKER_RADIUS) with 20 in Hx, Hy.
  set (c := Coin_update (base s)) in *.
  unfold Coin_check_pocket.
  assert (Hpc : is_pocketed c = false).
  { unfold c, Coin_update. rewrite Hp.
    repeat match goal with |- context [let '(_, _) := ?e in _] => destruct e end.
    reflexivity. }
  rewrite Hpc.
  replace (in_some_pocket c create_pockets) with false; [reflexivity|].
  symmetry. unfold create_pockets, in_some_pocket. cbn [fst snd].
  change (IZR board_margin) with 100.
  rewrite !far_from_pocket; try reflexivity;
    change (IZR (SCREEN_WIDTH - board_margin)) with 700;
    change (IZR (SCREEN_HEIGHT - board_margin)) with 700;
    change (IZR board_margin) with 100;
    unfold Rabs; match goal with |- context [Rcase_abs ?e] => destruct (Rcase_abs e) end; lra.
Qed.


(** ** The end of the match *)

Lemma count_coins_regular (cs : list Coin) :
  queens_red cs ->
  count_coins cs = (regular_left WHITE cs, regular_left BLACK cs).
Proof.
  unfold regular_left.
  induction cs as [|c cs IH]; intros Hq; [reflexivity|].
  assert (Hq' : queens_red cs) by (intros d Hd; apply Hq; right; exact Hd).
  specialize (IH Hq'). cbn [count_coins filter]. rewrite IH.
  destruct (is_pocketed c); [reflexivity|]. cbn [negb andb].
  destruct (is_queen c) eqn:Eq.
  - rewrite (Hq c (or_introl eq_refl) Eq). reflexivity.
  - cbn [negb andb].
    destruct (color_eqb (color c) WHITE) eqn:Ew.
    + apply color_eqb_eq in Ew. rewrite Ew.
      replace (color_eqb WHITE BLACK) with false by reflexivity.
      cbn [List.length]. rewrite Nat2Z.inj_succ. f_equal; lia.
    + destruct (color_eqb (color c) BLACK); [|reflexivity].
      cbn [List.length]. rewrite Nat2Z.inj_succ. f_equal; lia.
Qed.

Lemma check_game_over_coins (g : CarromGame) :
  coins (check_game_over g) = coins g.
Proof.
  unfold check_game_over. destruct (count_coins (coins g)) as [w b].
  destruct (w =? 0)%Z; [reflexivity|]. destruct (b =? 0)%Z; reflexivity.
Qed.

Lemma check_game_over_cases (g : CarromGame) :
  queens_red (coins g) ->
  let g' := check_game_over g in
  let w := regular_left WHITE (coins g) in
  let b := regular_left BLACK (coins g) in
  (w = 0%Z -> winner g' = Some 1%Z /\ game_state g' = GAME_OVER)
  /\ (w <> 0%Z -> b = 0%Z -> winner g' = Some 2%Z /\ game_state g' = GAME_OVER)
  /\ (w <> 0%Z -> b <> 0%Z -> g' = g).
Proof.
  intros Hq g' w b. unfold g', check_game_over.
  rewrite (count_coins_regular _ Hq). fold w b.
  destruct (w =? 0)%Z eqn:Ew.
  - apply Z.eqb_eq in Ew. repeat split; intros; try contradiction; reflexivity.
  - apply Z.eqb_neq in Ew. destruct (b =? 0)%Z eqn:Eb.
    + apply Z.eqb_eq in Eb. repeat split; intros; try contradiction; reflexivity.
    + apply Z.eqb_neq in Eb. repeat split; intros; try contradiction; reflexivity.
Qed.

Lemma tick_ends_with_check_game_over (g g' : CarromGame) (log : list Capture) :
  game_state g = PLAYING ->
  update_log g = Ok (g', log) ->
  ~ In StrikerCaptured log ->
  exists h, g' = check_game_over h.
Proof.
  intros Hs Hrun Hlog. unfold update_log in Hrun. rewrite Hs in Hrun.
  cbn [GameState_eqb negb] in Hrun. unfold update_after_striker in Hrun.
  destruct (Coin_check_pocket _ _) as [c [|]].
  - inversion Hrun. subst. exfalso. apply Hlog. left. reflexivity.
  - destruct (collision_phase _) as [g2|e]; simpl in Hrun; [|discriminate].
    destruct (pocket_phase g2) as [g3 log3]. inversion Hrun. subst.
    unfold settle. eexists. reflexivity.
Qed.

(** C7, as the code has it.  [check_game_over] counts the coins on the board
    by colour, so the red queen counts for neither side.  No white coin left:
    player 1 wins and the state is [GAME_OVER].  Otherwise, no black coin
    left: player 2 wins.  Otherwise nothing changes.  Every tick that does not
    end with the striker in a pocket ends with this test. *)
Theorem game_over_when_a_colour_is_cleared :
  (forall g,
     queens_red (coins g) ->
     let g' := check_game_over g in
     let w := regular_left WHITE (coins g) in
     let b := regular_left BLACK (coins g) in
     (w = 0%Z -> winner g' = Some 1%Z /\ game_state g' = GAME_OVER)
     /\ (w <> 0%Z -> b = 0%Z -> winner g' = Some 2%Z /\ game_state g' = GAME_OVER)
     /\ (w <> 0%Z -> b <> 0%Z -> g' = g))
  /\ (forall g g' log,
        game_state g = PLAYING ->
        update_log g = Ok (g', log) ->
        ~ In StrikerCaptured log ->
        queens_red (coins g') ->
        let w := regular_left WHITE (coins g') in
        let b := regular_left BLACK (coins g') in
        (w = 0%Z -> winner g' = Some 1%Z /\ game_state g' = GAME_OVER)
        /\ (w <> 0%Z -> b = 0%Z -> winner g' = Some 2%Z /\ game_state g' = GAME_OVER)).
Proof.
  split; [exact check_game_over_cases|].
  intros g g' log Hs Hrun Hlog Hq w b.
  destruct (tick_ends_with_check_game_over g g' log Hs Hrun Hlog) as [h ->].
  unfold w, b. rewrite check_game_over_coins in *.
  destruct (check_game_over_cases h Hq) as (H1 & H2 & _). split; assumption.
Qed.

(** C7, as the claim has it, fails when the last white and the last black
    coin are both gone: player 1 is the winner although no black coin is
    left. *)
Lemma both_colours_cleared_player_1_wins :
  regular_left WHITE (coins cleared_game) = 0%Z
  /\ regular_left BLACK (coins cleared_game) = 0%Z
  /\ winner (check_game_over cleared_game) = Some 1%Z
  /\ winner (check_game_over cleared_game) <> Some 2%Z.
Proof.
  repeat split; try reflexivity. intros E. discriminate E.
Qed.

(** ** Discs with the same centre *)

Lemma resolve_collision_coincident (self other : Coin) :
  is_pocketed self = false ->
  is_pocketed other = false ->
  x other = x self ->
  y other = y self ->
  0 < radius self + radius other ->
  resolve_collision self other = Raise ZeroDivisionError.
Proof.
  intros Hs Ho Hx Hy Hr. unfold resolve_collision.
  rewrite Hs, Ho, Hx, Hy. cbn [orb].
  replace ((x self - x self) * (x self - x self) + (y self - y self) * (y self - y self))
    with 0 by ring.
  rewrite sqrt_0.
  replace (Rltb 0 (radius self + radius other)) with true
    by (symmetry; apply Rltb_true; exact Hr).
  unfold py_div. destruct (Req_dec_T 0 0) as [_ | Hne]; [reflexivity|].
  exfalso. apply Hne. reflexivity.
Qed.

(** C3 fails on the code.  For two discs on the board with the same centre
    the distance is 0, the overlap test succeeds, and the division of [dx] by
    the distance raises [ZeroDivisionError]: [check_collision] has no case for
    a zero distance, with a coin or with the striker as [self]. *)
Theorem coincident_centres_raise (self other : Coin) :
  is_pocketed self = false ->
  is_pocketed other = false ->
  x other = x self ->
  y other = y self ->
  0 < radius self + radius other ->
  Coin_check_collision self other = Raise ZeroDivisionError
  /\ (forall s r, base s = self ->
        Striker_check_collision s other r = Raise ZeroDivisionError).
Proof.
  intros Hs Ho Hx Hy Hr.
  pose proof (resolve_collision_coincident self other Hs Ho Hx Hy Hr) as E.
  split.
  - unfold Coin_check_collision. rewrite E. reflexivity.
  - intros s r Hb. unfold Striker_check_collision. rewrite Hb, E. reflexivity.
Qed.

Lemma coincident_centres_raise_witness :
  Coin_check_collision (disc 400 400 RED true false) (disc 400 400 WHITE false false)
  = Raise ZeroDivisionError.
Proof.
  apply coincident_centres_raise; try reflexivity.
  unfold disc. cbn [radius]. change (IZR COIN_RADIUS) with 15. lra.
Defined.


(** ** A restore that fails *)

Lemma reset_game_reads (g1 g2 : CarromGame) :
  rng g2 = rng g1 ->
  game_state g2 = game_state g1 ->
  player_mode g2 = player_mode g1 ->
  current_theme g2 = current_theme g1 ->
  reset_game g2 = reset_game g1.
Proof.
  intros Hr Hs Hm Ht. unfold reset_game. rewrite Hr, Hs, Hm, Ht. reflexivity.
Qed.

Section TryBlock.

(** A property of the game that every assignment of the [try] block keeps. *)
Variable P : CarromGame -> Prop.

Lemma and_then_holds (a : Attempt) (k : CarromGame -> Attempt) :
  attempt_holds P a ->
  (forall g, P g -> attempt_holds P (k g)) ->
  attempt_holds P (and_then a k).
Proof.
  destruct a as [g | err g]; simpl; intros Ha Hk; [apply Hk, Ha | exact Ha].
Qed.

Lemma restore_holds {A : Type} (key : string) (field : option A)
    (assign : CarromGame -> A -> CarromGame) (g : CarromGame) :
  (forall g v, P g -> P (assign g v)) ->
  P g -> attempt_holds P (restore key field assign g).
Proof.
  intros Hassign Hg. destruct field as [v|]; simpl; auto.
Qed.

Lemma restore_coins_holds (entries : list CoinEntry) :
  (forall g cs r, P g -> P (set_rng (set_coins g cs) r)) ->
  forall g, P g -> attempt_holds P (restore_coins entries g).
Proof.
  intros Hset. induction entries as [|[cx cy col q p | err] entries IH];
    intros g Hg; cbn [restore_coins attempt_holds]; try exact Hg.
  destruct (Coin_init cx cy col q (rng g)) as [c r]. apply IH, Hset, Hg.
Qed.

End TryBlock.

(** The foul counter and the winner after the [try] block are those of a
    fresh match: no key of the snapshot holds them. *)
Lemma apply_snapshot_fresh_counters (s : Snapshot) (g : CarromGame) :
  attempt_holds (fun h => foul_count h = 0%Z /\ winner h = None) (apply_snapshot s g).
Proof.
  unfold apply_snapshot.
  repeat (apply and_then_holds;
          [| intros h Hh;
             first [ apply restore_holds; [intros h' v Hh'; exact Hh' | exact Hh] | idtac ]]).
  - simpl. unfold reset_game.
    destruct (Striker_init (IZR (SCREEN_WIDTH / 2)) (IZR (SCREEN_HEIGHT - 100)) (rng g))
      as [st r].
    destruct (setup_coins [] r). split; reflexivity.
  - destruct (s_coins s) as [entries|]; [|exact Hh].
    apply restore_coins_holds; [intros h' cs r Hh'; exact Hh' | exact Hh].
  - destruct (s_striker_pos s) as [[sx sy | err]|]; exact Hh.
Qed.

(** C4, as the code has it.  A missing file leaves the game as it is, up to
    the message.  A file that is not a pickle leaves the match as it is and
    shows the start screen.  Once the file is decoded, the match is reset
    before the first key is read: when a key is missing or an entry is
    malformed, what is left is the fresh match with the keys read so far; it
    has the foul counter 0 and no winner, the start screen is shown, and
    nothing of the match that was in memory is left: the result depends only on
    the file, the generator and the settings. *)
Theorem failed_load_loses_the_match :
  (forall g, load_game NoFile g = set_turn_message g "No saved game found!")
  /\ (forall err g,
        let g' := load_game (Unreadable err) g in
        match_state g' = match_state g
        /\ coins g' = coins g
        /\ striker g' = striker g
        /\ game_state g' = START_SCREEN)
  /\ (forall s g err h,
        apply_snapshot s g = Failed err h ->
        let g' := load_game (Pickled s) g in
        game_state g' = START_SCREEN
        /\ turn_message g' = ("Error loading game: " ++ err)%string
        /\ foul_count g' = 0%Z
        /\ winner g' = None
        /\ forall g2,
             rng g2 = rng g -> game_state g2 = game_state g ->
             player_mode g2 = player_mode g -> current_theme g2 = current_theme g ->
             load_game (Pickled s) g2 = g').
Proof.
  split; [reflexivity|]. split; [intros err g; repeat split|].
  intros s g err h Hfail g'.
  pose proof (apply_snapshot_fresh_counters s g) as Hfresh.
  unfold g', load_game. rewrite Hfail in *. simpl in Hfresh.
  destruct Hfresh as [Hf Hw].
  repeat split; try assumption.
  intros g2 Hr Hs Hm Ht. unfold apply_snapshot.
  rewrite (reset_game_reads g g2 Hr Hs Hm Ht).
  fold (apply_snapshot s g). rewrite Hfail. reflexivity.
Qed.

Lemma load_without_coins_fails :
  exists h, apply_snapshot snapshot_without_coins match_in_progress
            = Failed "'coins'" h.
Proof. eexists. reflexivity. Qed.

Lemma failed_load_loses_the_match_witness :
  let g' := load_game (Pickled snapshot_without_coins) match_in_progress in
  game_state g' = START_SCREEN /\ foul_count g' = 0%Z /\ winner g' = None.
Proof.
  intros g'. destruct load_without_coins_fails as [h Hfail].
  destruct failed_load_loses_the_match as (_ & _ & Hdecoded).
  destruct (Hdecoded _ _ _ _ Hfail) as (Hs & _ & Hf & Hw & _).
  repeat split; assumption.
Defined.

(** C4, as the claim has it, fails: a snapshot without the key 'coins' stops
    the restore after the match was reset and ten keys were assigned; the
    scores, the player to move, the queen flags and the coins of the match in
    memory are gone. *)
Lemma failed_load_is_not_atomic :
  let g := match_in_progress in
  let g' := load_game (Pickled snapshot_without_coins) g in
  game_state g' = START_SCREEN
  /\ turn_message g' = "Error loading game: 'coins'"%string
  /\ player1_score g = 5%Z /\ player1_score g' = 0%Z
  /\ current_player g = 2%Z /\ current_player g' = 1%Z
  /\ last_pocketed_queen g = true /\ last_pocketed_queen g' = false
  /\ List.length (coins g) = 3%nat /\ coins g' = []
  /\ match_state g' <> match_state g.
Proof.
  repeat split; try reflexivity. intros E. discriminate E.
Qed.


(** ** The simulation does not read the presentation state *)

Ltac split_coin c :=
  let cx := fresh "cx" in let cy := fresh "cy" in let col := fresh "col" in
  let rad := fresh "rad" in let vx := fresh "vx" in let vy := fresh "vy" in
  let q := fresh "q" in let p := fresh "p" in let fr := fresh "fr" in
  let rot := fresh "rot" in
  destruct c as [cx cy col rad vx vy q p fr rot].

Ltac fields :=
  cbn [x y color radius velocity_x velocity_y is_queen is_pocketed friction rotation
       base is_positioned is_aiming aim_angle power is_shooting strike_particles
       strike_sound_played hit_self hit_other hit_nx hit_ny impact_speed
       striker coins pockets current_player player1_score player2_score
       player3_score player4_score queen_pocketed queen_covered
       last_pocketed_queen foul_count winner all_coins_still turn_message
       game_saved game_state player_mode current_theme rng
       andb orb negb fst snd] in *.

Ltac setters :=
  unfold set_striker, set_coins, set_rng, set_foul_count, set_turn_message,
    set_game_state, set_all_coins_still, set_current_player, set_winner,
    set_scores, set_queen_flags, set_player_mode, set_current_theme in *.

Ltac split_ifs :=
  repeat match goal with
         | |- context [if ?b then _ else _] => destruct b
         | |- context [let '(_, _) := ?e in _] => destruct e
         end.

Lemma coin_view_idem (k : bool) (c : Coin) :
  coin_view k (coin_view k c) = coin_view k c.
Proof.
  split_coin c. unfold coin_view, out_of_play. fields.
  destruct k, p, q; reflexivity.
Qed.

Lemma coin_view_false_of_view (k : bool) (c : Coin) :
  is_pocketed c = false -> coin_view k c = coin_view false c.
Proof.
  split_coin c. unfold coin_view, out_of_play. fields. intros ->.
  rewrite !andb_false_r. reflexivity.
Qed.

Lemma Coin_update_pocketed (c : Coin) :
  is_pocketed (Coin_update c) = is_pocketed c.
Proof.
  unfold Coin_update. destruct (is_pocketed c) eqn:Ep; [exact Ep|].
  split_ifs; reflexivity.
Qed.

Lemma Coin_update_view (k : bool) (c : Coin) :
  coin_view k (Coin_update c) = coin_view k (Coin_update (coin_view k c)).
Proof.
  destruct (is_pocketed c) eqn:Ep.
  - unfold Coin_update. change (is_pocketed (coin_view k c)) with (is_pocketed c).
    rewrite Ep. now rewrite coin_view_idem.
  - rewrite (coin_view_false_of_view k (Coin_update c))
      by (rewrite Coin_update_pocketed; exact Ep).
    rewrite (coin_view_false_of_view k (Coin_update (coin_view k c)))
      by (rewrite Coin_update_pocketed; exact Ep).
    rewrite (coin_view_false_of_view k c Ep).
    split_coin c. fields. subst p. unfold Coin_update, coin_view, out_of_play. fields.
    destruct (Rltb (Rabs (vx * fr)) 0.1 && Rltb (Rabs (vy * fr)) 0.1);
      repeat match goal with
             | |- context [wall ?a ?b ?c ?d ?e] => destruct (wall a b c d e)
             end; fields; reflexivity.
Qed.

Lemma in_some_pocket_view (k : bool) (c : Coin) (ps : list (Z * Z)) :
  in_some_pocket (coin_view k c) ps = in_some_pocket c ps.
Proof.
  induction ps as [|p ps IH]; [reflexivity|].
  cbn [in_some_pocket]. rewrite IH. reflexivity.
Qed.

Lemma Coin_check_pocket_view (k : bool) (c : Coin) (ps : list (Z * Z)) :
  (coin_view k (fst (Coin_check_pocket c ps)), snd (Coin_check_pocket c ps))
  = (coin_view k (fst (Coin_check_pocket (coin_view k c) ps)),
     snd (Coin_check_pocket (coin_view k c) ps)).
Proof.
  unfold Coin_check_pocket. rewrite in_some_pocket_view.
  change (is_pocketed (coin_view k c)) with (is_pocketed c).
  destruct (is_pocketed c) eqn:Ep.
  - fields. now rewrite coin_view_idem.
  - destruct (in_some_pocket c ps); fields.
    + split_coin c. fields. subst p. unfold coin_view, out_of_play, set_is_pocketed.
      fields. destruct k, q; reflexivity.
    + now rewrite coin_view_idem.
Qed.

Lemma resolve_collision_view (k1 k2 : bool) (a b : Coin) :
  fmap (option_map (contact_view k1 k2)) (resolve_collision a b)
  = fmap (option_map (contact_view k1 k2))
         (resolve_collision (coin_view k1 a) (coin_view k2 b)).
Proof.
  destruct (is_pocketed a) eqn:Ea.
  { unfold resolve_collision. change (is_pocketed (coin_view k1 a)) with (is_pocketed a).
    rewrite Ea. reflexivity. }
  destruct (is_pocketed b) eqn:Eb.
  { unfold resolve_collision. change (is_pocketed (coin_view k2 b)) with (is_pocketed b).
    rewrite Eb, !orb_true_r. reflexivity. }
  rewrite (coin_view_false_of_view k1 a Ea), (coin_view_false_of_view k2 b Eb).
  split_coin a. split_coin b. fields. subst p p0.
  unfold resolve_collision, coin_view, out_of_play. fields.
  destruct (Rltb _ _); [|reflexivity].
  destruct (py_div (cx0 - cx) _) as [nx|e]; [|reflexivity].
  destruct (py_div (cy0 - cy) _) as [ny|e]; [|reflexivity].
  cbn [bind]. destruct (Rltb _ 0); [reflexivity|].
  destruct (py_div _ _) as [imp|e]; [|reflexivity].
  cbn [bind fmap option_map]. unfold contact_view, coin_view, out_of_play. fields.
  rewrite ?andb_false_r. reflexivity.
Qed.

Lemma resolve_collision_on_board (a b : Coin) (h : Contact) :
  resolve_collision a b = Ok (Some h) ->
  is_pocketed (hit_self h) = false /\ is_pocketed (hit_other h) = false.
Proof.
  unfold resolve_collision.
  destruct (is_pocketed a) eqn:Ea; [discriminate|].
  destruct (is_pocketed b) eqn:Eb; [discriminate|]. cbn [orb].
  destruct (Rltb _ _); [|discriminate].
  destruct (py_div _ _) as [nx|e]; [|discriminate].
  destruct (py_div _ _) as [ny|e]; [|discriminate].
  cbn [bind]. destruct (Rltb _ 0); [discriminate|].
  destruct (py_div _ _) as [imp|e]; [|discriminate].
  cbn [bind]. intros E. inversion E. fields. auto.
Qed.

Lemma Coin_check_collision_view (k : bool) (a b : Coin) :
  fmap (pair_view k) (Coin_check_collision a b)
  = fmap (pair_view k) (Coin_check_collision (coin_view k a) (coin_view k b)).
Proof.
  unfold Coin_check_collision.
  pose proof (resolve_collision_view k k a b) as H.
  destruct (resolve_collision a b) as [[h|]|e];
    destruct (resolve_collision (coin_view k a) (coin_view k b)) as [[h'|]|e'];
    cbn [fmap option_map bind] in *; try discriminate H; try reflexivity.
  - assert (E : contact_view k k h = contact_view k k h') by congruence.
    pose proof (f_equal hit_self E) as H1. pose proof (f_equal hit_other E) as H2.
    cbn [contact_view hit_self hit_other] in H1, H2.
    unfold pair_view. now rewrite H1, H2.
  - unfold pair_view. now rewrite !coin_view_idem.
  - congruence.
Qed.


Ltac split_striker s :=
  let b := fresh "b" in let ip := fresh "ip" in let ia := fresh "ia" in
  let ang := fresh "ang" in let pw := fresh "pw" in let sh := fresh "sh" in
  let ps := fresh "ps" in let sp := fresh "sp" in
  destruct s as [b ip ia ang pw sh ps sp]; split_coin b.

Lemma striker_view_idem (s : Striker) : striker_view (striker_view s) = striker_view s.
Proof. split_striker s. reflexivity. Qed.

Lemma Striker_update_view (s : Striker) :
  striker_view (Striker_update s) = striker_view (Striker_update (striker_view s)).
Proof.
  unfold Striker_update, striker_view at 1 2. fields.
  rewrite (Coin_update_view false (base s)). reflexivity.
Qed.

Lemma Striker_reset_position_view (s : Striker) (player : Z) :
  striker_view (Striker_reset_position s player)
  = striker_view (Striker_reset_position (striker_view s) player).
Proof. split_striker s. reflexivity. Qed.

Lemma Striker_position_view (s : Striker) (px : R) :
  striker_view (Striker_position s px)
  = striker_view (Striker_position (striker_view s) px).
Proof. split_striker s. reflexivity. Qed.

Lemma Striker_aim_view (s : Striker) (mx my : R) :
  striker_view (Striker_aim s mx my) = striker_view (Striker_aim (striker_view s) mx my).
Proof. split_striker s. reflexivity. Qed.

Lemma Striker_set_power_view (s : Striker) (pct : R) :
  striker_view (Striker_set_power s pct)
  = striker_view (Striker_set_power (striker_view s) pct).
Proof. split_striker s. reflexivity. Qed.

Lemma Striker_shoot_view (s : Striker) (r r0 : RNG) :
  striker_view (fst (Striker_shoot s r))
  = striker_view (fst (Striker_shoot (striker_view s) r0)).
Proof.
  split_striker s. unfold Striker_shoot, striker_view at 2. fields.
  repeat match goal with
         | |- context [shoot_particles ?a ?b ?c ?d] => destruct (shoot_particles a b c d)
         end.
  reflexivity.
Qed.

Lemma Striker_check_collision_view (k : bool) (s : Striker) (c : Coin) (r r0 : RNG) :
  fmap (hit_view k) (Striker_check_collision s c r)
  = fmap (hit_view k) (Striker_check_collision (striker_view s) (coin_view k c) r0).
Proof.
  unfold Striker_check_collision.
  pose proof (resolve_collision_view false k (base s) c) as H.
  change (base (striker_view s)) with (coin_view false (base s)).
  destruct (resolve_collision (base s) c) as [[h|]|e];
    destruct (resolve_collision (coin_view false (base s)) (coin_view k c)) as [[h'|]|e'];
    cbn [fmap option_map bind] in *; try discriminate H; try congruence.
  - assert (E : contact_view false k h = contact_view false k h') by congruence.
    pose proof (f_equal hit_self E) as H1. pose proof (f_equal hit_other E) as H2.
    pose proof (f_equal impact_speed E) as H3.
    cbn [contact_view hit_self hit_other impact_speed] in H1, H2, H3. rewrite <- H3.
    destruct (Rltb 0.5 (impact_speed h)).
    + repeat match goal with
             | |- context [collision_particles ?a ?b ?c ?d ?e ?f ?g ?h ?i] =>
                 destruct (collision_particles a b c d e f g h i)
             end.
      cbn [fmap hit_view]. unfold striker_view. fields. now rewrite H1, H2.
    + cbn [fmap hit_view]. unfold striker_view, set_base. fields. now rewrite H1, H2.
  - unfold hit_view. now rewrite striker_view_idem, coin_view_idem.
Qed.


(** *** Two games with the same view *)

Ltac split_game g :=
  let st := fresh "st" in let cs := fresh "cs" in let pk := fresh "pk" in
  let cp := fresh "cp" in let s1 := fresh "s1" in let s2 := fresh "s2" in
  let s3 := fresh "s3" in let s4 := fresh "s4" in let qp := fresh "qp" in
  let qc := fresh "qc" in let lq := fresh "lq" in let fc := fresh "fc" in
  let w := fresh "w" in let acs := fresh "acs" in let tm := fresh "tm" in
  let gs := fresh "gs" in let gst := fresh "gst" in let pm := fresh "pm" in
  let th := fresh "th" in let rg := fresh "rg" in
  destruct g as [st cs pk cp s1 s2 s3 s4 qp qc lq fc w acs tm gs gst pm th rg].

Lemma game_view_inv (k : bool) (g g' : CarromGame) :
  game_view k g = game_view k g' ->
  striker_view (striker g) = striker_view (striker g')
  /\ map (coin_view k) (coins g) = map (coin_view k) (coins g')
  /\ pockets g = pockets g'
  /\ current_player g = current_player g'
  /\ player1_score g = player1_score g'
  /\ player2_score g = player2_score g'
  /\ player3_score g = player3_score g'
  /\ player4_score g = player4_score g'
  /\ queen_pocketed g = queen_pocketed g'
  /\ queen_covered g = queen_covered g'
  /\ last_pocketed_queen g = last_pocketed_queen g'
  /\ foul_count g = foul_count g'
  /\ winner g = winner g'
  /\ all_coins_still g = all_coins_still g'
  /\ game_state g = game_state g'
  /\ player_mode g = player_mode g'
  /\ current_theme g = current_theme g'
  /\ (k = false -> turn_message g = turn_message g' /\ game_saved g = game_saved g').
Proof.
  intros H.
  repeat match goal with
         | |- _ /\ _ => split
         end;
    try (intros ->; split);
    match goal with
    | |- striker_view _ = _ => exact (f_equal striker H)
    | |- map _ _ = _ => exact (f_equal coins H)
    | |- pockets _ = _ => exact (f_equal pockets H)
    | |- current_player _ = _ => exact (f_equal current_player H)
    | |- player1_score _ = _ => exact (f_equal player1_score H)
    | |- player2_score _ = _ => exact (f_equal player2_score H)
    | |- player3_score _ = _ => exact (f_equal player3_score H)
    | |- player4_score _ = _ => exact (f_equal player4_score H)
    | |- queen_pocketed _ = _ => exact (f_equal queen_pocketed H)
    | |- queen_covered _ = _ => exact (f_equal queen_covered H)
    | |- last_pocketed_queen _ = _ => exact (f_equal last_pocketed_queen H)
    | |- foul_count _ = _ => exact (f_equal foul_count H)
    | |- winner _ = _ => exact (f_equal winner H)
    | |- all_coins_still _ = _ => exact (f_equal all_coins_still H)
    | |- game_state _ = _ => exact (f_equal game_state H)
    | |- player_mode _ = _ => exact (f_equal player_mode H)
    | |- current_theme _ = _ => exact (f_equal current_theme H)
    | |- turn_message _ = _ => exact (f_equal turn_message H)
    | |- game_saved _ = _ => exact (f_equal game_saved H)
    end.
Qed.

(** Brings two games with the same view to a common form: all the fields
    that the view keeps become the same variables. *)
Ltac same_view H :=
  match type of H with
  | game_view ?k ?g = game_view ?k ?g' =>
      let Hs := fresh "Hstriker" in let Hc := fresh "Hcoins" in
      let Hm := fresh "Hshown" in
      apply game_view_inv in H;
      destruct H as (Hs & Hc & ? & ? & ? & ? & ? & ? & ? & ? & ? & ? & ? & ? & ? & ? & ? & Hm);
      split_game g; split_game g'; fields; subst
  end.

Section SameView.

(** The view: fine ([false]) or coarse ([true]). *)
Variable k : bool.

Lemma game_view_intro (g g' : CarromGame) :
  striker_view (striker g) = striker_view (striker g') ->
  map (coin_view k) (coins g) = map (coin_view k) (coins g') ->
  (k = false -> turn_message g = turn_message g' /\ game_saved g = game_saved g') ->
  pockets g = pockets g' ->
  match_state g = match_state g' ->
  all_coins_still g = all_coins_still g' ->
  game_state g = game_state g' ->
  current_theme g = current_theme g' ->
  game_view k g = game_view k g'.
Proof.
  intros Hs Hc Hm Hp Hma Ha Hg Ht. split_game g. split_game g'. fields.
  unfold match_state in Hma. fields. inversion Hma. subst.
  unfold game_view. fields. rewrite Hs, Hc.
  destruct k; [reflexivity|]. destruct (Hm eq_refl) as [-> ->]. reflexivity.
Qed.

Lemma nth_error_same_view (cs cs' : list Coin) (i : nat) :
  map (coin_view k) cs = map (coin_view k) cs' ->
  match nth_error cs i, nth_error cs' i with
  | Some c, Some c' => coin_view k c = coin_view k c'
  | None, None => True
  | _, _ => False
  end.
Proof.
  intros H. pose proof (f_equal (fun l => nth_error l i) H) as E. cbn beta in E.
  rewrite !nth_error_map in E.
  destruct (nth_error cs i), (nth_error cs' i); cbn in E; try discriminate; auto.
  congruence.
Qed.

Lemma list_set_map {A B : Type} (f : A -> B) (l : list A) (i : nat) (a : A) :
  map f (list_set l i a) = list_set (map f l) i (f a).
Proof.
  revert i. induction l as [|h t IH]; intros [|i]; cbn; try reflexivity.
  now rewrite IH.
Qed.

Lemma list_set_same_view (cs cs' : list Coin) (i : nat) (a a' : Coin) :
  map (coin_view k) cs = map (coin_view k) cs' ->
  coin_view k a = coin_view k a' ->
  map (coin_view k) (list_set cs i a) = map (coin_view k) (list_set cs' i a').
Proof. intros H E. now rewrite !list_set_map, H, E. Qed.

Lemma length_same_view (cs cs' : list Coin) :
  map (coin_view k) cs = map (coin_view k) cs' -> List.length cs = List.length cs'.
Proof.
  intros H. apply (f_equal (@List.length Coin)) in H. now rewrite !length_map in H.
Qed.

Lemma coin_view_flags (c c' : Coin) :
  coin_view k c = coin_view k c' ->
  is_queen c = is_queen c' /\ is_pocketed c = is_pocketed c' /\ color c = color c'
  /\ x c = x c' /\ y c = y c'.
Proof.
  intros H. repeat split.
  - exact (f_equal is_queen H).
  - exact (f_equal is_pocketed H).
  - exact (f_equal color H).
  - exact (f_equal x H).
  - exact (f_equal y H).
Qed.

Lemma cons_eq_inv {A : Type} (a b : A) (l l' : list A) :
  a :: l = b :: l' -> a = b /\ l = l'.
Proof. intros H. injection H as -> ->. split; reflexivity. Qed.

(** *** The rules *)

Lemma return_queen_same_view (cs cs' : list Coin) :
  map (coin_view k) cs = map (coin_view k) cs' ->
  option_map (map (coin_view k)) (return_queen cs)
  = option_map (map (coin_view k)) (return_queen cs').
Proof.
  revert cs'. induction cs as [|c cs IH]; intros [|c' cs'] H; try discriminate H.
  - reflexivity.
  - cbn [map] in H. apply cons_eq_inv in H. destruct H as [Hv Hrest].
    destruct (coin_view_flags c c' Hv) as (Hq & _).
    cbn [return_queen]. rewrite <- Hq. destruct (is_queen c) eqn:Eq.
    + cbn [option_map map]. do 2 f_equal; [|exact Hrest].
      split_coin c. split_coin c'. unfold coin_view, out_of_play in *. fields. subst.
      rewrite !andb_false_r in *. congruence.
    + specialize (IH cs' Hrest).
      destruct (return_queen cs), (return_queen cs'); cbn [option_map] in *;
        try discriminate IH; [|reflexivity].
      injection IH as IH. cbn [map]. now rewrite Hv, IH.
Qed.


Lemma two_state {A : Type} (view : A -> A) (f : A -> A) (a a' : A) :
  (forall a, view (f a) = view (f (view a))) ->
  view a = view a' -> view (f a) = view (f a').
Proof. intros Hf H. now rewrite Hf, H, <- Hf. Qed.

Ltac shown Hm :=
  let E := fresh in
  intros E; destruct (Hm E); split; try reflexivity; assumption.

Lemma handle_foul_same_view (m : string) (g g' : CarromGame) :
  game_view k g = game_view k g' ->
  game_view k (handle_foul m g) = game_view k (handle_foul m g').
Proof.
  intros H. same_view H. unfold handle_foul. fields.
  pose proof (return_queen_same_view _ _ Hcoins) as Hq.
  assert (Hreset : forall p,
    striker_view (Striker_reset_position st p) = striker_view (Striker_reset_position st0 p)).
  { intros p. apply (two_state striker_view (fun s => Striker_reset_position s p));
      [intros s; apply Striker_reset_position_view | exact Hstriker]. }
  match goal with |- context [if ?b then _ else _] => destruct b end.
  - destruct (return_queen cs) as [l|], (return_queen cs0) as [l0|];
      cbn [option_map] in Hq; try discriminate Hq.
    + injection Hq as Hq.
      apply game_view_intro; fields; try reflexivity; auto. shown Hshown.
    + apply game_view_intro; fields; try reflexivity; auto. shown Hshown.
  - apply game_view_intro; fields; try reflexivity; auto. shown Hshown.
Qed.

Lemma handle_pocketed_coin_same_view (c c' : Coin) (g g' : CarromGame) :
  coin_view k c = coin_view k c' ->
  game_view k g = game_view k g' ->
  game_view k (handle_pocketed_coin c g) = game_view k (handle_pocketed_coin c' g').
Proof.
  intros Hc H. destruct (coin_view_flags c c' Hc) as (Hq & _ & Hcol & _).
  unfold handle_pocketed_coin. rewrite <- Hq, <- Hcol.
  assert (Hp : current_player g = current_player g').
  { apply game_view_inv in H. tauto. }
  assert (Hl : last_pocketed_queen g = last_pocketed_queen g').
  { apply game_view_inv in H. tauto. }
  rewrite <- Hp, <- Hl.
  destruct (is_queen c).
  { same_view H. apply game_view_intro; fields; try reflexivity; auto.
    intros E. destruct (Hshown E) as [_ ->]. split; reflexivity. }
  destruct (color_eqb (color c) WHITE && (current_player g =? 1)%Z).
  { destruct (last_pocketed_queen g); same_view H;
      apply game_view_intro; fields; try reflexivity; auto;
      intros E; destruct (Hshown E) as [_ ->]; split; reflexivity. }
  destruct (color_eqb (color c) BLACK && (current_player g =? 2)%Z).
  { destruct (last_pocketed_queen g); same_view H;
      apply game_view_intro; fields; try reflexivity; auto;
      intros E; destruct (Hshown E) as [_ ->]; split; reflexivity. }
  apply handle_foul_same_view, H.
Qed.

Lemma check_turn_end_same_view (g g' : CarromGame) :
  game_view k g = game_view k g' ->
  game_view k (check_turn_end g) = game_view k (check_turn_end g').
Proof.
  intros H. unfold check_turn_end.
  assert (Hp : current_player g = current_player g').
  { pose proof H as H'. apply game_view_inv in H'. tauto. }
  assert (Hf : foul_count g = foul_count g').
  { pose proof H as H'. apply game_view_inv in H'. tauto. }
  rewrite <- Hp, <- Hf.
  destruct (3 <=? foul_count g)%Z.
  - pose proof (handle_foul_same_view
      ("Player " ++ str (current_player g) ++ " committed 3 consecutive fouls!") g g' H) as E.
    same_view E. apply game_view_intro; fields; try reflexivity; auto.
  - destruct (0 <? foul_count g)%Z; [|exact H].
    same_view H.
    apply game_view_intro; fields; try reflexivity; auto.
    + apply (two_state striker_view (fun s => Striker_reset_position s _));
        [intros s; apply Striker_reset_position_view | exact Hstriker].
    + intros E. destruct (Hshown E) as [_ ->]. split; reflexivity.
Qed.

Lemma count_coins_same_view (cs cs' : list Coin) :
  map (coin_view k) cs = map (coin_view k) cs' -> count_coins cs = count_coins cs'.
Proof.
  revert cs'. induction cs as [|c cs IH]; intros [|c' cs'] H; try discriminate H.
  - reflexivity.
  - cbn [map] in H. apply cons_eq_inv in H. destruct H as [Hv Hrest].
    destruct (coin_view_flags c c' Hv) as (_ & Hp & Hcol & _).
    cbn [count_coins]. now rewrite (IH cs' Hrest), Hp, Hcol.
Qed.

Lemma check_game_over_same_view (g g' : CarromGame) :
  game_view k g = game_view k g' ->
  game_view k (check_game_over g) = game_view k (check_game_over g').
Proof.
  intros H. unfold check_game_over.
  assert (Hc : count_coins (coins g) = count_coins (coins g')).
  { apply (count_coins_same_view). apply game_view_inv in H. tauto. }
  rewrite <- Hc. destruct (count_coins (coins g)) as [w b].
  destruct (w =? 0)%Z; [|destruct (b =? 0)%Z]; try exact H;
    same_view H; apply game_view_intro; fields; try reflexivity; auto.
Qed.

Lemma coin_moving_view (c : Coin) :
  coin_moving (coin_view k c) = coin_moving c.
Proof.
  split_coin c. unfold coin_moving, coin_view, out_of_play. fields.
  destruct p; [reflexivity|]. rewrite !andb_false_r. reflexivity.
Qed.

Lemma existsb_moving_same_view (cs cs' : list Coin) :
  map (coin_view k) cs = map (coin_view k) cs' ->
  existsb coin_moving cs = existsb coin_moving cs'.
Proof.
  intros H.
  assert (E : forall l, existsb coin_moving (map (coin_view k) l) = existsb coin_moving l).
  { induction l as [|c l IH]; [reflexivity|]. cbn [map existsb].
    now rewrite coin_moving_view, IH. }
  now rewrite <- (E cs), H, E.
Qed.

Lemma pieces_still_same_view (g g' : CarromGame) :
  game_view k g = game_view k g' -> pieces_still g = pieces_still g'.
Proof.
  intros H. apply game_view_inv in H. destruct H as (Hs & Hc & _).
  unfold pieces_still. rewrite (existsb_moving_same_view _ _ Hc).
  pose proof (f_equal (fun s => velocity_x (base s)) Hs) as Hx.
  pose proof (f_equal (fun s => velocity_y (base s)) Hs) as Hy.
  cbn in Hx, Hy. now rewrite Hx, Hy.
Qed.

Lemma striker_view_set_is_shooting (s : Striker) (b : bool) :
  striker_view (set_is_shooting s b) = set_is_shooting (striker_view s) b.
Proof. reflexivity. Qed.

Lemma settle_same_view (g g' : CarromGame) :
  game_view k g = game_view k g' ->
  game_view k (settle g) = game_view k (settle g').
Proof.
  intros H. unfold settle. apply check_game_over_same_view.
  rewrite <- (pieces_still_same_view g g' H).
  assert (Hsh : is_shooting (striker g) = is_shooting (striker g')).
  { pose proof H as H'. apply game_view_inv in H'. destruct H' as (Hs & _).
    exact (f_equal is_shooting Hs). }
  cbn [set_all_coins_still all_coins_still striker]. rewrite <- Hsh.
  assert (Hstill : game_view k (set_all_coins_still g (pieces_still g))
                   = game_view k (set_all_coins_still g' (pieces_still g))).
  { same_view H. apply game_view_intro; fields; auto. }
  destruct (pieces_still g && is_shooting (striker g)); [|exact Hstill].
  apply check_turn_end_same_view.
  same_view H. apply game_view_intro; fields; auto.
  setters. fields. now rewrite !striker_view_set_is_shooting, Hstriker.
Qed.


(** *** The tick *)

Lemma Ok_inv {A : Type} (a a' : A) : Ok a = Ok a' -> a = a'.
Proof. intros H. injection H as ->. reflexivity. Qed.

Lemma Raise_inv {A : Type} (e e' : PyExc) : @Raise A e = Raise e' -> e = e'.
Proof. intros H. injection H as ->. reflexivity. Qed.

Lemma pair_inv {A B : Type} (a a' : A) (b b' : B) :
  (a, b) = (a', b') -> a = a' /\ b = b'.
Proof. intros H. injection H as -> ->. split; reflexivity. Qed.

Lemma striker_view_set_base (s : Striker) (c : Coin) :
  striker_view (set_base s c) = set_base (striker_view s) (coin_view false c).
Proof. reflexivity. Qed.

Lemma collide_striker_same_view (i : nat) (g g' : CarromGame) :
  game_view k g = game_view k g' ->
  fmap (game_view k) (collide_striker i g) = fmap (game_view k) (collide_striker i g').
Proof.
  intros H. pose proof H as H'. apply game_view_inv in H'. destruct H' as (Hs & Hc & _).
  unfold collide_striker. pose proof (nth_error_same_view _ _ i Hc) as Hn.
  destruct (nth_error (coins g) i) as [c|], (nth_error (coins g') i) as [c'|];
    try contradiction; [|cbn [fmap]; now rewrite H].
  destruct (coin_view_flags c c' Hn) as (_ & Hp & _). rewrite <- Hp.
  destruct (is_pocketed c); cbn [negb]; [cbn [fmap]; now rewrite H|].
  assert (E : fmap (hit_view k) (Striker_check_collision (striker g) c (rng g))
              = fmap (hit_view k) (Striker_check_collision (striker g') c' (rng g'))).
  { rewrite (Striker_check_collision_view k (striker g) c (rng g) zero_rng).
    rewrite (Striker_check_collision_view k (striker g') c' (rng g') zero_rng).
    now rewrite Hs, Hn. }
  destruct (Striker_check_collision (striker g) c (rng g)) as [[[[s1 c1] b1] r1]|e],
           (Striker_check_collision (striker g') c' (rng g')) as [[[[s2 c2] b2] r2]|e2];
    cbn [fmap hit_view bind] in *; try discriminate E; [|apply Raise_inv in E; now rewrite E].
  apply Ok_inv, pair_inv in E. destruct E as [E _].
  apply pair_inv in E. destruct E as [E1 E2]. f_equal.
  same_view H. apply game_view_intro; setters; fields; auto using list_set_same_view.
Qed.

Lemma collide_coins_same_view (i j : nat) (g g' : CarromGame) :
  game_view k g = game_view k g' ->
  fmap (game_view k) (collide_coins i j g) = fmap (game_view k) (collide_coins i j g').
Proof.
  intros H. pose proof H as H'. apply game_view_inv in H'. destruct H' as (Hs & Hc & _).
  unfold collide_coins.
  pose proof (nth_error_same_view _ _ i Hc) as Hi.
  pose proof (nth_error_same_view _ _ j Hc) as Hj.
  destruct (nth_error (coins g) i) as [a|], (nth_error (coins g') i) as [a'|];
    try contradiction; [|cbn [fmap]; now rewrite H].
  destruct (nth_error (coins g) j) as [b|], (nth_error (coins g') j) as [b'|];
    try contradiction; [|cbn [fmap]; now rewrite H].
  destruct (coin_view_flags a a' Hi) as (_ & Hpa & _).
  destruct (coin_view_flags b b' Hj) as (_ & Hpb & _). rewrite <- Hpa, <- Hpb.
  destruct (negb (is_pocketed a) && negb (is_pocketed b)); [|cbn [fmap]; now rewrite H].
  assert (E : fmap (pair_view k) (Coin_check_collision a b)
              = fmap (pair_view k) (Coin_check_collision a' b')).
  { rewrite (Coin_check_collision_view k a b), (Coin_check_collision_view k a' b').
    now rewrite Hi, Hj. }
  destruct (Coin_check_collision a b) as [[[a1 b1] h1]|e],
           (Coin_check_collision a' b') as [[[a2 b2] h2]|e2];
    cbn [fmap pair_view bind] in *; try discriminate E; [|apply Raise_inv in E; now rewrite E].
  apply Ok_inv, pair_inv in E. destruct E as [E _].
  apply pair_inv in E. destruct E as [E1 E2]. f_equal.
  same_view H. apply game_view_intro; setters; fields; auto using list_set_same_view.
Qed.

Lemma forM_same_view {A : Type}
    (step : A -> CarromGame -> PyResult CarromGame) :
  (forall a g g', game_view k g = game_view k g' ->
                  fmap (game_view k) (step a g) = fmap (game_view k) (step a g')) ->
  forall l g g', game_view k g = game_view k g' ->
                 fmap (game_view k) (forM l step g) = fmap (game_view k) (forM l step g').
Proof.
  intros Hstep l. induction l as [|a l IH]; intros g g' H; cbn [forM].
  - cbn [fmap]. now rewrite H.
  - specialize (Hstep a g g' H).
    destruct (step a g) as [g1|e], (step a g') as [g2|e2]; cbn [fmap bind] in *;
      try discriminate Hstep; [|exact Hstep].
    apply IH. now apply Ok_inv in Hstep.
Qed.

Lemma collision_phase_same_view (g g' : CarromGame) :
  game_view k g = game_view k g' ->
  fmap (game_view k) (collision_phase g) = fmap (game_view k) (collision_phase g').
Proof.
  intros H. unfold collision_phase.
  assert (Hn : List.length (coins g') = List.length (coins g)).
  { symmetry. apply (length_same_view). apply game_view_inv in H. tauto. }
  rewrite Hn. apply forM_same_view; [|exact H].
  intros i h h' Hh. pose proof (collide_striker_same_view i h h' Hh) as E.
  destruct (collide_striker i h) as [h1|e], (collide_striker i h') as [h2|e2];
    cbn [fmap bind] in *; try discriminate E; [|apply Raise_inv in E; now rewrite E].
  apply forM_same_view; [|now apply Ok_inv in E].
  intros j; apply collide_coins_same_view.
Qed.

Lemma pocket_step_same_view (i : nat) (st st' : CarromGame * list Capture) :
  outcome_view k st = outcome_view k st' ->
  outcome_view k (pocket_step st i) = outcome_view k (pocket_step st' i).
Proof.
  destruct st as [g log], st' as [g' log']. unfold outcome_view. cbn [fst snd].
  intros H. apply pair_inv in H. destruct H as [H ->].
  pose proof H as H'. apply game_view_inv in H'. destruct H' as (Hs & Hc & Hpk & _).
  unfold pocket_step. pose proof (nth_error_same_view _ _ i Hc) as Hn.
  destruct (nth_error (coins g) i) as [c|], (nth_error (coins g') i) as [c'|];
    try contradiction; [|cbn [fst snd]; now rewrite H].
  rewrite Hpk.
  pose proof (Coin_check_pocket_view k c (pockets g')) as E1.
  pose proof (Coin_check_pocket_view k c' (pockets g')) as E2.
  rewrite Hn, <- E2 in E1. clear E2.
  destruct (Coin_check_pocket c (pockets g')) as [c1 b1],
           (Coin_check_pocket c' (pockets g')) as [c2 b2].
  cbn [fst snd] in E1. apply pair_inv in E1. destruct E1 as [Ec <-].
  destruct b1; cbn [fst snd]; [|now rewrite H].
  f_equal. apply handle_pocketed_coin_same_view; [exact Ec|].
  same_view H. apply game_view_intro; setters; fields; auto using list_set_same_view.
Qed.

Lemma pocket_phase_same_view (g g' : CarromGame) :
  game_view k g = game_view k g' ->
  outcome_view k (pocket_phase g) = outcome_view k (pocket_phase g').
Proof.
  intros H. unfold pocket_phase.
  assert (Hn : List.length (coins g') = List.length (coins g)).
  { symmetry. apply (length_same_view). apply game_view_inv in H. tauto. }
  rewrite Hn. generalize (seq 0 (List.length (coins g))). intros l.
  assert (Hst : outcome_view k (g, @nil Capture) = outcome_view k (g', [])).
  { unfold outcome_view. cbn [fst snd]. now rewrite H. }
  revert Hst. generalize (g, @nil Capture) (g', @nil Capture).
  induction l as [|i l IH]; intros st st' Hst; cbn [fold_left]; [exact Hst|].
  apply IH, pocket_step_same_view, Hst.
Qed.

Lemma map_Coin_update_same_view (cs cs' : list Coin) :
  map (coin_view k) cs = map (coin_view k) cs' ->
  map (coin_view k) (map Coin_update cs) = map (coin_view k) (map Coin_update cs').
Proof.
  revert cs'. induction cs as [|c cs IH]; intros [|c' cs'] H; try discriminate H.
  - reflexivity.
  - cbn [map] in *. apply cons_eq_inv in H. destruct H as [Hv Hrest].
    rewrite (IH cs' Hrest). f_equal.
    now rewrite (Coin_update_view k c), Hv, <- Coin_update_view.
Qed.

Lemma update_after_striker_same_view (g g' : CarromGame) :
  game_view k g = game_view k g' ->
  fmap (outcome_view k) (update_after_striker g)
  = fmap (outcome_view k) (update_after_striker g').
Proof.
  intros H. pose proof H as H'. apply game_view_inv in H'.
  destruct H' as (Hs & Hc & Hpk & _).
  unfold update_after_striker.
  rewrite Hpk.
  pose proof (Coin_check_pocket_view false (base (striker g)) (pockets g')) as E1.
  pose proof (Coin_check_pocket_view false (base (striker g')) (pockets g')) as E2.
  pose proof (f_equal base Hs) as Hb. cbn [striker_view base] in Hb.
  rewrite Hb, <- E2 in E1. clear E2.
  destruct (Coin_check_pocket (base (striker g)) (pockets g')) as [c1 b1],
           (Coin_check_pocket (base (striker g')) (pockets g')) as [c2 b2].
  cbn [fst snd] in E1. apply pair_inv in E1. destruct E1 as [Ec <-].
  assert (H1 : game_view k (set_striker g (set_base (striker g) c1))
               = game_view k (set_striker g' (set_base (striker g') c2))).
  { same_view H. apply game_view_intro; setters; fields; auto.
    now rewrite !striker_view_set_base, Hstriker, Ec. }
  destruct b1.
  - assert (E' : game_view k (striker_pocketed (set_striker g (set_base (striker g) c1)))
                  = game_view k (striker_pocketed (set_striker g' (set_base (striker g') c2)))).
    { unfold striker_pocketed.
      pose proof (handle_foul_same_view "Striker pocketed!" _ _ H1) as E.
      same_view E. apply game_view_intro; setters; fields; auto.
      now rewrite !striker_view_set_is_shooting, Hstriker. }
    cbn [fmap]. unfold outcome_view. cbn [fst snd]. now rewrite E'.
  - assert (H2 : game_view k (set_coins (set_striker g (set_base (striker g) c1))
                   (map Coin_update (coins (set_striker g (set_base (striker g) c1)))))
                 = game_view k (set_coins (set_striker g' (set_base (striker g') c2))
                   (map Coin_update (coins (set_striker g' (set_base (striker g') c2)))))).
    { same_view H1. apply game_view_intro; setters; fields;
        auto using map_Coin_update_same_view. }
    pose proof (collision_phase_same_view _ _ H2) as E.
    destruct (collision_phase _) as [h1|e], (collision_phase _) as [h2|e2];
      cbn [fmap bind] in *; try discriminate E; [|apply Raise_inv in E; now rewrite E].
    apply Ok_inv in E. pose proof (pocket_phase_same_view _ _ E) as Ep.
    destruct (pocket_phase h1) as [p1 l1], (pocket_phase h2) as [p2 l2].
    unfold outcome_view in *. cbn [fst snd] in *.
    apply pair_inv in Ep. destruct Ep as [Ep ->].
    cbn [fmap fst snd]. now rewrite (settle_same_view _ _ Ep).
Qed.

Lemma update_log_same_view (g g' : CarromGame) :
  game_view k g = game_view k g' ->
  fmap (outcome_view k) (update_log g) = fmap (outcome_view k) (update_log g').
Proof.
  intros H. unfold update_log.
  assert (Hst : game_state g = game_state g').
  { pose proof H as H'. apply game_view_inv in H'. tauto. }
  rewrite <- Hst. destruct (negb (GameState_eqb (game_state g) PLAYING)).
  - cbn [fmap]. unfold outcome_view. cbn [fst snd]. now rewrite H.
  - apply update_after_striker_same_view.
    same_view H. apply game_view_intro; setters; fields; auto.
    apply (two_state striker_view Striker_update); [apply Striker_update_view | exact Hstriker].
Qed.


(** *** Events and frames *)

Lemma Coin_init_view (px py : R) (col : Color) (queen : bool) (r r' : RNG) :
  coin_view k (fst (Coin_init px py col queen r))
  = coin_view k (fst (Coin_init px py col queen r')).
Proof. reflexivity. Qed.

Lemma Striker_init_view (px py : R) (r r' : RNG) :
  striker_view (fst (Striker_init px py r)) = striker_view (fst (Striker_init px py r')).
Proof. reflexivity. Qed.

Lemma coin_ring_view (n : nat) (rad offset : R) (even odd : Color) :
  forall (m : nat) (cs cs' : list Coin) (r r' : RNG),
    map (coin_view k) cs = map (coin_view k) cs' ->
    map (coin_view k) (fst (coin_ring m n rad offset even odd cs r))
    = map (coin_view k) (fst (coin_ring m n rad offset even odd cs' r')).
Proof.
  induction m as [|m IH]; intros cs cs' r r' H; [exact H|].
  cbn [coin_ring].
  match goal with
  | |- context [Coin_init ?a ?b ?c ?d r] =>
      pose proof (Coin_init_view a b c d r r') as Hc;
      destruct (Coin_init a b c d r) as [c1 r1];
      destruct (Coin_init a b c d r') as [c2 r2]
  end.
  cbn [fst] in Hc. apply IH. now rewrite !map_app, H; cbn [map]; rewrite Hc.
Qed.

Lemma setup_coins_view (r r' : RNG) :
  map (coin_view k) (fst (setup_coins [] r))
  = map (coin_view k) (fst (setup_coins [] r')).
Proof.
  unfold setup_coins.
  match goal with
  | |- context [Coin_init ?a ?b ?c ?d r] =>
      pose proof (Coin_init_view a b c d r r') as Hc;
      destruct (Coin_init a b c d r) as [c1 r1];
      destruct (Coin_init a b c d r') as [c2 r2]
  end.
  cbn [fst app] in *.
  assert (H0 : map (coin_view k) [c1] = map (coin_view k) [c2])
    by (cbn [map]; now rewrite Hc).
  pose proof (coin_ring_view 6 (IZR COIN_RADIUS * 2.5) 0 BLACK WHITE 6 _ _ r1 r2 H0) as H1.
  destruct (coin_ring 6 6 _ _ _ _ [c1] r1) as [l1 q1],
           (coin_ring 6 6 _ _ _ _ [c2] r2) as [l2 q2]. cbn [fst] in H1.
  pose proof (coin_ring_view 8 (IZR COIN_RADIUS * 4.5) (PI / 8) WHITE BLACK 8 _ _ q1 q2 H1)
    as H2.
  destruct (coin_ring 8 8 _ _ _ _ l1 q1) as [l3 q3],
           (coin_ring 8 8 _ _ _ _ l2 q2) as [l4 q4]. cbn [fst] in H2.
  apply coin_ring_view, H2.
Qed.

Lemma reset_game_same_view (g g' : CarromGame) :
  game_view k g = game_view k g' ->
  game_view k (reset_game g) = game_view k (reset_game g').
Proof.
  intros H. same_view H. unfold reset_game. fields.
  match goal with
  | |- context [Striker_init ?a ?b rg] =>
      pose proof (Striker_init_view a b rg rg0) as Hs;
      destruct (Striker_init a b rg) as [t1 r1];
      destruct (Striker_init a b rg0) as [t2 r2]
  end.
  pose proof (setup_coins_view r1 r2) as Hc.
  destruct (setup_coins [] r1) as [l1 q1], (setup_coins [] r2) as [l2 q2].
  cbn [fst] in Hs, Hc.
  apply game_view_intro; fields; auto.
Qed.

Lemma set_game_state_same_view (st : GameState) (g g' : CarromGame) :
  game_view k g = game_view k g' ->
  game_view k (set_game_state g st) = game_view k (set_game_state g' st).
Proof.
  intros H. same_view H. apply game_view_intro; setters; fields; auto.
Qed.

Lemma set_striker_same_view (s s' : Striker) (g g' : CarromGame) :
  game_view k g = game_view k g' ->
  striker_view s = striker_view s' ->
  game_view k (set_striker g s) = game_view k (set_striker g' s').
Proof.
  intros H Hs. same_view H. apply game_view_intro; setters; fields; auto.
Qed.

Lemma release_same_view (g g' : CarromGame) :
  game_view k g = game_view k g' ->
  game_view k (release g) = game_view k (release g').
Proof.
  intros H. pose proof H as H'. apply game_view_inv in H'. destruct H' as (Hs & _).
  unfold release. rewrite <- (f_equal power Hs : power (striker g) = power (striker g')).
  destruct (Rltb 0 (power (striker g))); [|exact H].
  pose proof (Striker_shoot_view (striker g) (rng g) zero_rng) as E1.
  pose proof (Striker_shoot_view (striker g') (rng g') zero_rng) as E2.
  rewrite Hs, <- E2 in E1. clear E2.
  destruct (Striker_shoot (striker g) (rng g)) as [t1 r1],
           (Striker_shoot (striker g') (rng g')) as [t2 r2]. cbn [fst] in E1.
  same_view H. apply game_view_intro; setters; fields; auto.
Qed.

Lemma striker_view_flags (s s' : Striker) :
  striker_view s = striker_view s' ->
  is_positioned s = is_positioned s' /\ is_aiming s = is_aiming s'
  /\ is_shooting s = is_shooting s' /\ x (base s) = x (base s')
  /\ y (base s) = y (base s').
Proof.
  intros H. repeat split.
  - exact (f_equal is_positioned H).
  - exact (f_equal is_aiming H).
  - exact (f_equal is_shooting H).
  - exact (f_equal (fun t => x (base t)) H).
  - exact (f_equal (fun t => y (base t)) H).
Qed.

Lemma handle_mouse_same_view (ev : Event) (g g' : CarromGame) :
  game_view k g = game_view k g' ->
  game_view k (handle_mouse ev g) = game_view k (handle_mouse ev g').
Proof.
  intros H. pose proof H as H'. apply game_view_inv in H'. destruct H' as (Hs & _).
  destruct (striker_view_flags _ _ Hs) as (Hp & Ha & _ & Hx & Hy).
  unfold handle_mouse. rewrite <- Hp, <- Ha.
  destruct ev as [key | button pos | button pos | pos held]; [exact H | | |].
  - destruct (button =? 1)%Z.
    + destruct (negb (is_positioned (striker g))); [|exact H].
      apply set_striker_same_view; [exact H|].
      apply (two_state striker_view (fun s => Striker_position s _));
        [intros s; apply Striker_position_view|].
      split_striker (striker g). split_striker (striker g').
      unfold striker_view, set_is_positioned in *. fields. congruence.
    + destruct ((button =? 3)%Z && is_positioned (striker g)); [|exact H].
      apply set_striker_same_view; [exact H|].
      split_striker (striker g). split_striker (striker g').
      unfold striker_view, set_is_aiming in *. fields. congruence.
  - destruct ((button =? 1)%Z && is_aiming (striker g)); [|exact H].
    apply release_same_view, H.
  - destruct (is_positioned (striker g) && negb (is_aiming (striker g))).
    + apply set_striker_same_view; [exact H|].
      apply (two_state striker_view (fun s => Striker_position s _));
        [intros s; apply Striker_position_view | exact Hs].
    + destruct (is_aiming (striker g)); [|exact H].
      assert (Haim : striker_view (Striker_aim (striker g) (IZR (fst pos)) (IZR (snd pos)))
                     = striker_view (Striker_aim (striker g') (IZR (fst pos)) (IZR (snd pos)))).
      { apply (two_state striker_view (fun s => Striker_aim s _ _));
          [intros s; apply Striker_aim_view | exact Hs]. }
      destruct held; [|apply set_striker_same_view; [exact H | exact Haim]].
      apply set_striker_same_view; [exact H|].
      cbn [Striker_aim base]. rewrite <- Hx, <- Hy.
      apply (two_state striker_view (fun s => Striker_set_power s _));
        [intros s; apply Striker_set_power_view | exact Haim].
Qed.

Lemma handle_event_same_view (ev : Event) (g g' : CarromGame) :
  game_view k g = game_view k g' ->
  game_view k (handle_event ev g) = game_view k (handle_event ev g').
Proof.
  intros H. pose proof H as H'. apply game_view_inv in H'.
  destruct H' as (Hs & _ & _ & _ & _ & _ & _ & _ & _ & _ & _ & _ & _ & Hstill & Hst & _).
  unfold handle_event. rewrite <- Hst.
  destruct (game_state g).
  - destruct ev as [[]| | |]; auto using set_game_state_same_view.
  - destruct ev as [[]| | |]; auto using set_game_state_same_view.
  - assert (Hpause : game_view k (match ev with
                                  | KEYDOWN K_ESCAPE => set_game_state g PAUSED
                                  | _ => g
                                  end)
                     = game_view k (match ev with
                                    | KEYDOWN K_ESCAPE => set_game_state g' PAUSED
                                    | _ => g'
                                    end)).
    { destruct ev as [[]| | |]; auto using set_game_state_same_view. }
    cbv zeta.
    assert (Hcond : forall h h', game_view k h = game_view k h' ->
              all_coins_still h && negb (is_shooting (striker h))
              = all_coins_still h' && negb (is_shooting (striker h'))).
    { intros h h' Hh. apply game_view_inv in Hh.
      destruct Hh as (Hs' & _ & _ & _ & _ & _ & _ & _ & _ & _ & _ & _ & _ & Hstill' & _).
      destruct (striker_view_flags _ _ Hs') as (_ & _ & Hsh & _).
      now rewrite Hstill', Hsh. }
    rewrite <- (Hcond _ _ Hpause).
    match goal with |- context [if ?b then _ else _] => destruct b end.
    + apply handle_mouse_same_view, Hpause.
    + exact Hpause.
  - destruct ev as [[]| | |];
      auto using set_game_state_same_view, reset_game_same_view.
  - destruct ev as [[]| | |]; auto using set_game_state_same_view.
Qed.

Lemma frame_same_view (events : list Event) (g g' : CarromGame) :
  game_view k g = game_view k g' ->
  fmap (outcome_view k) (frame events g) = fmap (outcome_view k) (frame events g').
Proof.
  intros H. unfold frame. apply update_log_same_view.
  revert g g' H. induction events as [|ev events IH]; intros g g' H; [exact H|].
  cbn [fold_left]. apply IH, handle_event_same_view, H.
Qed.

Lemma run_same_view (frames : list (list Event)) (g g' : CarromGame) :
  game_view k g = game_view k g' ->
  fmap (outcome_view k) (run frames g) = fmap (outcome_view k) (run frames g').
Proof.
  revert g g'. induction frames as [|events frames IH]; intros g g' H; cbn [run].
  - cbn [fmap]. unfold outcome_view. cbn [fst snd]. now rewrite H.
  - pose proof (frame_same_view events g g' H) as E.
    destruct (frame events g) as [[h1 l1]|e], (frame events g') as [[h2 l2]|e2];
      cbn [fmap bind] in *; try discriminate E;
      [|apply Raise_inv in E; now rewrite E].
    apply Ok_inv in E. unfold outcome_view in E. cbn [fst snd] in *.
    apply pair_inv in E. destruct E as [E ->].
    specialize (IH h1 h2 E).
    destruct (run frames h1) as [[p1 m1]|e], (run frames h2) as [[p2 m2]|e2];
      cbn [fmap bind] in *; try discriminate IH;
      [|apply Raise_inv in IH; now rewrite IH].
    apply Ok_inv in IH. unfold outcome_view in *. cbn [fst snd] in *.
    apply pair_inv in IH. destruct IH as [IH ->]. now rewrite IH.
Qed.

End SameView.

Lemma same_outcome (k : bool) (a b : PyResult (CarromGame * list Capture)) :
  fmap (outcome_view k) a = fmap (outcome_view k) b ->
  match a, b with
  | Ok (h1, caps1), Ok (h2, caps2) => caps1 = caps2 /\ game_view k h1 = game_view k h2
  | Raise e1, Raise e2 => e1 = e2
  | _, _ => False
  end.
Proof.
  destruct a as [[h1 l1]|e], b as [[h2 l2]|e2]; cbn [fmap]; intros E;
    try discriminate E.
  - apply Ok_inv in E. unfold outcome_view in E. cbn [fst snd] in E.
    apply pair_inv in E. tauto.
  - now apply Raise_inv in E.
Qed.

(** C8.  Two runs that start from games with the same discs, the same match
    state and the same striker controls, and that are fed the same frames of
    events, report the same captures tick by tick, end in games with the same
    positions, velocities and match state, or stop with the same exception:
    the generator of random numbers, the rotation of the discs and the
    particles of the striker are never read by the simulation. *)
Theorem captures_are_deterministic (frames : list (list Event)) (g1 g2 : CarromGame) :
  game_view false g1 = game_view false g2 ->
  match run frames g1, run frames g2 with
  | Ok (h1, caps1), Ok (h2, caps2) =>
      caps1 = caps2 /\ game_view false h1 = game_view false h2
  | Raise e1, Raise e2 => e1 = e2
  | _, _ => False
  end.
Proof.
  intros H. apply same_outcome, run_same_view, H.
Qed.


Lemma captures_are_deterministic_witness :
  match run [[MOUSEBUTTONDOWN 1 (300, 650)%Z]; []]
            (game_with (striker_at 400 650) small_board 1 true 0 2),
        run [[MOUSEBUTTONDOWN 1 (300, 650)%Z]; []] noisy_game with
  | Ok (h1, caps1), Ok (h2, caps2) =>
      caps1 = caps2 /\ game_view false h1 = game_view false h2
  | Raise e1, Raise e2 => e1 = e2
  | _, _ => False
  end.
Proof.
  apply captures_are_deterministic. reflexivity.
Defined.

(** ** Loading what was saved *)






Lemma reset_game_fresh (g : CarromGame) :
  pockets (reset_game g) = create_pockets
  /\ foul_count (reset_game g) = 0%Z
  /\ winner (reset_game g) = None
  /\ all_coins_still (reset_game g) = true
  /\ forall sx sy,
       striker_view (set_base (striker (reset_game g))
                      (set_y (set_x (base (striker (reset_game g))) sx) sy))
       = striker_view (striker_at sx sy).
Proof.
  unfold reset_game.
  destruct (Striker_init (IZR (SCREEN_WIDTH / 2)) (IZR (SCREEN_HEIGHT - 100)) (rng g))
    as [t r1] eqn:Et.
  destruct (setup_coins [] r1) as [l r2].
  repeat split. intros sx sy. cbn [striker].
  apply (f_equal fst) in Et. cbn [fst] in Et. rewrite <- Et. reflexivity.
Qed.

(** The ten scalar keys of a snapshot written by [save_game], read back
    into a game [h]. *)
Lemma restore_scalars (g h : CarromGame) (entries : option (list CoinEntry))
    (pos : option PosEntry) :
  exists h',
    apply_snapshot
      (mkSnapshot (Some (player_mode g)) (Some (current_theme g))
         (Some (current_player g)) (Some (player1_score g)) (Some (player2_score g))
         (Some (player3_score g)) (Some (player4_score g)) (Some (queen_pocketed g))
         (Some (queen_covered g)) (Some (last_pocketed_queen g)) entries pos) h
    = and_then
        (match entries with
         | Some es => restore_coins es (set_coins h' [])
         | None => Failed "'coins'" (set_coins h' [])
         end)
        (fun g0 =>
           match pos with
           | Some (PosTuple sx sy) =>
               Running (set_striker g0
                          (set_base (striker g0) (set_y (set_x (base (striker g0)) sx) sy)))
           | Some (BadPos err) => Failed err g0
           | None => Failed "'striker_pos'" g0
           end)
    /\ h' = mkGame (striker (reset_game h)) (coins (reset_game h))
                   (pockets (reset_game h)) (current_player g) (player1_score g)
                   (player2_score g) (player3_score g) (player4_score g)
                   (queen_pocketed g) (queen_covered g) (last_pocketed_queen g)
                   (foul_count (reset_game h)) (winner (reset_game h))
                   (all_coins_still (reset_game h)) (turn_message (reset_game h))
                   (game_saved (reset_game h)) (game_state (reset_game h))
                   (player_mode g) (current_theme g) (rng (reset_game h)).
Proof.
  eexists. split; [|reflexivity].
  unfold apply_snapshot. generalize (reset_game h). intros f. reflexivity.
Qed.






(** ** Running a tick *)

Lemma Rabs_small (v f : R) : v = 0 \/ (0 <= v <= 0.1 /\ 0 <= f < 1) ->
  Rltb (Rabs (v * f)) 0.1 = true.
Proof.
  intros H. apply Rltb_true. unfold Rabs.
  destruct (Rcase_abs (v * f)); destruct H as [-> | [Hv Hf]]; nra.
Qed.

Lemma wall_inside (p v rad lo hi : R) :
  lo <= p - rad -> p + rad <= hi -> wall p v rad lo hi = (p, v).
Proof.
  intros Hlo Hhi. unfold wall.
  replace (Rltb (p - rad) lo) with false by (symmetry; apply Rltb_false; exact Hlo).
  replace (Rltb hi (p + rad)) with false by (symmetry; apply Rltb_false; exact Hhi).
  reflexivity.
Qed.

(** A disc that is slow enough stops where it is. *)
Lemma Coin_update_stops (c : Coin) :
  is_pocketed c = false ->
  Rltb (Rabs (velocity_x c * friction c)) 0.1 = true ->
  Rltb (Rabs (velocity_y c * friction c)) 0.1 = true ->
  100 <= x c - radius c -> x c + radius c <= 700 ->
  100 <= y c - radius c -> y c + radius c <= 700 ->
  Coin_update c
  = mkCoin (x c) (y c) (color c) (radius c) 0 0 (is_queen c) false (friction c)
           (rotation c).
Proof.
  intros Hp Hvx Hvy Hx1 Hx2 Hy1 Hy2. unfold Coin_update.
  rewrite Hp, Hvx, Hvy. cbn [andb]. rewrite !Rplus_0_r, Reqb_refl. cbn [negb orb].
  change (IZR board_margin) with 100.
  change (IZR (SCREEN_WIDTH - board_margin)) with 700.
  change (IZR (SCREEN_HEIGHT - board_margin)) with 700.
  rewrite (wall_inside (x c)), (wall_inside (y c)) by assumption. reflexivity.
Qed.

Lemma Coin_update_captured (c : Coin) : is_pocketed c = true -> Coin_update c = c.
Proof. intros Hp. unfold Coin_update. now rewrite Hp. Qed.

(** Two discs on the board that do not overlap. *)
Lemma resolve_collision_apart (a b : Coin) :
  is_pocketed a = false -> is_pocketed b = false ->
  0 <= radius a + radius b ->
  (radius a + radius b) * (radius a + radius b)
    <= (x b - x a) * (x b - x a) + (y b - y a) * (y b - y a) ->
  resolve_collision a b = Ok None.
Proof.
  intros Ha Hb Hr Hd. unfold resolve_collision. rewrite Ha, Hb. cbn [orb].
  replace (Rltb _ (radius a + radius b)) with false; [reflexivity|].
  symmetry. apply Rltb_false. rewrite <- (sqrt_square (radius a + radius b)) by exact Hr.
  apply sqrt_le_1_alt, Hd.
Qed.

(** A disc whose centre is 20 away from the walls is in no pocket. *)
Lemma clear_of_pockets (c : Coin) :
  120 <= x c <= 680 -> 120 <= y c <= 680 -> in_some_pocket c create_pockets = false.
Proof.
  intros Hx Hy. unfold create_pockets, in_some_pocket. cbn [fst snd].
  rewrite !far_from_pocket; try reflexivity;
    change (IZR (SCREEN_WIDTH - board_margin)) with 700;
    change (IZR (SCREEN_HEIGHT - board_margin)) with 700;
    change (IZR board_margin) with 100;
    unfold Rabs; match goal with |- context [Rcase_abs ?e] => destruct (Rcase_abs e) end; lra.
Qed.

Lemma Coin_check_pocket_clear (c : Coin) :
  120 <= x c <= 680 -> 120 <= y c <= 680 ->
  Coin_check_pocket c create_pockets = (c, false).
Proof.
  intros Hx Hy. unfold Coin_check_pocket. rewrite (clear_of_pockets c Hx Hy).
  destruct (is_pocketed c); reflexivity.
Qed.

Lemma Coin_check_pocket_captured (c : Coin) (ps : list (Z * Z)) :
  is_pocketed c = true -> Coin_check_pocket c ps = (c, false).
Proof. intros Hp. unfold Coin_check_pocket. now rewrite Hp. Qed.

Ltac real_fields :=
  cbn [x y color radius velocity_x velocity_y is_queen is_pocketed friction rotation
       base striker coins pockets disc striker_at];
  change (IZR STRIKER_RADIUS) with 20; change (IZR COIN_RADIUS) with 15.

Ltac side := real_fields; first [reflexivity | lra | (apply Rabs_small; lra)].

(** The tick of [last_tick_game], phase by phase. *)
Lemma last_tick_striker :
  Striker_update (striker last_tick_game)
  = mkStriker (mkCoin 420 150 WHITE (IZR STRIKER_RADIUS) 0 0 false false 0.98 0)
              false false 0 4 true [] false.
Proof.
  unfold Striker_update. cbn [striker last_tick_game base strike_particles move_particles
    is_positioned is_aiming aim_angle power is_shooting strike_sound_played].
  rewrite Coin_update_stops by side. real_fields.
  rewrite Reqb_refl. reflexivity.
Qed.

Lemma small_board_stays : map Coin_update small_board = small_board.
Proof.
  unfold small_board. cbn [map].
  rewrite (Coin_update_captured (disc 100 100 RED true true)) by reflexivity.
  rewrite (Coin_update_stops (disc 300 400 WHITE false false)) by side.
  rewrite (Coin_update_stops (disc 500 400 BLACK false false)) by side.
  reflexivity.
Qed.

Ltac run_fields :=
  unfold set_striker, set_coins, set_rng, set_base, set_all_coins_still,
    set_is_shooting, set_foul_count, collide_striker, collide_coins,
    Striker_check_collision, Coin_check_collision, pocket_step;
  cbn [striker coins pockets current_player player1_score player2_score
       player3_score player4_score queen_pocketed queen_covered last_pocketed_queen
       foul_count winner all_coins_still turn_message game_saved game_state
       player_mode current_theme rng base is_positioned is_aiming aim_angle power
       is_shooting strike_particles strike_sound_played bind list_set nth_error
       negb andb orb is_pocketed disc List.length seq Nat.sub forM fold_left existsb
       velocity_x velocity_y].

(** Runs a tick on a board where nothing touches and nothing falls. *)
Ltac quiet_tick :=
  repeat first
    [ progress run_fields
    | rewrite resolve_collision_apart by side
    | rewrite Coin_check_pocket_captured by reflexivity
    | rewrite Coin_check_pocket_clear by side
    | rewrite Reqb_refl ].

Lemma last_tick_runs :
  update_log last_tick_game = Ok (after_last_tick, []).
Proof.
  unfold update_log.
  replace (game_state last_tick_game) with PLAYING by reflexivity.
  cbn [GameState_eqb negb].
  rewrite last_tick_striker. unfold update_after_striker, last_tick_game. run_fields.
  rewrite Coin_check_pocket_clear by side. run_fields.
  rewrite small_board_stays.
  unfold collision_phase, small_board. quiet_tick.
  unfold pocket_phase. quiet_tick.
  unfold settle, pieces_still, coin_moving. quiet_tick.
  reflexivity.
Qed.


Lemma queen_on_coin_stays : map Coin_update queen_on_coin = queen_on_coin.
Proof.
  unfold queen_on_coin. cbn [map].
  rewrite (Coin_update_stops (disc 400 400 RED true false)) by side.
  rewrite (Coin_update_stops (disc 400 400 WHITE false false)) by side.
  rewrite (Coin_update_stops (disc 500 400 BLACK false false)) by side.
  reflexivity.
Qed.

(** The tick of a match where the queen lies on a coin stops with the
    exception: [update] does not catch it. *)
Lemma tick_raises_on_coincident_discs :
  update_log queen_on_coin_game = Raise ZeroDivisionError.
Proof.
  unfold update_log.
  replace (game_state queen_on_coin_game) with PLAYING by reflexivity.
  cbn [GameState_eqb negb].
  unfold Striker_update, queen_on_coin_game, game_with. run_fields.
  unfold striker_at. run_fields.
  rewrite Coin_update_stops by side. real_fields. rewrite Reqb_refl. cbn [andb].
  unfold update_after_striker. run_fields.
  rewrite Coin_check_pocket_clear by side. run_fields.
  rewrite queen_on_coin_stays.
  unfold collision_phase, queen_on_coin. run_fields.
  rewrite resolve_collision_apart by side. run_fields.
  rewrite resolve_collision_coincident by side.
  reflexivity.
Qed.

(** ** A shot without a capture *)



Lemma handle_foul_all_coins_still (m : string) (g : CarromGame) :
  all_coins_still (handle_foul m g) = all_coins_still g.
Proof.
  unfold handle_foul.
  destruct (last_pocketed_queen g && negb (queen_covered g));
    [destruct (return_queen (coins g))|]; reflexivity.
Qed.

Lemma check_turn_end_all_coins_still (g : CarromGame) :
  all_coins_still (check_turn_end g) = all_coins_still g.
Proof.
  unfold check_turn_end. destruct (3 <=? foul_count g)%Z.
  - apply (handle_foul_all_coins_still _ g).
  - destruct (0 <? foul_count g)%Z; reflexivity.
Qed.

Lemma check_game_over_keeps (g : CarromGame) :
  foul_count (check_game_over g) = foul_count g
  /\ turn_message (check_game_over g) = turn_message g
  /\ all_coins_still (check_game_over g) = all_coins_still g.
Proof.
  unfold check_game_over. destruct (count_coins (coins g)) as [w b].
  destruct (w =? 0)%Z; [|destruct (b =? 0)%Z]; repeat split.
Qed.


Lemma settle_cases (h : CarromGame) :
  all_coins_still (settle h) = pieces_still h
  /\ (pieces_still h && is_shooting (striker h) = false ->
      foul_count (settle h) = foul_count h
      /\ current_player (settle h) = current_player h)
  /\ (pieces_still h && is_shooting (striker h) = true ->
      exists h1,
        settle h = check_game_over (check_turn_end h1)
        /\ foul_count h1 = foul_count h
        /\ current_player h1 = current_player h).
Proof.
  unfold settle. cbn [set_all_coins_still all_coins_still striker].
  destruct (pieces_still h && is_shooting (striker h)) eqn:E.
  - split; [|split; [discriminate|]].
    + destruct (check_game_over_keeps
                  (check_turn_end
                     (set_striker (set_all_coins_still h (pieces_still h))
                        (set_is_shooting (striker h) false)))) as (_ & _ & ->).
      now rewrite check_turn_end_all_coins_still.
    + intros _. eexists. split; [reflexivity|]. split; reflexivity.
  - split; [|split; [|discriminate]].
    + now destruct (check_game_over_keeps (set_all_coins_still h (pieces_still h)))
        as (_ & _ & ->).
    + intros _. rewrite check_game_over_player.
      now destruct (check_game_over_keeps (set_all_coins_still h (pieces_still h)))
        as (-> & _).
Qed.





(** ** The tick that ends the match *)

Lemma white_cleared_tick :
  update_log white_cleared_game = Ok (white_cleared_over, []).
Proof.
  unfold update_log.
  replace (game_state white_cleared_game) with PLAYING by reflexivity.
  cbn [GameState_eqb negb].
  unfold Striker_update, white_cleared_game, game_with. run_fields.
  unfold striker_at. run_fields.
  rewrite Coin_update_stops by side. real_fields. rewrite Reqb_refl. cbn [andb].
  unfold update_after_striker. run_fields.
  rewrite Coin_check_pocket_clear by side. run_fields. cbn [map].
  rewrite (Coin_update_stops (disc 400 400 RED true false)) by side.
  rewrite (Coin_update_captured (disc 110 110 WHITE false true)) by reflexivity.
  rewrite (Coin_update_stops (disc 500 400 BLACK false false)) by side.
  unfold collision_phase. quiet_tick.
  unfold pocket_phase. quiet_tick.
  unfold settle, pieces_still, coin_moving. quiet_tick.
  reflexivity.
Qed.

Lemma game_over_when_a_colour_is_cleared_witness :
  update_log white_cleared_game = Ok (white_cleared_over, [])
  /\ winner white_cleared_over = Some 1%Z
  /\ game_state white_cleared_over = GAME_OVER.
Proof.
  split; [exact white_cleared_tick|].
  destruct game_over_when_a_colour_is_cleared as [_ Htick].
  destruct (Htick white_cleared_game white_cleared_over [] eq_refl white_cleared_tick)
    as [Hwhite _].
  - intros [].
  - intros c [<- | [<- | [<- | []]]]; intros E; try discriminate E; reflexivity.
  - apply Hwhite. reflexivity.
Defined.


(** ** The save point of the counterexample is the outcome of a tick *)




(** ** The motion of a disc: friction and rest *)

Lemma wall_speed (p v rad lo hi : R) : Rabs (snd (wall p v rad lo hi)) <= Rabs v.
Proof.
  unfold wall. pose proof (Rabs_pos v) as Hv.
  destruct (Rltb (p - rad) lo); [|destruct (Rltb hi (p + rad))]; cbn [snd];
    try lra;
    rewrite Rabs_mult, Rabs_Ropp, (Rabs_pos_eq 0.8) by lra; lra.
Qed.

(** The velocity after an update is the damped velocity, set to zero when
    both components are below the threshold, and then passed through the
    wall test. *)
Lemma Coin_update_velocity (c : Coin) :
  is_pocketed c = false ->
  exists p q v w,
    velocity_x (Coin_update c)
    = snd (wall p v (radius c) (IZR board_margin) (IZR (SCREEN_WIDTH - board_margin)))
    /\ velocity_y (Coin_update c)
       = snd (wall q w (radius c) (IZR board_margin) (IZR (SCREEN_HEIGHT - board_margin)))
    /\ ((v = 0 /\ w = 0)
        \/ (v = velocity_x c * friction c /\ w = velocity_y c * friction c))
    /\ (Rabs (velocity_x c * friction c) < 0.1 ->
        Rabs (velocity_y c * friction c) < 0.1 -> v = 0 /\ w = 0).
Proof.
  intros Hp. unfold Coin_update. rewrite Hp.
  destruct (Rltb (Rabs (velocity_x c * friction c)) 0.1) eqn:Ex;
    [destruct (Rltb (Rabs (velocity_y c * friction c)) 0.1) eqn:Ey|];
    cbn [andb];
    match goal with
    | |- context [let '(_, _) := wall ?p ?v (radius c) ?lo ?hi in
                  let '(_, _) := wall ?q ?w (radius c) ?lo' ?hi' in _] =>
        exists p, q, v, w;
        destruct (wall p v (radius c) lo hi); destruct (wall q w (radius c) lo' hi')
    end; cbn [velocity_x velocity_y snd];
    (split; [reflexivity|]); (split; [reflexivity|]);
    (split; [auto|]); intros Hx Hy; auto;
    try (apply Rltb_false in Ex; lra); try (apply Rltb_false in Ey; lra).
Qed.

Lemma Coin_update_damped (c : Coin) :
  is_pocketed c = false ->
  0 <= friction c ->
  Rabs (velocity_x (Coin_update c)) <= friction c * Rabs (velocity_x c)
  /\ Rabs (velocity_y (Coin_update c)) <= friction c * Rabs (velocity_y c).
Proof.
  intros Hp Hf.
  destruct (Coin_update_velocity c Hp) as (p & q & v & w & -> & -> & Hvw & _).
  pose proof (wall_speed p v (radius c) (IZR board_margin) (IZR (SCREEN_WIDTH - board_margin)))
    as Hx.
  pose proof (wall_speed q w (radius c) (IZR board_margin) (IZR (SCREEN_HEIGHT - board_margin)))
    as Hy.
  pose proof (Rabs_pos (velocity_x c)) as Px. pose proof (Rabs_pos (velocity_y c)) as Py.
  assert (Hv : Rabs v <= friction c * Rabs (velocity_x c)
               /\ Rabs w <= friction c * Rabs (velocity_y c)).
  { destruct Hvw as [[-> ->] | [-> ->]].
    - rewrite Rabs_R0. split; nra.
    - rewrite !Rabs_mult, (Rabs_pos_eq (friction c)) by exact Hf. split; lra. }
  split; lra.
Qed.

(** X1.  [Coin.update] never increases the speed of a disc along either
    axis, provided the friction factor lies between 0 and 1 (it is 0.98 for
    every disc that the constructors build): the damping, the rest threshold
    and the rebound on a wall (factor 0.8) can only shrink a component. *)
Theorem Coin_update_never_speeds_up (c : Coin) :
  0 <= friction c <= 1 ->
  Rabs (velocity_x (Coin_update c)) <= Rabs (velocity_x c)
  /\ Rabs (velocity_y (Coin_update c)) <= Rabs (velocity_y c).
Proof.
  intros Hf. destruct (is_pocketed c) eqn:Hp.
  - rewrite Coin_update_captured by exact Hp. split; lra.
  - destruct (Coin_update_damped c Hp) as [Hx Hy]; [lra|].
    pose proof (Rabs_pos (velocity_x c)). pose proof (Rabs_pos (velocity_y c)).
    split; nra.
Qed.

Lemma Coin_update_never_speeds_up_witness :
  Rabs (velocity_x (Coin_update (coin_at 690 400 30 (-40))))
    <= Rabs (velocity_x (coin_at 690 400 30 (-40)))
  /\ Rabs (velocity_y (Coin_update (coin_at 690 400 30 (-40))))
    <= Rabs (velocity_y (coin_at 690 400 30 (-40))).
Proof.
  apply Coin_update_never_speeds_up.
  unfold coin_at. cbn [friction]. lra.
Defined.

Lemma Coin_update_friction (c : Coin) : friction (Coin_update c) = friction c.
Proof.
  unfold Coin_update. destruct (is_pocketed c); [reflexivity|].
  split_ifs; reflexivity.
Qed.

Lemma updates_keep (n : nat) (c : Coin) :
  is_pocketed (updates n c) = is_pocketed c /\ friction (updates n c) = friction c.
Proof.
  induction n as [|n [IHp IHf]]; [split; reflexivity|].
  change (updates (S n) c) with (Coin_update (updates n c)).
  rewrite Coin_update_pocketed, Coin_update_friction. auto.
Qed.

Lemma updates_speed (n : nat) (c : Coin) :
  is_pocketed c = false ->
  0 <= friction c ->
  Rabs (velocity_x (updates n c)) <= friction c ^ n * Rabs (velocity_x c)
  /\ Rabs (velocity_y (updates n c)) <= friction c ^ n * Rabs (velocity_y c).
Proof.
  intros Hp Hf. induction n as [|n [IHx IHy]].
  - cbn [updates Nat.iter nat_rect pow]. split; lra.
  - change (updates (S n) c) with (Coin_update (updates n c)).
    destruct (updates_keep n c) as [Kp Kf].
    destruct (Coin_update_damped (updates n c)) as [Hx Hy];
      [congruence | rewrite Kf; exact Hf |].
    rewrite Kf in Hx, Hy. cbn [pow].
    split; [apply Rle_trans with (1 := Hx) | apply Rle_trans with (1 := Hy)]; nra.
Qed.

(** X2.  A disc on the board that nothing else touches comes to rest: for a
    friction factor in [0, 1) there is a number of updates after which both
    velocity components are 0, and they stay 0 for every later update.  The
    damping brings both components under the threshold 0.1, and the update
    that sees them there sets them to zero. *)
Theorem disc_comes_to_rest (c : Coin) :
  is_pocketed c = false ->
  0 <= friction c < 1 ->
  exists n, forall m, (n <= m)%nat ->
    velocity_x (updates m c) = 0 /\ velocity_y (updates m c) = 0.
Proof.
  intros Hp Hf.
  set (D := Rabs (velocity_x c) + Rabs (velocity_y c) + 1).
  pose proof (Rabs_pos (velocity_x c)) as Px. pose proof (Rabs_pos (velocity_y c)) as Py.
  assert (HD : 0 < D) by (unfold D; lra).
  destruct (pow_lt_1_zero (friction c)) with (y := 0.1 / D) as [N HN].
  { rewrite Rabs_pos_eq; lra. }
  { apply Rdiv_lt_0_compat; lra. }
  exists (S N). intros [|m] Hm; [lia|].
  change (updates (S m) c) with (Coin_update (updates m c)).
  destruct (updates_keep m c) as [Kp Kf].
  destruct (updates_speed m c Hp) as [Sx Sy]; [lra|].
  assert (Hpow : 0 <= friction c ^ m) by (apply pow_le; lra).
  assert (Hsmall : friction c ^ m * D < 0.1).
  { specialize (HN m). rewrite Rabs_pos_eq in HN by exact Hpow.
    apply (Rmult_lt_compat_r D) in HN; [|exact HD|lia].
    replace (0.1 / D * D) with 0.1 in HN by (field; lra). exact HN. }
  destruct (Coin_update_velocity (updates m c)) as (p & q & v & w & -> & -> & _ & Hzero);
    [congruence|].
  destruct Hzero as [-> ->].
  - rewrite Rabs_mult, Kf, (Rabs_pos_eq (friction c)) by lra.
    pose proof (Rabs_pos (velocity_x (updates m c))). unfold D in Hsmall. nra.
  - rewrite Rabs_mult, Kf, (Rabs_pos_eq (friction c)) by lra.
    pose proof (Rabs_pos (velocity_y (updates m c))). unfold D in Hsmall. nra.
  - unfold wall. split; split_ifs; cbn [snd]; lra.
Qed.

Lemma disc_comes_to_rest_witness :
  exists n, forall m, (n <= m)%nat ->
    velocity_x (updates m (coin_at 400 400 12 (-7))) = 0
    /\ velocity_y (updates m (coin_at 400 400 12 (-7))) = 0.
Proof.
  apply disc_comes_to_rest.
  - reflexivity.
  - unfold coin_at. cbn [friction]. lra.
Defined.

(** ** A contact between two discs *)

(** What [check_collision] computes on the path that ends in [return True],
    with the divisions written as products: [d] is the distance of the
    centres, [(nx, ny)] the unit normal from [self] to [other], [s] the
    relative velocity along the normal and [J] the impulse. *)
Lemma resolve_collision_contact (a b : Coin) (h : Contact) :
  resolve_collision a b = Ok (Some h) ->
  exists d nx ny s J,
    0 < d < radius a + radius b
    /\ nx * d = x b - x a /\ ny * d = y b - y a
    /\ nx * nx + ny * ny = 1
    /\ s = (velocity_x b - velocity_x a) * nx + (velocity_y b - velocity_y a) * ny
    /\ 0 <= s
    /\ J * (radius a + radius b) = 2 * s
    /\ hit_self h
       = mkCoin (x a - (radius a + radius b - d) / 2 * nx)
                (y a - (radius a + radius b - d) / 2 * ny) (color a) (radius a)
                (velocity_x a + J * nx * radius b) (velocity_y a + J * ny * radius b)
                (is_queen a) false (friction a) (rotation a)
    /\ hit_other h
       = mkCoin (x b + (radius a + radius b - d) / 2 * nx)
                (y b + (radius a + radius b - d) / 2 * ny) (color b) (radius b)
                (velocity_x b - J * nx * radius a) (velocity_y b - J * ny * radius a)
                (is_queen b) false (friction b) (rotation b)
    /\ hit_nx h = nx /\ hit_ny h = ny /\ impact_speed h = s.
Proof.
  unfold resolve_collision.
  destruct (is_pocketed a) eqn:Ea; [discriminate|].
  destruct (is_pocketed b) eqn:Eb; [discriminate|]. cbn [orb].
  set (dx := x b - x a). set (dy := y b - y a).
  set (d := sqrt (dx * dx + dy * dy)).
  assert (Hsq : 0 <= dx * dx + dy * dy) by nra.
  pose proof (sqrt_pos (dx * dx + dy * dy)) as Hd0. fold d in Hd0.
  pose proof (sqrt_sqrt _ Hsq) as Hdd. fold d in Hdd.
  destruct (Rltb d (radius a + radius b)) eqn:Hlt; [|discriminate].
  apply Rltb_true in Hlt.
  unfold py_div. destruct (Req_dec_T d 0) as [Hz|Hnz]; [discriminate|]. cbn [bind].
  set (s := (velocity_x b - velocity_x a) * (dx / d)
            + (velocity_y b - velocity_y a) * (dy / d)).
  destruct (Rltb s 0) eqn:Hs; [discriminate|]. apply Rltb_false in Hs.
  destruct (Req_dec_T (radius a + radius b) 0) as [Hr|Hr]; [discriminate|]. cbn [bind].
  intros E. apply Ok_inv in E. injection E as <-.
  exists d, (dx / d), (dy / d), s, (2 * s / (radius a + radius b)).
  cbn [hit_self hit_other hit_nx hit_ny impact_speed].
  repeat split; try reflexivity; try lra; try (field; assumption).
  replace (dx / d * (dx / d) + dy / d * (dy / d)) with ((dx * dx + dy * dy) / (d * d))
    by (field; assumption).
  rewrite <- Hdd. field. assumption.
Qed.



Lemma Coin_check_collision_hit (a b a' b' : Coin) :
  Coin_check_collision a b = Ok (a', b', true) ->
  exists h, resolve_collision a b = Ok (Some h) /\ a' = hit_self h /\ b' = hit_other h.
Proof.
  unfold Coin_check_collision.
  destruct (resolve_collision a b) as [[h|]|e]; cbn [bind]; try discriminate.
  intros E. apply Ok_inv in E. exists h. split; [reflexivity|].
  split; [exact (eq_sym (f_equal (fun r => fst (fst r)) E))
         | exact (eq_sym (f_equal (fun r => snd (fst r)) E))].
Qed.

Lemma Coin_check_collision_miss (a b a' b' : Coin) :
  Coin_check_collision a b = Ok (a', b', false) -> a' = a /\ b' = b.
Proof.
  unfold Coin_check_collision.
  destruct (resolve_collision a b) as [[h|]|e]; cbn [bind]; try discriminate.
  intros E. apply Ok_inv in E.
  split; [exact (eq_sym (f_equal (fun r => fst (fst r)) E))
         | exact (eq_sym (f_equal (fun r => snd (fst r)) E))].
Qed.

(** The sample contact. *)
Lemma sample_contact :
  Coin_check_collision contact_left contact_right
  = Ok (contact_left_after, contact_right_after, true).
Proof.
  unfold Coin_check_collision, resolve_collision, contact_left, contact_right, coin_at.
  cbn [is_pocketed orb x y radius velocity_x velocity_y color is_queen friction rotation].
  change (IZR COIN_RADIUS) with 15.
  replace ((420 - 400) * (420 - 400) + (400 - 400) * (400 - 400)) with (20 * 20) by ring.
  rewrite sqrt_square by lra.
  replace (Rltb 20 (15 + 15)) with true by (symmetry; apply Rltb_true; lra).
  unfold py_div.
  destruct (Req_dec_T 20 0) as [H|_]; [lra|]. cbn [bind].
  replace (Rltb _ 0) with false by (symmetry; apply Rltb_false; lra).
  destruct (Req_dec_T (15 + 15) 0) as [H|_]; [lra|]. cbn [bind hit_self hit_other].
  unfold contact_left_after, contact_right_after, coin_at.
  change (IZR COIN_RADIUS) with 15.
  f_equal. f_equal. f_equal; f_equal; lra.
Qed.

(** X4.  [check_collision] conserves the momentum of the pair when the
    radius of a disc is read as its mass: the impulse added to [self] is
    scaled by the radius of [other] and the impulse taken from [other] by the
    radius of [self].  The radii are not changed. *)
Theorem contact_conserves_momentum (a b a' b' : Coin) (hit : bool) :
  Coin_check_collision a b = Ok (a', b', hit) ->
  radius a' = radius a /\ radius b' = radius b
  /\ radius a * velocity_x a' + radius b * velocity_x b'
     = radius a * velocity_x a + radius b * velocity_x b
  /\ radius a * velocity_y a' + radius b * velocity_y b'
     = radius a * velocity_y a + radius b * velocity_y b.
Proof.
  intros E. destruct hit.
  - apply Coin_check_collision_hit in E. destruct E as (h & Er & -> & ->).
    apply resolve_collision_contact in Er.
    destruct Er as (d & nx & ny & s & J & _ & _ & _ & _ & _ & _ & _ & -> & -> & _).
    cbn [radius velocity_x velocity_y]. repeat split; ring.
  - apply Coin_check_collision_miss in E. destruct E as [-> ->]. repeat split.
Qed.

Lemma contact_conserves_momentum_witness :
  radius contact_left * velocity_x contact_left_after
  + radius contact_right * velocity_x contact_right_after
  = radius contact_left * velocity_x contact_left
    + radius contact_right * velocity_x contact_right.
Proof.
  apply (contact_conserves_momentum contact_left contact_right
           contact_left_after contact_right_after true sample_contact).
Defined.

(** X5.  [check_collision] is an elastic collision: with the radius as the
    mass, the kinetic energy of the pair (the sum of radius times squared
    speed) is the same before and after. *)
Theorem contact_conserves_energy (a b a' b' : Coin) (hit : bool) :
  Coin_check_collision a b = Ok (a', b', hit) ->
  radius a * (velocity_x a' * velocity_x a' + velocity_y a' * velocity_y a')
  + radius b * (velocity_x b' * velocity_x b' + velocity_y b' * velocity_y b')
  = radius a * (velocity_x a * velocity_x a + velocity_y a * velocity_y a)
    + radius b * (velocity_x b * velocity_x b + velocity_y b * velocity_y b).
Proof.
  intros E. destruct hit.
  - apply Coin_check_collision_hit in E. destruct E as (h & Er & -> & ->).
    apply resolve_collision_contact in Er.
    destruct Er as (d & nx & ny & s & J & _ & _ & _ & Hn & Hs & _ & HJ & -> & -> & _).
    cbn [radius velocity_x velocity_y].
    apply Rminus_diag_uniq.
    match goal with |- ?lhs - ?rhs = 0 =>
      replace (lhs - rhs)
        with (radius a * radius b * J
              * (J * (radius a + radius b) * (nx * nx + ny * ny)
                 - 2 * ((velocity_x b - velocity_x a) * nx
                        + (velocity_y b - velocity_y a) * ny)))
        by ring
    end.
    rewrite HJ, Hn, <- Hs. ring.
  - apply Coin_check_collision_miss in E. destruct E as [-> ->]. reflexivity.
Qed.

Lemma contact_conserves_energy_witness :
  radius contact_left
  * (velocity_x contact_left_after * velocity_x contact_left_after
     + velocity_y contact_left_after * velocity_y contact_left_after)
  + radius contact_right
    * (velocity_x contact_right_after * velocity_x contact_right_after
       + velocity_y contact_right_after * velocity_y contact_right_after)
  = radius contact_left
    * (velocity_x contact_left * velocity_x contact_left
       + velocity_y contact_left * velocity_y contact_left)
    + radius contact_right
      * (velocity_x contact_right * velocity_x contact_right
         + velocity_y contact_right * velocity_y contact_right).
Proof.
  apply (contact_conserves_energy contact_left contact_right
           contact_left_after contact_right_after true sample_contact).
Defined.

(** X6.  When [check_collision] returns [True] the two discs end exactly in
    touch: the distance of their centres is the sum of the radii.  Before
    the call the centres were not closing in (the relative velocity along the
    line from [self] to [other] was not negative), and the call reverses
    that component of the relative velocity. *)
Theorem contact_leaves_discs_in_touch (a b a' b' : Coin) :
  Coin_check_collision a b = Ok (a', b', true) ->
  sqrt ((x b' - x a') * (x b' - x a') + (y b' - y a') * (y b' - y a'))
  = radius a + radius b
  /\ 0 <= (velocity_x b - velocity_x a) * (x b - x a)
          + (velocity_y b - velocity_y a) * (y b - y a)
  /\ (velocity_x b' - velocity_x a') * (x b - x a)
     + (velocity_y b' - velocity_y a') * (y b - y a)
     = - ((velocity_x b - velocity_x a) * (x b - x a)
          + (velocity_y b - velocity_y a) * (y b - y a)).
Proof.
  intros E. apply Coin_check_collision_hit in E. destruct E as (h & Er & -> & ->).
  apply resolve_collision_contact in Er.
  destruct Er as (d & nx & ny & s & J & Hd & Hx & Hy & Hn & Hs & Hs0 & HJ & -> & -> & _).
  cbn [x y velocity_x velocity_y].
  assert (Hbx : x b = x a + nx * d) by lra.
  assert (Hby : y b = y a + ny * d) by lra.
  rewrite Hbx, Hby.
  split; [|split].
  - set (R := radius a + radius b) in *.
    replace (x a + nx * d + (R - d) / 2 * nx - (x a - (R - d) / 2 * nx)) with (R * nx)
      by field.
    replace (y a + ny * d + (R - d) / 2 * ny - (y a - (R - d) / 2 * ny)) with (R * ny)
      by field.
    replace (R * nx * (R * nx) + R * ny * (R * ny)) with (R * R * (nx * nx + ny * ny))
      by ring.
    rewrite Hn, Rmult_1_r. apply sqrt_square. lra.
  - replace ((velocity_x b - velocity_x a) * (x a + nx * d - x a)
             + (velocity_y b - velocity_y a) * (y a + ny * d - y a)) with (s * d)
      by (rewrite Hs; ring).
    nra.
  - apply Rminus_diag_uniq.
    match goal with |- ?lhs - ?rhs = 0 =>
      replace (lhs - rhs)
        with (d * (2 * ((velocity_x b - velocity_x a) * nx
                        + (velocity_y b - velocity_y a) * ny)
                   - J * (radius a + radius b) * (nx * nx + ny * ny)))
        by ring
    end.
    rewrite HJ, Hn, <- Hs. ring.
Qed.

Lemma contact_leaves_discs_in_touch_witness :
  sqrt ((x contact_right_after - x contact_left_after)
        * (x contact_right_after - x contact_left_after)
        + (y contact_right_after - y contact_left_after)
          * (y contact_right_after - y contact_left_after))
  = radius contact_left + radius contact_right.
Proof.
  apply (contact_leaves_discs_in_touch contact_left contact_right
           contact_left_after contact_right_after sample_contact).
Defined.

Lemma resolve_collision_closing (a b : Coin) :
  (velocity_x b - velocity_x a) * (x b - x a)
  + (velocity_y b - velocity_y a) * (y b - y a) < 0 ->
  resolve_collision a b = Ok None.
Proof.
  intros Hc. unfold resolve_collision.
  destruct (is_pocketed a || is_pocketed b); [reflexivity|].
  set (dx := x b - x a) in *. set (dy := y b - y a) in *.
  set (d := sqrt (dx * dx + dy * dy)).
  assert (Hsq : 0 <= dx * dx + dy * dy) by nra.
  pose proof (sqrt_pos (dx * dx + dy * dy)) as Hd0. fold d in Hd0.
  destruct (Rltb d (radius a + radius b)); [|reflexivity].
  unfold py_div. destruct (Req_dec_T d 0) as [Hz|Hnz].
  - exfalso. apply sqrt_eq_0 in Hz; [|exact Hsq].
    assert (dx = 0) by nra. assert (dy = 0) by nra. nra.
  - cbn [bind].
    replace (Rltb _ 0) with true; [reflexivity|].
    symmetry. apply Rltb_true.
    replace ((velocity_x b - velocity_x a) * (dx / d)
             + (velocity_y b - velocity_y a) * (dy / d))
      with (((velocity_x b - velocity_x a) * dx + (velocity_y b - velocity_y a) * dy) * / d)
      by (field; assumption).
    assert (0 < / d) by (apply Rinv_0_lt_compat; lra). nra.
Qed.

(** X7.  Two discs whose centres are closing in are left alone by
    [check_collision], even when they overlap: the test
    [impact_speed < 0] returns before any velocity or position is written.
    The same holds with the striker as [self]; no particle is added and the
    generator is not read. *)
Theorem closing_discs_are_not_deflected (a b : Coin) :
  (velocity_x b - velocity_x a) * (x b - x a)
  + (velocity_y b - velocity_y a) * (y b - y a) < 0 ->
  Coin_check_collision a b = Ok (a, b, false)
  /\ (forall s r, base s = a -> Striker_check_collision s b r = Ok (s, b, false, r)).
Proof.
  intros Hc. pose proof (resolve_collision_closing a b Hc) as E. split.
  - unfold Coin_check_collision. rewrite E. reflexivity.
  - intros s r Hs. unfold Striker_check_collision. rewrite Hs, E. reflexivity.
Qed.

Lemma closing_discs_are_not_deflected_witness :
  Coin_check_collision (coin_at 400 400 5 0) (coin_at 420 400 0 0)
  = Ok (coin_at 400 400 5 0, coin_at 420 400 0 0, false).
Proof.
  apply closing_discs_are_not_deflected.
  unfold coin_at. cbn [x y velocity_x velocity_y]. lra.
Defined.

(** ** The pieces through a tick *)

Lemma same_kind_refl (c : Coin) : same_kind c c.
Proof. repeat split. Qed.

Lemma same_kind_trans (a b c : Coin) : same_kind a b -> same_kind b c -> same_kind a c.
Proof.
  unfold same_kind. intros (a1 & a2 & a3 & a4) (b1 & b2 & b3 & b4).
  repeat split; congruence.
Qed.

Lemma coin_kept_refl (c : Coin) : coin_kept c c.
Proof. split; [apply same_kind_refl | reflexivity]. Qed.

Lemma coin_kept_trans (a b c : Coin) : coin_kept a b -> coin_kept b c -> coin_kept a c.
Proof.
  intros [K1 O1] [K2 O2]. split; [eapply same_kind_trans; eauto|].
  intros Ho. specialize (O1 Ho). subst b. auto.
Qed.

Lemma coin_kept_on_board (c c' : Coin) :
  is_pocketed c = false -> same_kind c c' -> coin_kept c c'.
Proof.
  intros Hp Hk. split; [exact Hk|]. unfold out_of_play. rewrite Hp. discriminate.
Qed.

Lemma striker_kept_refl (s : Striker) : striker_kept s s.
Proof. split; [apply same_kind_refl | split; auto]. Qed.

Lemma striker_kept_trans (a b c : Striker) :
  striker_kept a b -> striker_kept b c -> striker_kept a c.
Proof.
  intros (K1 & P1 & W1) (K2 & P2 & W2).
  split; [eapply same_kind_trans; eauto | split; auto].
Qed.

Lemma coins_kept_refl (cs : list Coin) : Forall2 coin_kept cs cs.
Proof. induction cs; constructor; auto using coin_kept_refl. Qed.

Lemma coins_kept_trans (l1 l2 l3 : list Coin) :
  Forall2 coin_kept l1 l2 -> Forall2 coin_kept l2 l3 -> Forall2 coin_kept l1 l3.
Proof.
  intros H. revert l3. induction H as [|a b l1 l2 Hab H IH]; intros l3 H3.
  - inversion H3. constructor.
  - inversion H3 as [|b' c l2' l3' Hbc H3']. subst.
    constructor; [eapply coin_kept_trans; eauto | auto].
Qed.

Lemma pieces_kept_refl (g : CarromGame) : pieces_kept g g.
Proof. split; [apply coins_kept_refl | split; [apply striker_kept_refl | reflexivity]]. Qed.

Lemma pieces_kept_same (g g' : CarromGame) :
  coins g' = coins g -> striker g' = striker g -> pockets g' = pockets g ->
  pieces_kept g g'.
Proof.
  intros Hc Hs Hp. unfold pieces_kept. rewrite Hc, Hs.
  split; [apply coins_kept_refl | split; [apply striker_kept_refl | exact Hp]].
Qed.

Lemma pieces_kept_trans (g1 g2 g3 : CarromGame) :
  pieces_kept g1 g2 -> pieces_kept g2 g3 -> pieces_kept g1 g3.
Proof.
  intros (C1 & S1 & P1) (C2 & S2 & P2).
  split; [eapply coins_kept_trans; eauto|].
  split; [eapply striker_kept_trans; eauto | congruence].
Qed.

Lemma list_set_kept (l : list Coin) (i : nat) (c c' : Coin) :
  nth_error l i = Some c -> coin_kept c c' -> Forall2 coin_kept l (list_set l i c').
Proof.
  revert i. induction l as [|h t IH]; intros [|i] Hn Hk; cbn in Hn; try discriminate.
  - injection Hn as ->. cbn [list_set]. constructor; [exact Hk | apply coins_kept_refl].
  - cbn [list_set]. constructor; [apply coin_kept_refl | eauto].
Qed.

Lemma nth_error_list_set_other {A : Type} (l : list A) (i j : nat) (a : A) :
  i <> j -> nth_error (list_set l i a) j = nth_error l j.
Proof.
  revert i j. induction l as [|h t IH]; intros [|i] [|j] Hne; cbn; auto; try lia.
Qed.

Lemma Coin_update_kept (c : Coin) : coin_kept c (Coin_update c).
Proof.
  destruct (is_pocketed c) eqn:Hp.
  - rewrite Coin_update_captured by exact Hp. apply coin_kept_refl.
  - apply coin_kept_on_board; [exact Hp|].
    unfold Coin_update. rewrite Hp. split_ifs; repeat split.
Qed.

Lemma map_Coin_update_kept (cs : list Coin) : Forall2 coin_kept cs (map Coin_update cs).
Proof. induction cs; cbn [map]; constructor; auto using Coin_update_kept. Qed.

Lemma resolve_collision_kept (a b : Coin) (h : Contact) :
  resolve_collision a b = Ok (Some h) ->
  coin_kept a (hit_self h) /\ coin_kept b (hit_other h)
  /\ is_pocketed (hit_self h) = false.
Proof.
  intros E.
  assert (Hab : is_pocketed a = false /\ is_pocketed b = false).
  { revert E. unfold resolve_collision.
    destruct (is_pocketed a); [discriminate|]. destruct (is_pocketed b); [discriminate|].
    auto. }
  destruct Hab as [Ha Hb].
  apply resolve_collision_contact in E.
  destruct E as (d & nx & ny & s & J & _ & _ & _ & _ & _ & _ & _ & -> & -> & _).
  repeat split; try (apply coin_kept_on_board; [assumption | repeat split]).
  all: unfold out_of_play; rewrite ?Ha, ?Hb; discriminate.
Qed.

Lemma Coin_check_collision_kept (a b a' b' : Coin) (hit : bool) :
  Coin_check_collision a b = Ok (a', b', hit) -> coin_kept a a' /\ coin_kept b b'.
Proof.
  intros E. destruct hit.
  - apply Coin_check_collision_hit in E. destruct E as (h & Er & -> & ->).
    apply resolve_collision_kept in Er. tauto.
  - apply Coin_check_collision_miss in E. destruct E as [-> ->].
    split; apply coin_kept_refl.
Qed.

Lemma Striker_check_collision_kept (s s' : Striker) (c c' : Coin) (r r' : RNG) (b : bool) :
  Striker_check_collision s c r = Ok (s', c', b, r') ->
  striker_kept s s' /\ coin_kept c c'.
Proof.
  unfold Striker_check_collision.
  destruct (resolve_collision (base s) c) as [[h|]|e] eqn:Er; cbn [bind]; try discriminate.
  - apply resolve_collision_kept in Er. destruct Er as ((Ks & _) & Kc & Hp).
    destruct (Rltb 0.5 (impact_speed h)).
    + destruct (collision_particles _ _ _ _ _ _ _ _ _).
      intros E. inversion E. subst. split; [|exact Kc].
      split; [exact Ks | split; auto].
    + intros E. inversion E. subst. split; [|exact Kc].
      split; [exact Ks | split; auto].
  - intros E. inversion E. subst. split; [apply striker_kept_refl | apply coin_kept_refl].
Qed.

Lemma collide_striker_kept (i : nat) (g g' : CarromGame) :
  collide_striker i g = Ok g' -> pieces_kept g g'.
Proof.
  unfold collide_striker.
  destruct (nth_error (coins g) i) as [c|] eqn:En;
    [|intros E; inversion E; apply pieces_kept_refl].
  destruct (negb (is_pocketed c)); [|intros E; inversion E; apply pieces_kept_refl].
  destruct (Striker_check_collision (striker g) c (rng g)) as [[[[s c'] b] r]|e] eqn:E;
    cbn [bind]; [|discriminate].
  intros E'. inversion E'. subst g'.
  apply Striker_check_collision_kept in E. destruct E as [Ks Kc].
  split; [|split]; cbn [coins striker pockets set_rng set_coins set_striker].
  - eapply list_set_kept; eauto.
  - exact Ks.
  - reflexivity.
Qed.

Lemma collide_coins_kept (i j : nat) (g g' : CarromGame) :
  i <> j -> collide_coins i j g = Ok g' -> pieces_kept g g'.
Proof.
  intros Hne. unfold collide_coins.
  destruct (nth_error (coins g) i) as [a|] eqn:Ei;
    [|intros E; inversion E; apply pieces_kept_refl].
  destruct (nth_error (coins g) j) as [b|] eqn:Ej;
    [|intros E; inversion E; apply pieces_kept_refl].
  destruct (negb (is_pocketed a) && negb (is_pocketed b));
    [|intros E; inversion E; apply pieces_kept_refl].
  destruct (Coin_check_collision a b) as [[[a' b'] hit]|e] eqn:E; cbn [bind]; [|discriminate].
  intros E'. inversion E'. subst g'.
  apply Coin_check_collision_kept in E. destruct E as [Ka Kb].
  split; [|split]; cbn [coins striker pockets set_coins];
    [|apply striker_kept_refl | reflexivity].
  apply coins_kept_trans with (list_set (coins g) i a');
    [eapply list_set_kept; eauto|].
  eapply list_set_kept; [|exact Kb].
  rewrite nth_error_list_set_other by exact Hne. exact Ej.
Qed.

Lemma forM_invariant_in {S A : Type} (P : S -> Prop) (step : A -> S -> PyResult S)
    (l : list A) :
  (forall a s s', In a l -> P s -> step a s = Ok s' -> P s') ->
  forall s s', P s -> forM l step s = Ok s' -> P s'.
Proof.
  induction l as [|a l IH]; intros Hstep s s' Hs Hrun; cbn [forM] in Hrun.
  - inversion Hrun. subst. exact Hs.
  - destruct (step a s) as [s1|e] eqn:E; cbn [bind] in Hrun; [|discriminate].
    eapply IH; [|eapply Hstep; eauto; now left|exact Hrun].
    intros b t t' Hin. apply Hstep. now right.
Qed.

Lemma collision_phase_kept (g g' : CarromGame) :
  collision_phase g = Ok g' -> pieces_kept g g'.
Proof.
  unfold collision_phase.
  apply (forM_invariant (fun h => pieces_kept g h)); [|apply pieces_kept_refl].
  intros i s s' Hs Hstep.
  destruct (collide_striker i s) as [s1|e] eqn:E1; cbn [bind] in Hstep; [|discriminate].
  apply collide_striker_kept in E1.
  assert (H1 : pieces_kept g s1) by (eapply pieces_kept_trans; eauto).
  revert Hstep.
  apply (forM_invariant_in (fun h => pieces_kept g h)); [|exact H1].
  intros j t t' Hin Ht Hc. apply collide_coins_kept in Hc.
  - eapply pieces_kept_trans; eauto.
  - apply in_seq in Hin. lia.
Qed.

Lemma Coin_check_pocket_kept (c : Coin) (ps : list (Z * Z)) :
  coin_kept c (fst (Coin_check_pocket c ps)).
Proof.
  unfold Coin_check_pocket. destruct (is_pocketed c) eqn:Hp; [apply coin_kept_refl|].
  destruct (in_some_pocket c ps); [|apply coin_kept_refl].
  apply coin_kept_on_board; [exact Hp | repeat split].
Qed.

Lemma return_queen_kept (cs cs' : list Coin) :
  return_queen cs = Some cs' -> Forall2 coin_kept cs cs'.
Proof.
  revert cs'. induction cs as [|c cs IH]; intros cs'; cbn [return_queen]; [discriminate|].
  destruct (is_queen c) eqn:Eq.
  - intros E. injection E as <-. constructor; [|apply coins_kept_refl].
    split; [repeat split; cbn [is_queen]; congruence|].
    unfold out_of_play. rewrite Eq. cbn [negb]. rewrite andb_false_r. discriminate.
  - destruct (return_queen cs) as [l|]; [|discriminate]. cbn [option_map].
    intros E. injection E as <-. constructor; [apply coin_kept_refl | auto].
Qed.

Lemma Striker_reset_position_kept (s : Striker) (player : Z) :
  striker_kept s (Striker_reset_position s player).
Proof.
  split; [repeat split|]. split; [reflexivity|].
  intros _. cbn [Striker_reset_position power]. unfold max_power. lra.
Qed.

Lemma handle_foul_kept (m : string) (g : CarromGame) : pieces_kept g (handle_foul m g).
Proof.
  unfold handle_foul.
  destruct (last_pocketed_queen g && negb (queen_covered g)).
  - destruct (return_queen (coins g)) as [cs|] eqn:Er.
    + split; [exact (return_queen_kept _ _ Er)|].
      split; [apply Striker_reset_position_kept | reflexivity].
    + split; [apply coins_kept_refl|].
      split; [apply Striker_reset_position_kept | reflexivity].
  - split; [apply coins_kept_refl|].
    split; [apply Striker_reset_position_kept | reflexivity].
Qed.

Lemma handle_pocketed_coin_kept (c : Coin) (g : CarromGame) :
  pieces_kept g (handle_pocketed_coin c g).
Proof.
  unfold handle_pocketed_coin.
  destruct (is_queen c); [apply pieces_kept_same; reflexivity|].
  destruct (color_eqb (color c) WHITE && (current_player g =? 1)%Z).
  { destruct (last_pocketed_queen g); apply pieces_kept_same; reflexivity. }
  destruct (color_eqb (color c) BLACK && (current_player g =? 2)%Z).
  { destruct (last_pocketed_queen g); apply pieces_kept_same; reflexivity. }
  apply handle_foul_kept.
Qed.

Lemma check_turn_end_kept (g : CarromGame) : pieces_kept g (check_turn_end g).
Proof.
  unfold check_turn_end.
  destruct (3 <=? foul_count g)%Z.
  { eapply pieces_kept_trans; [apply handle_foul_kept | apply pieces_kept_same; reflexivity]. }
  destruct (0 <? foul_count g)%Z; [|apply pieces_kept_refl].
  split; [apply coins_kept_refl|].
  split; [apply Striker_reset_position_kept | reflexivity].
Qed.

Lemma check_game_over_kept (g : CarromGame) : pieces_kept g (check_game_over g).
Proof.
  unfold check_game_over. destruct (count_coins (coins g)) as [w b].
  destruct (w =? 0)%Z; [apply pieces_kept_same; reflexivity|].
  destruct (b =? 0)%Z; apply pieces_kept_same; reflexivity.
Qed.

Lemma settle_kept (g : CarromGame) : pieces_kept g (settle g).
Proof.
  unfold settle.
  eapply pieces_kept_trans; [|apply check_game_over_kept].
  match goal with |- context [if ?b then _ else _] => destruct b end.
  - eapply pieces_kept_trans; [|apply check_turn_end_kept].
    split; [apply coins_kept_refl|]. split; [|reflexivity].
    split; [apply same_kind_refl | split; auto].
  - apply pieces_kept_same; reflexivity.
Qed.

Lemma pocket_step_kept (st : CarromGame * list Capture) (i : nat) :
  pieces_kept (fst st) (fst (pocket_step st i)).
Proof.
  destruct st as [g log]. unfold pocket_step. cbn [fst].
  destruct (nth_error (coins g) i) as [c|] eqn:En; [|apply pieces_kept_refl].
  pose proof (Coin_check_pocket_kept c (pockets g)) as Hk.
  destruct (Coin_check_pocket c (pockets g)) as [c' [|]]; [|apply pieces_kept_refl].
  cbn [fst] in *.
  eapply pieces_kept_trans; [|apply handle_pocketed_coin_kept].
  split; [|split; [apply striker_kept_refl | reflexivity]].
  cbn [coins set_coins]. eapply list_set_kept; eauto.
Qed.

Lemma pocket_phase_kept (g : CarromGame) : pieces_kept g (fst (pocket_phase g)).
Proof.
  unfold pocket_phase. generalize (seq 0 (List.length (coins g))).
  generalize (@nil Capture). intros log l.
  change g with (fst (g, log)) at 1. generalize (g, log). clear g log.
  induction l as [|i l IH]; intros st; cbn [fold_left]; [apply pieces_kept_refl|].
  eapply pieces_kept_trans; [apply (pocket_step_kept st i) | apply IH].
Qed.

Lemma Striker_update_kept (s : Striker) : striker_kept s (Striker_update s).
Proof.
  destruct (Coin_update_kept (base s)) as [Hk _].
  split; [exact Hk|]. split; [|auto].
  cbn [Striker_update base]. rewrite Coin_update_pocketed. auto.
Qed.

Lemma update_log_kept (g g' : CarromGame) (log : list Capture) :
  update_log g = Ok (g', log) -> pieces_kept g g'.
Proof.
  unfold update_log.
  destruct (negb (GameState_eqb (game_state g) PLAYING)).
  { intros E. inversion E. apply pieces_kept_refl. }
  set (g1 := set_striker g (Striker_update (striker g))).
  assert (H1 : pieces_kept g g1).
  { split; [apply coins_kept_refl|]. split; [apply Striker_update_kept | reflexivity]. }
  unfold update_after_striker.
  pose proof (Coin_check_pocket_kept (base (striker g1)) (pockets g1)) as [Hk _].
  destruct (Coin_check_pocket (base (striker g1)) (pockets g1)) as [c [|]] eqn:Ec;
    cbn [fst] in Hk.
  - intros E. inversion E. subst. unfold striker_pocketed.
    eapply pieces_kept_trans; [exact H1|].
    set (h := set_striker g1 (set_base (striker g1) c)).
    destruct (handle_foul_kept "Striker pocketed!" h) as (Hc & _ & Hp).
    split; [exact Hc | split; [|exact Hp]].
    cbn [striker set_striker]. rewrite handle_foul_striker.
    destruct Hk as (k1 & k2 & k3 & k4).
    split; [repeat split; assumption | split; [reflexivity|]].
    intros _. cbn [set_is_shooting Striker_reset_position power]. unfold max_power. lra.
  - assert (Hc : c = base (striker g1)).
    { revert Ec. unfold Coin_check_pocket. split_ifs; intros E; inversion E; reflexivity. }
    subst c.
    match goal with |- context [collision_phase ?h] =>
      assert (H2 : pieces_kept g1 h);
      [|destruct (collision_phase h) as [g2|e] eqn:Ecol]
    end; cbn [bind]; try discriminate.
    { split; [apply map_Coin_update_kept|]. split; [|reflexivity].
      cbn [striker set_coins set_striker set_base]. apply striker_kept_refl. }
    apply collision_phase_kept in Ecol.
    pose proof (pocket_phase_kept g2) as H3.
    destruct (pocket_phase g2) as [g3 log3]. cbn [fst] in H3.
    intros E. inversion E. subst.
    eapply pieces_kept_trans; [exact H1|].
    eapply pieces_kept_trans; [exact H2|].
    eapply pieces_kept_trans; [exact Ecol|].
    eapply pieces_kept_trans; [exact H3|]. apply settle_kept.
Qed.

(** ** A tick with a capture *)

Lemma corner_coin_captured :
  Coin_check_pocket (disc 115 115 WHITE false false) create_pockets
  = (disc 115 115 WHITE false true, true).
Proof.
  unfold Coin_check_pocket, create_pockets, in_some_pocket, disc.
  cbn [is_pocketed x y fst snd].
  change (IZR board_margin) with 100.
  replace (Rltb (sqrt ((100 - 115) * (100 - 115) + (100 - 115) * (100 - 115)))
                (IZR (POCKET_RADIUS - 5))) with true; [reflexivity|].
  symmetry. apply Rltb_true. change (IZR (POCKET_RADIUS - 5)) with 25.
  rewrite <- (sqrt_square 25) by lra. apply sqrt_lt_1_alt. lra.
Qed.

Lemma corner_tick : update_log corner_game = Ok (corner_game_after, [CoinCaptured 1]).
Proof.
  unfold update_log.
  replace (game_state corner_game) with PLAYING by reflexivity.
  cbn [GameState_eqb negb].
  unfold Striker_update, corner_game, game_with. run_fields.
  unfold striker_at. run_fields.
  rewrite Coin_update_stops by side. real_fields. rewrite Reqb_refl. cbn [andb].
  unfold update_after_striker. run_fields.
  rewrite Coin_check_pocket_clear by side. run_fields. cbn [map].
  rewrite (Coin_update_stops (disc 400 400 RED true false)) by side.
  rewrite (Coin_update_stops (disc 115 115 WHITE false false)) by side.
  rewrite (Coin_update_stops (disc 300 400 WHITE false false)) by side.
  rewrite (Coin_update_stops (disc 500 400 BLACK false false)) by side.
  unfold collision_phase. quiet_tick.
  unfold pocket_phase. quiet_tick.
  match goal with
  | |- context [Coin_check_pocket ?c create_pockets] =>
      change (Coin_check_pocket c create_pockets)
        with (Coin_check_pocket (disc 115 115 WHITE false false) create_pockets)
  end.
  rewrite corner_coin_captured.
  cbv iota.
  match goal with
  | |- context [handle_pocketed_coin ?c ?h] =>
      replace (handle_pocketed_coin c h) with corner_game_after by reflexivity
  end.
  unfold corner_game_after. quiet_tick.
  unfold settle, pieces_still, coin_moving. quiet_tick.
  reflexivity.
Qed.

(** ** The pieces through events and runs *)

Lemma Striker_position_kept (s : Striker) (px : R) : striker_kept s (Striker_position s px).
Proof. split; [repeat split | split; auto]. Qed.

Lemma Striker_aim_kept (s : Striker) (mx my : R) : striker_kept s (Striker_aim s mx my).
Proof. split; [repeat split | split; auto]. Qed.

Lemma Striker_set_power_range (s : Striker) (pct : R) :
  0 <= pct -> 0 <= power (Striker_set_power s pct) <= max_power.
Proof.
  intros Hp. cbn [Striker_set_power power]. unfold max_power. split.
  - apply Rmin_glb; lra.
  - apply Rmin_r.
Qed.

Lemma Striker_shoot_kept (s : Striker) (r : RNG) : striker_kept s (fst (Striker_shoot s r)).
Proof.
  unfold Striker_shoot. destruct (shoot_particles _ _ _ _) as [ps r'].
  split; [repeat split | split; auto].
Qed.

Lemma release_kept (g : CarromGame) : pieces_kept g (release g).
Proof.
  unfold release. destruct (Rltb 0 (power (striker g))); [|apply pieces_kept_refl].
  pose proof (Striker_shoot_kept (striker g) (rng g)) as Hs.
  destruct (Striker_shoot (striker g) (rng g)) as [s r]. cbn [fst] in Hs.
  split; [apply coins_kept_refl | split; [exact Hs | reflexivity]].
Qed.

Lemma set_striker_kept (g : CarromGame) (s : Striker) :
  striker_kept (striker g) s -> pieces_kept g (set_striker g s).
Proof. intros Hs. split; [apply coins_kept_refl | split; [exact Hs | reflexivity]]. Qed.

Lemma handle_mouse_kept (ev : Event) (g : CarromGame) : pieces_kept g (handle_mouse ev g).
Proof.
  unfold handle_mouse. destruct ev as [k|b p|b p|p held].
  - apply pieces_kept_refl.
  - destruct (b =? 1)%Z.
    + destruct (negb (is_positioned (striker g))); [|apply pieces_kept_refl].
      apply set_striker_kept.
      apply (Striker_position_kept (set_is_positioned (striker g) true)).
    + destruct ((b =? 3)%Z && is_positioned (striker g)); [|apply pieces_kept_refl].
      apply set_striker_kept. split; [apply same_kind_refl | split; auto].
  - destruct ((b =? 1)%Z && is_aiming (striker g));
      [apply release_kept | apply pieces_kept_refl].
  - destruct (is_positioned (striker g) && negb (is_aiming (striker g))).
    { apply set_striker_kept, Striker_position_kept. }
    destruct (is_aiming (striker g)); [|apply pieces_kept_refl].
    destruct held; apply set_striker_kept; [|apply Striker_aim_kept].
    split; [repeat split | split; [auto|]]. intros _.
    apply Striker_set_power_range. apply Rmin_glb; [apply sqrt_pos | lra].
Qed.

Lemma set_game_state_kept (g : CarromGame) (st : GameState) :
  pieces_kept g (set_game_state g st).
Proof. apply pieces_kept_same; reflexivity. Qed.

Lemma handle_event_kept (ev : Event) (g : CarromGame) :
  ev <> KEYDOWN K_r -> pieces_kept g (handle_event ev g).
Proof.
  intros Hev. unfold handle_event. destruct (game_state g).
  - destruct ev as [[]| | |]; try apply pieces_kept_refl. apply set_game_state_kept.
  - destruct ev as [[]| | |]; try apply pieces_kept_refl. apply set_game_state_kept.
  - match goal with |- context [if ?b then _ else _] => destruct b end.
    + eapply pieces_kept_trans; [|apply handle_mouse_kept].
      destruct ev as [[]| | |]; try apply pieces_kept_refl. apply set_game_state_kept.
    + destruct ev as [[]| | |]; try apply pieces_kept_refl. apply set_game_state_kept.
  - destruct ev as [[]| | |]; try apply pieces_kept_refl; try apply set_game_state_kept.
    contradiction Hev. reflexivity.
  - destruct ev as [[]| | |]; try apply pieces_kept_refl; apply set_game_state_kept.
Qed.




Lemma run_one_tick (g g' : CarromGame) (log : list Capture) :
  update_log g = Ok (g', log) -> run [[]] g = Ok (g', log).
Proof.
  intros E. cbn [run]. unfold frame. cbn [fold_left]. rewrite E. cbn [bind fst snd].
  now rewrite app_nil_r.
Qed.





(** ** What the constructors establish *)

Lemma pieces_kept_constructed (g g' : CarromGame) :
  pieces_kept g g' -> as_constructed g -> as_constructed g'.
Proof.
  intros (Hc & ((k1 & k2 & k3 & k4) & Hp & _) & Hpk) (a1 & a2 & a3 & a4 & a5 & a6 & a7).
  unfold as_constructed. repeat split; try congruence; auto.
  clear - Hc a7. induction Hc as [|c c' l l' Hk Hc IH]; [constructor|].
  inversion a7 as [|? ? [Hr Hf] Hrest]. subst.
  constructor; [|auto].
  destruct Hk as ((c1 & c2 & c3 & c4) & _). rewrite c2, c3, c4. auto.
Qed.

Lemma reset_game_constructed (g : CarromGame) : as_constructed (reset_game g).
Proof.
  unfold as_constructed. repeat split; try reflexivity.
  unfold reset_game, Striker_init, setup_coins, coin_ring, Coin_init, random_uniform,
    random_random.
  cbn [coins].
  repeat (constructor; [split; reflexivity|]). constructor.
Qed.

Lemma handle_event_constructed (ev : Event) (g : CarromGame) :
  as_constructed g -> as_constructed (handle_event ev g).
Proof.
  intros H.
  assert (Hd : ev = KEYDOWN K_r \/ ev <> KEYDOWN K_r).
  { destruct ev as [[]| | |]; try (right; discriminate). left. reflexivity. }
  destruct Hd as [-> | Hne].
  - unfold handle_event. destruct (game_state g); try exact H.
    + match goal with |- context [if ?b then _ else _] => destruct b end; exact H.
    + apply (pieces_kept_constructed (reset_game g));
        [apply set_game_state_kept | apply reset_game_constructed].
  - eapply pieces_kept_constructed; [apply handle_event_kept, Hne | exact H].
Qed.

Lemma run_invariant (P : CarromGame -> Prop) :
  (forall ev g, P g -> P (handle_event ev g)) ->
  (forall g g' log, P g -> update_log g = Ok (g', log) -> P g') ->
  forall frames g g' log, P g -> run frames g = Ok (g', log) -> P g'.
Proof.
  intros Hev Htick frames.
  induction frames as [|events frames IH]; intros g g' log Hg; cbn [run].
  - intros E. inversion E. subst. exact Hg.
  - unfold frame.
    destruct (update_log _) as [[g1 log1]|e] eqn:E1; cbn [bind]; [|discriminate].
    cbn [fst snd].
    destruct (run frames g1) as [[g2 log2]|e] eqn:E2; cbn [bind]; [|discriminate].
    intros E. inversion E. subst.
    eapply IH; [|exact E2]. eapply Htick; [|exact E1].
    clear E1. revert g Hg. induction events as [|ev events IHe]; intros g Hg;
      cbn [fold_left]; auto.
Qed.

Lemma update_log_constructed (g g' : CarromGame) (log : list Capture) :
  as_constructed g -> update_log g = Ok (g', log) -> as_constructed g'.
Proof.
  intros H E. eapply pieces_kept_constructed; [eapply update_log_kept, E | exact H].
Qed.

(** X10.  What the constructors establish holds for the whole match: in any
    run of frames, restarts included, the pockets stay the four corners, the
    striker stays a white disc of radius 20 on the board with friction 0.98,
    and every coin keeps the radius of its kind and the friction 0.98. *)
Theorem construction_is_invariant (frames : list (list Event)) (g g' : CarromGame)
    (log : list Capture) :
  as_constructed g -> run frames g = Ok (g', log) -> as_constructed g'.
Proof.
  apply (run_invariant as_constructed).
  - intros ev h. apply handle_event_constructed.
  - intros h h' l. apply update_log_constructed.
Qed.

Lemma last_tick_constructed : as_constructed last_tick_game.
Proof.
  unfold as_constructed. repeat split; try reflexivity.
  repeat constructor; reflexivity.
Qed.

Lemma construction_is_invariant_witness : as_constructed after_last_tick.
Proof.
  apply (construction_is_invariant [[]] last_tick_game after_last_tick []).
  - exact last_tick_constructed.
  - apply run_one_tick, last_tick_runs.
Defined.

(** ** The striker is never captured *)

Lemma pocket_phase_captures (l : list nat) :
  forall st,
    ~ In StrikerCaptured (snd st) ->
    ~ In StrikerCaptured (snd (fold_left pocket_step l st)).
Proof.
  induction l as [|i l IH]; intros [g log] H; cbn [fold_left]; [exact H|].
  apply IH. unfold pocket_step.
  destruct (nth_error (coins g) i) as [c|]; [|exact H].
  destruct (Coin_check_pocket c (pockets g)) as [c' [|]]; [|exact H].
  cbn [snd] in *. intros Hin. apply in_app_or in Hin.
  destruct Hin as [Hin | [Hin | []]]; [auto | discriminate].
Qed.

Lemma update_log_spares_striker (g g' : CarromGame) (log : list Capture) :
  as_constructed g -> update_log g = Ok (g', log) -> ~ In StrikerCaptured log.
Proof.
  intros (Hpk & _ & Hr & _ & Hp & _). unfold update_log.
  destruct (negb (GameState_eqb (game_state g) PLAYING)).
  { intros E. inversion E. intros []. }
  unfold update_after_striker. cbn [striker pockets set_striker].
  rewrite Hpk, striker_stays_out_of_pockets by assumption.
  match goal with |- context [collision_phase ?h] =>
    destruct (collision_phase h) as [g2|e] end; cbn [bind]; [|discriminate].
  pose proof (pocket_phase_captures (seq 0 (List.length (coins g2))) (g2, [])) as Hlog.
  fold (pocket_phase g2) in Hlog.
  destruct (pocket_phase g2) as [g3 log3]. cbn [snd] in Hlog.
  intros E. inversion E. subst. apply Hlog. intros [].
Qed.

(** X11.  The striker is never captured.  In a game as the constructors
    build it, no tick of any run of frames reports the striker as captured:
    the wall test of its own update keeps its centre 20 away from both walls
    of every corner, farther than the capture distance 25 from the corner, so
    the branch of [update] that calls [handle_foul] with the message
    "Striker pocketed!" is never taken. *)
Theorem striker_is_never_captured (frames : list (list Event)) (g g' : CarromGame)
    (log : list Capture) :
  as_constructed g -> run frames g = Ok (g', log) -> ~ In StrikerCaptured log.
Proof.
  revert g g' log. induction frames as [|events frames IH]; intros g g' log Hg; cbn [run].
  - intros E. inversion E. intros [].
  - unfold frame.
    assert (Hev : as_constructed (fold_left (fun g ev => handle_event ev g) events g)).
    { clear IH. revert g Hg. induction events as [|ev events IHe]; intros g Hg;
        cbn [fold_left]; auto using handle_event_constructed. }
    destruct (update_log _) as [[g1 log1]|e] eqn:E1; cbn [bind]; [|discriminate].
    cbn [fst snd].
    destruct (run frames g1) as [[g2 log2]|e] eqn:E2; cbn [bind]; [|discriminate].
    intros E. inversion E. subst. intros Hin. apply in_app_or in Hin.
    destruct Hin as [Hin | Hin].
    + exact (update_log_spares_striker _ _ _ Hev E1 Hin).
    + apply (IH g1 g' log2); auto. eapply update_log_constructed; eauto.
Qed.

Lemma corner_game_constructed : as_constructed corner_game.
Proof.
  unfold as_constructed. repeat split; try reflexivity.
  repeat constructor; reflexivity.
Qed.

Lemma striker_is_never_captured_witness :
  ~ In StrikerCaptured [CoinCaptured 1].
Proof.
  apply (striker_is_never_captured [[]] corner_game corner_game_after).
  - exact corner_game_constructed.
  - apply run_one_tick, corner_tick.
Defined.

(** ** The power of a shot *)

Lemma handle_event_power (ev : Event) (g : CarromGame) :
  power_in_range g -> power_in_range (handle_event ev g).
Proof.
  intros H.
  assert (Hd : ev = KEYDOWN K_r \/ ev <> KEYDOWN K_r).
  { destruct ev as [[]| | |]; try (right; discriminate). left. reflexivity. }
  destruct Hd as [-> | Hne].
  - unfold handle_event. destruct (game_state g); try exact H.
    + match goal with |- context [if ?b then _ else _] => destruct b end; exact H.
    + unfold power_in_range, reset_game.
      destruct (Striker_init _ _ _) as [s r] eqn:Es. destruct (setup_coins [] r).
      cbn [set_game_state striker].
      apply (f_equal fst) in Es. cbn [fst] in Es.
      assert (Hp0 : power s = 0) by (rewrite <- Es; reflexivity).
      rewrite Hp0. unfold max_power. lra.
  - destruct (handle_event_kept ev g Hne) as (_ & (_ & _ & Hp) & _). exact (Hp H).
Qed.

Lemma update_log_power (g g' : CarromGame) (log : list Capture) :
  power_in_range g -> update_log g = Ok (g', log) -> power_in_range g'.
Proof.
  intros H E. destruct (update_log_kept g g' log E) as (_ & (_ & _ & Hp) & _).
  exact (Hp H).
Qed.

(** X12.  The power of the striker stays between 0 and [max_power] through
    any run of frames, restarts included: [set_power] caps the power at
    [max_power], the drag distance that the mouse handler passes to it is
    never negative, and [reset_position] sets the power to 0. *)
Theorem power_stays_in_range (frames : list (list Event)) (g g' : CarromGame)
    (log : list Capture) :
  power_in_range g -> run frames g = Ok (g', log) -> power_in_range g'.
Proof.
  apply (run_invariant power_in_range).
  - apply handle_event_power.
  - apply update_log_power.
Qed.

Lemma power_stays_in_range_witness : power_in_range after_last_tick.
Proof.
  apply (power_stays_in_range [[]] last_tick_game after_last_tick []).
  - unfold power_in_range, last_tick_game, max_power. cbn [striker power]. lra.
  - apply run_one_tick, last_tick_runs.
Defined.

(** X13.  The release of a shot with a positive power gives the striker a
    speed equal to that power, whatever the aim angle: [shoot] sets the
    velocity to (cos a * power, sin a * power). *)
Theorem shot_speed_is_the_power (g : CarromGame) :
  0 < power (striker g) ->
  let shot := base (striker (release g)) in
  sqrt (velocity_x shot * velocity_x shot + velocity_y shot * velocity_y shot)
  = power (striker g).
Proof.
  intros Hpos shot. unfold shot, release.
  replace (Rltb 0 (power (striker g))) with true by (symmetry; apply Rltb_true; exact Hpos).
  unfold Striker_shoot. destruct (shoot_particles _ _ _ _) as [ps r].
  cbn [set_foul_count set_rng set_striker striker base velocity_x velocity_y].
  set (a := aim_angle (striker g)). set (p := power (striker g)) in *.
  replace (cos a * p * (cos a * p) + sin a * p * (sin a * p))
    with (p * p * ((sin a)² + (cos a)²)) by (unfold Rsqr; ring).
  rewrite sin2_cos2, Rmult_1_r. apply sqrt_square. lra.
Qed.

Lemma shot_speed_is_the_power_witness :
  let shot := base (striker (release last_tick_game)) in
  sqrt (velocity_x shot * velocity_x shot + velocity_y shot * velocity_y shot)
  = power (striker last_tick_game).
Proof.
  apply shot_speed_is_the_power.
  unfold last_tick_game. cbn [striker power]. lra.
Defined.

(** ** Scores and queen flags through a match *)

Lemma match_grows_same (g g' : CarromGame) :
  player1_score g' = player1_score g -> player2_score g' = player2_score g ->
  player3_score g' = player3_score g -> player4_score g' = player4_score g ->
  queen_pocketed g' = queen_pocketed g -> queen_covered g' = queen_covered g ->
  player_mode g' = player_mode g ->
  match_grows 0 g g'.
Proof.
  intros H1 H2 H3 H4 H5 H6 H7. unfold match_grows.
  rewrite H1, H2, H5, H6. repeat split; auto; lia.
Qed.




Lemma handle_foul_grows (m : string) (g : CarromGame) : match_grows 0 g (handle_foul m g).
Proof.
  unfold handle_foul. apply match_grows_same;
    (destruct (last_pocketed_queen g && negb (queen_covered g));
     [destruct (return_queen (coins g))|]); reflexivity.
Qed.
















(** ** Screens that do not run the match *)

Lemma update_log_idle (g : CarromGame) :
  game_state g <> PLAYING -> update_log g = Ok (g, []).
Proof.
  intros H. unfold update_log. destruct (game_state g); try reflexivity.
  contradiction H. reflexivity.
Qed.

Lemma handle_event_idle (ev : Event) (g : CarromGame) :
  game_state g <> PLAYING ->
  match ev with KEYDOWN _ => False | _ => True end ->
  handle_event ev g = g.
Proof.
  intros H Hev. unfold handle_event.
  destruct (game_state g); destruct ev; try contradiction; try reflexivity.
Qed.

Lemma events_idle (events : list Event) (g : CarromGame) :
  game_state g <> PLAYING ->
  Forall (fun ev => match ev with KEYDOWN _ => False | _ => True end) events ->
  fold_left (fun g ev => handle_event ev g) events g = g.
Proof.
  intros Hg H. induction H as [|ev events Hev H IH]; cbn [fold_left]; [reflexivity|].
  rewrite handle_event_idle by assumption. exact IH.
Qed.

Lemma frame_idle (events : list Event) (g : CarromGame) :
  game_state g <> PLAYING ->
  Forall (fun ev => match ev with KEYDOWN _ => False | _ => True end) events ->
  frame events g = Ok (g, []).
Proof.
  intros Hg Hev. unfold frame. rewrite events_idle by assumption.
  apply update_log_idle, Hg.
Qed.

(** X16.  Outside the [PLAYING] state nothing moves without a key: on the
    start screen, the settings screen, the pause screen and the game-over
    screen, a run of frames that holds mouse events only returns the game as
    it is and reports no capture.  [update] returns at once, and the mouse is
    read in the [PLAYING] state only. *)
Theorem idle_screens_are_frozen (frames : list (list Event)) (g : CarromGame) :
  game_state g <> PLAYING ->
  no_keys frames ->
  run frames g = Ok (g, []).
Proof.
  intros Hg H. induction H as [|events frames Hev H IH]; cbn [run]; [reflexivity|].
  rewrite frame_idle by assumption. cbn [bind fst snd].
  rewrite IH. reflexivity.
Qed.

Lemma idle_screens_are_frozen_witness :
  run [[MOUSEBUTTONDOWN 1 (300, 650)%Z; MOUSEMOTION (310, 640)%Z true];
       [MOUSEBUTTONUP 1 (310, 640)%Z]] match_in_progress
  = Ok (match_in_progress, []).
Proof.
  apply idle_screens_are_frozen.
  - discriminate.
  - repeat constructor.
Defined.

(** X17.  A pause loses nothing.  In the [PLAYING] state the key ESCAPE
    changes the state to [PAUSED] and nothing else, also in the middle of a
    shot; while the game is paused, frames without keys leave it as it is; and
    ESCAPE or P then gives back the very game that was paused. *)
Theorem pause_and_resume (frames : list (list Event)) (g : CarromGame) :
  game_state g = PLAYING ->
  no_keys frames ->
  run ([KEYDOWN K_ESCAPE] :: frames) g = Ok (set_game_state g PAUSED, [])
  /\ handle_event (KEYDOWN K_ESCAPE) (set_game_state g PAUSED) = g
  /\ handle_event (KEYDOWN K_p) (set_game_state g PAUSED) = g.
Proof.
  intros Hg Hf.
  assert (Hback : set_game_state (set_game_state g PAUSED) PLAYING = g).
  { split_game g. cbn in Hg. subst. reflexivity. }
  split; [|split; exact Hback].
  cbn [run]. unfold frame. cbn [fold_left].
  assert (Hp : handle_event (KEYDOWN K_ESCAPE) g = set_game_state g PAUSED).
  { unfold handle_event. rewrite Hg.
    match goal with |- context [if ?b then _ else _] => destruct b end; reflexivity. }
  rewrite Hp, update_log_idle by discriminate. cbn [bind fst snd].
  assert (Hrest : run frames (set_game_state g PAUSED) = Ok (set_game_state g PAUSED, [])).
  { induction Hf as [|events frames Hev Hf IH]; cbn [run]; [reflexivity|].
    rewrite frame_idle by (discriminate || assumption). cbn [bind fst snd].
    rewrite IH. reflexivity. }
  rewrite Hrest. reflexivity.
Qed.

Lemma pause_and_resume_witness :
  run [[KEYDOWN K_ESCAPE]; [MOUSEMOTION (310, 640)%Z true]] last_tick_game
  = Ok (set_game_state last_tick_game PAUSED, [])
  /\ handle_event (KEYDOWN K_ESCAPE) (set_game_state last_tick_game PAUSED) = last_tick_game
  /\ handle_event (KEYDOWN K_p) (set_game_state last_tick_game PAUSED) = last_tick_game.
Proof.
  apply pause_and_resume.
  - reflexivity.
  - repeat constructor.
Defined.

(** ** Saving and loading, field by field *)

Lemma restore_coins_rebuilds (cs : list Coin) :
  forall h,
  exists h',
    restore_coins (map coin_entry cs) h = Running h'
    /\ h' = set_rng (set_coins h (coins h')) (rng h')
    /\ map coin_entry (coins h') = map coin_entry (coins h) ++ map coin_entry cs
    /\ (Forall rebuilt (coins h) -> Forall rebuilt (coins h')).
Proof.
  induction cs as [|c cs IH]; intros h.
  - exists h. cbn [map restore_coins]. split; [reflexivity|]. split.
    + split_game h. reflexivity.
    + split; [now rewrite app_nil_r | auto].
  - cbn [map restore_coins coin_entry].
    destruct (Coin_init (x c) (y c) (color c) (is_queen c) (rng h)) as [c1 r1] eqn:Ei.
    assert (Hc1 : coin_entry (set_is_pocketed c1 (is_pocketed c)) = coin_entry c
                  /\ rebuilt (set_is_pocketed c1 (is_pocketed c))).
    { apply (f_equal fst) in Ei. cbn [fst] in Ei. rewrite <- Ei.
      unfold Coin_init, random_uniform, random_random. split; [reflexivity|].
      repeat split. }
    destruct Hc1 as [He Hr].
    destruct (IH (set_rng (set_coins h (coins h ++ [set_is_pocketed c1 (is_pocketed c)])) r1))
      as (h' & Hrun & Hshape & Hcoins & Hfresh).
    exists h'. split; [exact Hrun|]. split; [|split].
    + rewrite Hshape. split_game h. reflexivity.
    + rewrite Hcoins. cbn [coins set_rng set_coins].
      rewrite map_app, <- app_assoc. cbn [map app]. now rewrite He.
    + intros Hh. apply Hfresh. cbn [coins set_rng set_coins].
      apply Forall_app. split; [exact Hh | constructor; [exact Hr | constructor]].
Qed.

(** X18.  [load_game] reads back what [save_game] wrote, for every game and
    whatever game is in memory when the file is loaded: the player mode, the
    theme, the player to move, the four scores, the three queen flags, the
    striker position, and for each coin its position, colour, queen flag and
    captured flag, in the same order.  Everything else is that of a fresh
    match: the foul counter is 0, there is no winner, the pieces are at rest,
    the striker has no power and no shot is under way. *)
Theorem load_reads_back_what_save_wrote (g h : CarromGame) :
  let loaded := load_game (snd (save_game g)) h in
  game_state loaded = PLAYING
  /\ turn_message loaded = "Game loaded successfully!"%string
  /\ player_mode loaded = player_mode g
  /\ current_theme loaded = current_theme g
  /\ current_player loaded = current_player g
  /\ player1_score loaded = player1_score g
  /\ player2_score loaded = player2_score g
  /\ player3_score loaded = player3_score g
  /\ player4_score loaded = player4_score g
  /\ queen_pocketed loaded = queen_pocketed g
  /\ queen_covered loaded = queen_covered g
  /\ last_pocketed_queen loaded = last_pocketed_queen g
  /\ map coin_entry (coins loaded) = map coin_entry (coins g)
  /\ x (base (striker loaded)) = x (base (striker g))
  /\ y (base (striker loaded)) = y (base (striker g))
  /\ foul_count loaded = 0%Z
  /\ winner loaded = None
  /\ all_coins_still loaded = true
  /\ Forall rebuilt (coins loaded)
  /\ velocity_x (base (striker loaded)) = 0
  /\ velocity_y (base (striker loaded)) = 0
  /\ power (striker loaded) = 0
  /\ is_shooting (striker loaded) = false.
Proof.
  intros loaded. unfold loaded, save_game. cbn [fst snd load_game].
  destruct (restore_scalars g h
              (Some (map coin_entry (coins g)))
              (Some (PosTuple (x (base (striker g))) (y (base (striker g))))))
    as (h' & Hrun & Hshape).
  destruct (reset_game_fresh h) as (Fp & Ff & Fw & Fs & Fstriker).
  revert Hrun Hshape Fp Ff Fw Fs Fstriker. generalize (reset_game h). intros f.
  intros Hrun Hshape Fp Ff Fw Fs Fstriker. unfold coin_entry in Hrun.
  rewrite Hrun. clear Hrun.
  destruct (restore_coins_rebuilds (coins g) (set_coins h' []))
    as (h2 & Hrun2 & Hshape2 & Hcs & Hfresh).
  unfold coin_entry in Hrun2. rewrite Hrun2. cbn [and_then].
  cbn [coins set_coins app] in Hcs, Hfresh.
  specialize (Fstriker (x (base (striker g))) (y (base (striker g)))).
  assert (Es : striker h2 = striker f) by (rewrite Hshape2, Hshape; reflexivity).
  rewrite <- Es in Fstriker.
  set (s2 := set_base (striker h2)
               (set_y (set_x (base (striker h2)) (x (base (striker g))))
                      (y (base (striker g))))) in *.
  cbn [set_game_state set_turn_message set_striker game_state turn_message player_mode
       current_theme current_player player1_score player2_score player3_score
       player4_score queen_pocketed queen_covered last_pocketed_queen coins striker
       foul_count winner all_coins_still].
  assert (E2 : player_mode h2 = player_mode g /\ current_theme h2 = current_theme g
               /\ current_player h2 = current_player g
               /\ player1_score h2 = player1_score g /\ player2_score h2 = player2_score g
               /\ player3_score h2 = player3_score g /\ player4_score h2 = player4_score g
               /\ queen_pocketed h2 = queen_pocketed g /\ queen_covered h2 = queen_covered g
               /\ last_pocketed_queen h2 = last_pocketed_queen g
               /\ foul_count h2 = 0%Z /\ winner h2 = None /\ all_coins_still h2 = true).
  { rewrite Hshape2, Hshape. cbn. rewrite Ff, Fw, Fs. repeat split. }
  destruct E2 as (e1 & e2 & e3 & e4 & e5 & e6 & e7 & e8 & e9 & e10 & e11 & e12 & e13).
  repeat match goal with |- _ /\ _ => split end; try assumption; try reflexivity;
    match goal with
    | |- Forall _ _ => apply Hfresh; constructor
    | |- velocity_x _ = _ => exact (f_equal (fun s => velocity_x (base s)) Fstriker)
    | |- velocity_y _ = _ => exact (f_equal (fun s => velocity_y (base s)) Fstriker)
    | |- power _ = _ => exact (f_equal power Fstriker)
    | |- is_shooting _ = _ => exact (f_equal is_shooting Fstriker)
    end.
Qed.

(** The outcome of the loop that recreates the coins. *)
Lemma restore_coins_outcome (entries : list CoinEntry) :
  forall h,
    (forallb (fun e => match e with
                       | CoinTuple _ _ _ _ _ => true
                       | BadEntry _ => false
                       end) entries = true
     /\ exists h', restore_coins entries h = Running h')
    \/ (forallb (fun e => match e with
                          | CoinTuple _ _ _ _ _ => true
                          | BadEntry _ => false
                          end) entries = false
        /\ exists err h', restore_coins entries h = Failed err h').
Proof.
  induction entries as [|[cx cy col q p | err] entries IH]; intros h;
    cbn [forallb restore_coins andb].
  - left. split; [reflexivity | eexists; reflexivity].
  - destruct (Coin_init cx cy col q (rng h)) as [c r]. apply IH.
  - right. split; [reflexivity | do 2 eexists; reflexivity].
Qed.

(** X19.  A decoded save file is loaded exactly when it is complete: when
    the dict holds the ten scalar keys, a list of 5-tuples under 'coins' and
    a pair under 'striker_pos', the game is in the [PLAYING] state after
    [load_game]; in every other case it shows the start screen. *)
Theorem load_succeeds_exactly_on_complete_files (s : Snapshot) (g : CarromGame) :
  game_state (load_game (Pickled s) g)
  = if snapshot_complete s then PLAYING else START_SCREEN.
Proof.
  unfold load_game, apply_snapshot, snapshot_complete. generalize (reset_game g). intros f.
  destruct s as [o1 o2 o3 o4 o5 o6 o7 o8 o9 o10 cs pos].
  cbn [s_player_mode s_current_theme s_current_player s_player1_score s_player2_score
       s_player3_score s_player4_score s_queen_pocketed s_queen_covered
       s_last_pocketed_queen s_coins s_striker_pos].
  destruct o1; [|reflexivity]. destruct o2; [|reflexivity].
  destruct o3; [|reflexivity]. destruct o4; [|reflexivity].
  destruct o5; [|reflexivity]. destruct o6; [|reflexivity].
  destruct o7; [|reflexivity]. destruct o8; [|reflexivity].
  destruct o9; [|reflexivity]. destruct o10; [|reflexivity].
  cbn [is_some andb and_then restore].
  destruct cs as [entries|]; [|reflexivity].
  match goal with |- context [restore_coins entries ?h] =>
    destruct (restore_coins_outcome entries h) as [[Hb [h' Hr]] | [Hb (err & h' & Hr)]]
  end; rewrite Hb, Hr; cbn [and_then andb]; [|reflexivity].
  destruct pos as [[sx sy | err]|]; reflexivity.
Qed.


(** ** The settings screen *)

(** X21.  The selection of the settings menu wraps around its four entries:
    after the key UP or DOWN the selected option is one of 0, 1, 2, 3,
    whatever it was, and nothing else has changed; from a selection in that
    range DOWN then UP, UP then DOWN, and four times DOWN all come back to the
    settings they started from. *)
Theorem menu_selection_wraps (m : Settings) :
  (forall key, key = MK_UP \/ key = MK_DOWN ->
     exists m',
       settings_keydown key m = Some m'
       /\ (0 <= selected_option m' < 4)%Z
       /\ settings_state m' = settings_state m
       /\ settings_theme m' = settings_theme m
       /\ settings_player_mode m' = settings_player_mode m
       /\ sound_enabled m' = sound_enabled m)
  /\ ((0 <= selected_option m < 4)%Z ->
      settings_keys [MK_DOWN; MK_UP] m = Some m
      /\ settings_keys [MK_UP; MK_DOWN] m = Some m
      /\ settings_keys [MK_DOWN; MK_DOWN; MK_DOWN; MK_DOWN] m = Some m).
Proof.
  split.
  - intros key [-> | ->]; eexists; (split; [reflexivity|]);
      cbn [selected_option settings_state settings_theme settings_player_mode
           sound_enabled]; repeat split;
      try (apply Z.mod_pos_bound; lia).
  - intros Hr. destruct m as [st th pm snd opt]. cbn [selected_option] in Hr.
    assert (Ho : (opt = 0 \/ opt = 1 \/ opt = 2 \/ opt = 3)%Z) by lia.
    destruct Ho as [-> | [-> | [-> | ->]]]; repeat split.
Qed.

Lemma list_index_In (l : list string) (v : string) (i : nat) :
  list_index l v = Some i -> In v l.
Proof.
  revert i. induction l as [|a l IH]; intros i; cbn [list_index]; [discriminate|].
  destruct (String.eqb a v) eqn:E.
  - apply String.eqb_eq in E. intros _. left. exact E.
  - destruct (list_index l v) as [j|]; [|discriminate]. intros _. right. eauto.
Qed.

(** X22.  RETURN on the entry 0 of the settings menu moves to the next
    theme in the order Classic, Modern, Dark, Forest, Classic: the new theme
    is again one of the four and differs from the old one, nothing else
    changes, and four presses come back to the theme they started from.  With
    a current theme that is not a key of [THEMES] (as a save file can set it)
    the key raises instead: [theme_list.index] finds nothing. *)
Theorem theme_setting_cycles (m : Settings) :
  selected_option m = 0%Z ->
  (In (settings_theme m) theme_list ->
     (exists m',
        settings_keydown MK_RETURN m = Some m'
        /\ In (settings_theme m') theme_list
        /\ settings_theme m' <> settings_theme m
        /\ settings_state m' = settings_state m
        /\ settings_player_mode m' = settings_player_mode m
        /\ sound_enabled m' = sound_enabled m
        /\ selected_option m' = 0%Z)
     /\ settings_keys [MK_RETURN; MK_RETURN; MK_RETURN; MK_RETURN] m = Some m)
  /\ (~ In (settings_theme m) theme_list -> settings_keydown MK_RETURN m = None).
Proof.
  intros Ho. destruct m as [st th pm snd opt]. cbn [selected_option settings_theme] in *.
  subst opt. split.
  - unfold theme_list. cbn [In].
    intros [<- | [<- | [<- | [<- | []]]]]; (split; [eexists; split; [reflexivity|]|reflexivity]);
      cbn [settings_theme settings_state settings_player_mode sound_enabled selected_option
           nth Nat.modulo]; repeat split; cbn; try tauto; discriminate.
  - intros Hin. unfold settings_keydown. cbn [selected_option settings_theme Z.eqb].
    destruct (list_index theme_list th) as [i|] eqn:E; [|reflexivity].
    contradiction Hin. eapply list_index_In, E.
Qed.

Lemma theme_setting_cycles_witness :
  settings_keydown MK_RETURN default_settings
  = Some (mkSettings SETTINGS_SCREEN "Modern" 2 true 0)
  /\ settings_keydown MK_RETURN (mkSettings SETTINGS_SCREEN "Neon" 2 true 0) = None.
Proof.
  split.
  - reflexivity.
  - destruct (theme_setting_cycles (mkSettings SETTINGS_SCREEN "Neon" 2 true 0) eq_refl)
      as [_ Hraise].
    apply Hraise. cbn. intros [H | [H | [H | [H | []]]]]; discriminate H.
Defined.

(** X23.  RETURN on the entry 1 of the settings menu leaves the player mode
    at 2 or at 4, whatever it was (any value other than 2 becomes 2), and on
    the entry 2 it inverts the sound flag; nothing else changes.  Two presses
    come back to the settings they started from when the player mode was 2
    or 4. *)
Theorem mode_and_sound_settings_toggle (m : Settings) :
  (selected_option m = 1%Z ->
     (exists m',
        settings_keydown MK_RETURN m = Some m'
        /\ (settings_player_mode m' = 2%Z \/ settings_player_mode m' = 4%Z)
        /\ settings_player_mode m' <> settings_player_mode m
        /\ settings_state m' = settings_state m
        /\ settings_theme m' = settings_theme m
        /\ sound_enabled m' = sound_enabled m)
     /\ (settings_player_mode m = 2%Z \/ settings_player_mode m = 4%Z ->
         settings_keys [MK_RETURN; MK_RETURN] m = Some m))
  /\ (selected_option m = 2%Z ->
      (exists m',
         settings_keydown MK_RETURN m = Some m'
         /\ sound_enabled m' = negb (sound_enabled m)
         /\ settings_state m' = settings_state m
         /\ settings_theme m' = settings_theme m
         /\ settings_player_mode m' = settings_player_mode m)
      /\ settings_keys [MK_RETURN; MK_RETURN] m = Some m).
Proof.
  destruct m as [st th pm snd opt].
  cbn [selected_option settings_player_mode sound_enabled settings_state settings_theme].
  split; intros ->.
  - split.
    + eexists. split; [reflexivity|].
      cbn [settings_player_mode settings_state settings_theme sound_enabled].
      destruct (pm =? 2)%Z eqn:E; repeat split; auto.
      * apply Z.eqb_eq in E. lia.
      * apply Z.eqb_neq in E. lia.
    + intros [-> | ->]; reflexivity.
  - split.
    + eexists. split; [reflexivity|]. repeat split.
    + cbn. now rewrite negb_involutive.
Qed.

Lemma mode_and_sound_settings_toggle_witness :
  settings_keys [MK_RETURN; MK_RETURN] (mkSettings SETTINGS_SCREEN "Classic" 2 true 1)
  = Some (mkSettings SETTINGS_SCREEN "Classic" 2 true 1).
Proof.
  destruct (mode_and_sound_settings_toggle (mkSettings SETTINGS_SCREEN "Classic" 2 true 1))
    as [Hmode _].
  destruct (Hmode eq_refl) as [_ Hback]. apply Hback. left. reflexivity.
Defined.

(** ** Aiming and shooting *)

Lemma sqrt_scaled (dx dy : R) :
  dx <> 0 ->
  sqrt (dx * dx + dy * dy) = Rabs dx * sqrt (1 + (dy / dx)²).
Proof.
  intros Hx.
  replace (dx * dx + dy * dy) with (dx² * (1 + (dy / dx)²))
    by (unfold Rsqr; field; exact Hx).
  rewrite sqrt_mult_alt by apply Rle_0_sqr.
  now rewrite sqrt_Rsqr_abs.
Qed.

Lemma sqrt_one_plus_pos (t : R) : 0 < sqrt (1 + t²).
Proof. apply sqrt_lt_R0. pose proof (Rle_0_sqr t). lra. Qed.

Lemma shift_back (t : R) : cos (t - PI) = - cos t /\ sin (t - PI) = - sin t.
Proof.
  pose proof (neg_cos (t - PI)) as Hc. pose proof (neg_sin (t - PI)) as Hs.
  replace (t - PI + PI) with t in Hc, Hs by ring. split; lra.
Qed.

(** [math.atan2(dy, dx)] is the direction of the vector (dx, dy): its cosine
    and sine, scaled by the length of the vector, give back dx and dy. *)
Lemma atan2_direction (dy dx : R) :
  cos (atan2 dy dx) * sqrt (dx * dx + dy * dy) = dx
  /\ sin (atan2 dy dx) * sqrt (dx * dx + dy * dy) = dy.
Proof.
  unfold atan2.
  destruct (Rltb 0 dx) eqn:Hpos; [|destruct (Rltb dx 0) eqn:Hneg].
  - apply Rltb_true in Hpos.
    rewrite sqrt_scaled, cos_atan, sin_atan, Rabs_pos_eq by lra.
    pose proof (sqrt_one_plus_pos (dy / dx)) as Hs.
    split; field; lra.
  - apply Rltb_true in Hneg.
    rewrite sqrt_scaled by lra. rewrite Rabs_left by lra.
    pose proof (sqrt_one_plus_pos (dy / dx)) as Hs.
    destruct (Rltb dy 0).
    + destruct (shift_back (atan (dy / dx))) as [-> ->].
      rewrite cos_atan, sin_atan. split; field; lra.
    + rewrite neg_cos, neg_sin, cos_atan, sin_atan. split; field; lra.
  - apply Rltb_false in Hpos. apply Rltb_false in Hneg.
    assert (Hx : dx = 0) by lra. subst dx.
    replace (0 * 0 + dy * dy) with (dy * dy) by ring.
    destruct (Rltb 0 dy) eqn:Hy; [|destruct (Rltb dy 0) eqn:Hy'].
    + apply Rltb_true in Hy. rewrite cos_PI2, sin_PI2, sqrt_square by lra. split; ring.
    + apply Rltb_true in Hy'.
      replace (- PI / 2) with (- (PI / 2)) by field.
      rewrite cos_neg, sin_neg, cos_PI2, sin_PI2.
      replace (dy * dy) with (- dy * - dy) by ring. rewrite sqrt_square by lra.
      split; ring.
    + apply Rltb_false in Hy. apply Rltb_false in Hy'.
      assert (Hz : dy = 0) by lra. subst dy.
      rewrite Rmult_0_r, sqrt_0. split; ring.
Qed.

(** X24.  A drag and a release shoot the striker toward the mouse.  In a
    running match at rest, with the striker placed and the aim started, a
    mouse motion with the left button held followed by the release of that
    button gives the striker a velocity that points from its centre to the
    position of the mouse, with a speed of one fifth of the distance, capped
    at 100 pixels: [aim] takes the angle with [atan2], [set_power] scales
    the distance, and [shoot] multiplies the cosine and the sine of the angle
    by the power. *)
Theorem drag_and_release_shoots_toward_the_mouse (g : CarromGame) (pos up : Z * Z) :
  game_state g = PLAYING ->
  all_coins_still g = true ->
  is_shooting (striker g) = false ->
  is_aiming (striker g) = true ->
  let dx := IZR (fst pos) - x (base (striker g)) in
  let dy := IZR (snd pos) - y (base (striker g)) in
  let d := sqrt (dx * dx + dy * dy) in
  0 < dx * dx + dy * dy ->
  let g' := handle_event (MOUSEBUTTONUP 1 up) (handle_event (MOUSEMOTION pos true) g) in
  velocity_x (base (striker g')) * d = Rmin d 100 / 5 * dx
  /\ velocity_y (base (striker g')) * d = Rmin d 100 / 5 * dy
  /\ is_shooting (striker g') = true
  /\ foul_count g' = (foul_count g + 1)%Z.
Proof.
  intros Hplay Hstill Hshoot Haim dx dy d Hd g'.
  assert (Hdpos : 0 < d) by (apply sqrt_lt_R0; exact Hd).
  set (s1 := Striker_set_power
               (Striker_aim (striker g) (IZR (fst pos)) (IZR (snd pos))) (Rmin d 100)).
  assert (E1 : handle_event (MOUSEMOTION pos true) g = set_striker g s1).
  { unfold handle_event. rewrite Hplay, Hstill, Hshoot. cbn [andb negb].
    unfold handle_mouse. rewrite Haim. cbn [negb]. rewrite andb_false_r. reflexivity. }
  assert (Hpow : power s1 = Rmin d 100 / 5).
  { unfold s1. cbn [Striker_set_power power]. unfold max_power.
    pose proof (Rmin_r d 100). rewrite Rmin_left; lra. }
  assert (Hpos : 0 < power s1).
  { rewrite Hpow. unfold Rmin. destruct (Rle_dec d 100); lra. }
  assert (E2 : g' = release (set_striker g s1)).
  { unfold g'. rewrite E1. unfold handle_event.
    cbn [game_state set_striker all_coins_still striker]. rewrite Hplay, Hstill.
    replace (is_shooting s1) with false by (symmetry; exact Hshoot).
    cbn [andb negb]. unfold handle_mouse. cbn [set_striker striker Z.eqb andb].
    replace (is_aiming s1) with true by (symmetry; exact Haim). reflexivity. }
  rewrite E2. unfold release. cbn [set_striker striker].
  replace (Rltb 0 (power s1)) with true by (symmetry; apply Rltb_true; exact Hpos).
  unfold Striker_shoot. destruct (shoot_particles _ _ _ _) as [ps r].
  cbn [set_foul_count set_rng set_striker striker base velocity_x velocity_y
       is_shooting foul_count].
  rewrite Hpow.
  destruct (atan2_direction dy dx) as [Hc Hs]. fold d in Hc, Hs.
  change (aim_angle s1) with (atan2 dy dx).
  repeat split.
  - rewrite <- Hc at 2. ring.
  - rewrite <- Hs at 2. ring.
Qed.

Lemma drag_and_release_shoots_toward_the_mouse_witness :
  let d := sqrt ((IZR 400 - 400) * (IZR 400 - 400) + (IZR 550 - 650) * (IZR 550 - 650)) in
  let g' := handle_event (MOUSEBUTTONUP 1 (400, 550)%Z)
              (handle_event (MOUSEMOTION (400, 550)%Z true) aiming_game) in
  velocity_x (base (striker g')) * d = Rmin d 100 / 5 * (IZR 400 - 400)
  /\ velocity_y (base (striker g')) * d = Rmin d 100 / 5 * (IZR 550 - 650)
  /\ is_shooting (striker g') = true
  /\ foul_count g' = (0 + 1)%Z.
Proof.
  apply (drag_and_release_shoots_toward_the_mouse aiming_game (400, 550)%Z (400, 550)%Z);
    try reflexivity.
  unfold aiming_game, game_with, striker_at. cbn [striker base x y fst snd]. lra.
Defined.

(** ** Placing the striker *)




(** ** The opening board *)

(** X26.  [reset_game] sets up 24 coins, all on the board and at rest: the
    red queen first, at the centre of the board, and after it 23 regular
    coins, of which 11 are white and 12 are black (the outer ring of nine
    coins starts and ends with a black one).  The match starts with player 1,
    with all scores and the foul counter at 0, no queen flag set and no
    winner; the game state, the player mode and the theme are kept. *)
Theorem opening_board (g : CarromGame) :
  let b := reset_game g in
  List.length (coins b) = 24%nat
  /\ regular_left WHITE (coins b) = 11%Z
  /\ regular_left BLACK (coins b) = 12%Z
  /\ (exists q rest,
        coins b = q :: rest
        /\ is_queen q = true /\ color q = RED
        /\ x q = IZR (SCREEN_WIDTH / 2) /\ y q = IZR (SCREEN_HEIGHT / 2)
        /\ Forall (fun c => is_queen c = false) rest)
  /\ Forall (fun c => is_pocketed c = false /\ velocity_x c = 0 /\ velocity_y c = 0)
            (coins b)
  /\ match_state b = mkMatch (0, 0, 0, 0)%Z 1 false false false 0 None (player_mode g)
  /\ game_state b = game_state g
  /\ current_theme b = current_theme g.
Proof.
  intros b. unfold b, reset_game, Striker_init, setup_coins, coin_ring, Coin_init,
    random_uniform, random_random.
  cbn [coins app Nat.sub Nat.even].
  repeat split.
  - do 2 eexists. split; [reflexivity|]. repeat split.
    repeat (constructor; [reflexivity|]). constructor.
  - repeat (constructor; [repeat split|]). constructor.
Qed.

(** ** The coin of the opponent *)

Lemma handle_pocketed_coin_opponent (g : CarromGame) (coin : Coin) :
  is_queen coin = false ->
  turn_of_1_or_2 g ->
  color coin <> own_color (current_player g) ->
  handle_pocketed_coin coin g
  = handle_foul ("Player " ++ str (current_player g) ++ " pocketed opponent's coin!") g.
Proof.
  intros Hq Ht Hc. unfold handle_pocketed_coin. rewrite Hq.
  assert (Hw : color_eqb (color coin) WHITE && (current_player g =? 1)%Z = false).
  { destruct Ht as [E | E]; rewrite E in *; cbn [Z.eqb Pos.eqb].
    - rewrite andb_true_r. destruct (color_eqb (color coin) WHITE) eqn:Ec; [|reflexivity].
      apply color_eqb_eq in Ec. contradiction.
    - apply andb_false_r. }
  assert (Hb : color_eqb (color coin) BLACK && (current_player g =? 2)%Z = false).
  { destruct Ht as [E | E]; rewrite E in *; cbn [Z.eqb Pos.eqb].
    - apply andb_false_r.
    - rewrite andb_true_r. destruct (color_eqb (color coin) BLACK) eqn:Ec; [|reflexivity].
      apply color_eqb_eq in Ec. contradiction. }
  rewrite Hw, Hb. reflexivity.
Qed.

(** X27.  A regular coin that is not of the colour of the player to move is
    a foul: [handle_pocketed_coin] gives no point to anybody, shows the
    message of the opponent's coin, gives the turn to player 3 - p, keeps the
    foul counter that the shot has incremented, and takes the striker off the
    board in the middle of the shot: it is placed at rest on the base line of
    the next player with [is_shooting] cleared.  So the end of the tick does
    not call [check_turn_end]: the turn is switched once and the counter is
    not reset. *)
Theorem opponent_coin_is_a_foul (g : CarromGame) (coin : Coin) :
  is_queen coin = false ->
  turn_of_1_or_2 g ->
  color coin <> own_color (current_player g) ->
  let g' := handle_pocketed_coin coin g in
  let p := current_player g in
  turn_message g' = ("Player " ++ str p ++ " pocketed opponent's coin!")%string
  /\ current_player g' = (3 - p)%Z
  /\ (forall q, player_score g' q = player_score g q)
  /\ foul_count g' = foul_count g
  /\ striker g' = Striker_reset_position (striker g) (3 - p)
  /\ current_player (settle g') = (3 - p)%Z
  /\ foul_count (settle g') = foul_count g.
Proof.
  intros Hq Ht Hc g' p. unfold g', p.
  rewrite (handle_pocketed_coin_opponent g coin Hq Ht Hc).
  set (m := ("Player " ++ str (current_player g) ++ " pocketed opponent's coin!")%string).
  destruct (handle_foul_grows m g) as (_ & _ & _ & _ & _ & _ & _ & _).
  split; [apply handle_foul_message|].
  split; [apply handle_foul_player|].
  split.
  { intros q. unfold player_score, handle_foul.
    destruct (last_pocketed_queen g && negb (queen_covered g));
      [destruct (return_queen (coins g))|]; reflexivity. }
  split; [apply handle_foul_foul_count|].
  split; [apply handle_foul_striker|].
  destruct (settle_cases (handle_foul m g)) as (_ & Hquiet & _).
  destruct Hquiet as [Hf Hp].
  { rewrite handle_foul_striker. cbn [Striker_reset_position is_shooting].
    apply andb_false_r. }
  rewrite Hf, Hp, handle_foul_foul_count, handle_foul_player. split; reflexivity.
Qed.

Lemma opponent_coin_is_a_foul_witness :
  let g := game_with (striker_at 400 650) small_board 1 false 1 2 in
  let g' := handle_pocketed_coin (disc 120 120 BLACK false true) g in
  current_player g' = 2%Z /\ foul_count g' = 1%Z /\ player_score g' 2 = 0%Z.
Proof.
  intros g g'.
  destruct (opponent_coin_is_a_foul g (disc 120 120 BLACK false true))
    as (_ & Hp & Hs & Hf & _).
  - reflexivity.
  - left. reflexivity.
  - discriminate.
  - split; [exact Hp | split; [exact Hf | apply (Hs 2%Z)]].
Defined.

(** ** A regular coin is captured once *)









